(** * kubefed: version manager and status controller

    A shallow embedding of
    - [pkg/controller/util/finalizers/finalizers.go] (package [version]:
      [VersionManager], [Get], [Update], [writeVersion],
      [updateClusterVersions], [VersionMapToClusterVersions]), and
    - [pkg/controller/status/controller.go]
      ([KubeFedStatusController.reconcile], [clusterStatuses]).

    Go maps are [gmap]s, slices are lists, [(T, error)] results are sums,
    the Kube API client is an interface (a type class over the client's
    state) and every call threads that state.  The manager's lock is not
    modelled: calls are sequential. *)

From Stdlib Require Import String Ascii NArith ZArith.
From stdpp Require Import base option list sorting gmap strings.

(** ** Byte-wise string order (Go's [<] on strings) *)

Module StrOrd.

Definition le (a b : string) : Prop := String.leb a b = true.

#[global] Instance le_dec a b : Decision (le a b).
Proof. unfold le. apply _. Defined.

End StrOrd.

(** ** Errors and results *)

(** [metav1.StatusReason] of an API error, as far as [writeVersion]
    distinguishes them. *)
Inductive StatusReason :=
  | ReasonAlreadyExists
  | ReasonConflict
  | ReasonNotFound
  | ReasonForbidden
  | ReasonOther.

(** Go [error] values: an API status error, an error made of a message
    ([errors.New], [fmt.Errorf]), the poll's [context.DeadlineExceeded], and
    [errors.Wrap], whose message is kept as the format string of the
    source. *)
Inductive error :=
  | StatusError (r : StatusReason)
  | ErrorNew (msg : string)
  | DeadlineExceeded
  | Wrap (e : error) (msg : string).

Inductive result (A : Type) :=
  | Ok (a : A)
  | Err (e : error).
Arguments Ok {A} a.
Arguments Err {A} e.

#[global] Instance StatusReason_eq_dec : EqDecision StatusReason.
Proof. solve_decision. Defined.
#[global] Instance error_eq_dec : EqDecision error.
Proof. solve_decision. Defined.
#[global] Instance result_eq_dec `{EqDecision A} : EqDecision (result A).
Proof. solve_decision. Defined.

(** [apierrors.ReasonForError]: the reason of the first API status in the
    chain of wrapped errors. *)
Fixpoint reasonForError (e : error) : option StatusReason :=
  match e with
  | StatusError r => Some r
  | Wrap e' _ => reasonForError e'
  | _ => None
  end.

Definition IsAlreadyExists (e : error) : bool :=
  bool_decide (reasonForError e = Some ReasonAlreadyExists).
Definition IsConflict (e : error) : bool :=
  bool_decide (reasonForError e = Some ReasonConflict).
Definition IsNotFound (e : error) : bool :=
  bool_decide (reasonForError e = Some ReasonNotFound).
Definition IsForbidden (e : error) : bool :=
  bool_decide (reasonForError e = Some ReasonForbidden).

(** ** Qualified names *)

Module util.

(** Modelled from the spec: [util.QualifiedName], whose source is not
    among the files verified here.  A pair of namespace and name, rendered
    as [namespace/name], or just [name] for cluster-scoped resources. *)
Record QualifiedName := {
  Namespace : string;
  Name : string;
}.

#[global] Instance QualifiedName_eq_dec : EqDecision QualifiedName.
Proof. solve_decision. Defined.

Definition QualifiedName_String (n : QualifiedName) : string :=
  if decide (Namespace n = "") then Name n
  else Namespace n +:+ "/" +:+ Name n.

End util.
Import util.

(** ** The version manager *)

Module Version.

(** [fedv1a1.ClusterObjectVersion] *)
Record ClusterObjectVersion := {
  ClusterName : string;
  Version : string;
}.

(** [fedv1a1.PropagatedVersionStatus] *)
Record PropagatedVersionStatus := {
  TemplateVersion : string;
  OverrideVersion : string;
  ClusterVersions : list ClusterObjectVersion;
}.

(** [metav1.OwnerReference], the fields [ownerReferenceForUnstructured]
    sets. *)
Record OwnerReference := {
  ownerAPIVersion : string;
  ownerKind : string;
  ownerName : string;
  ownerUID : string;
}.

(** The identity of the federated object ([resource.Object()]), as read by
    [ownerReferenceForUnstructured]. *)
Record Unstructured := {
  GroupVersion : string;
  Kind : string;
  GetName : string;
  GetUID : string;
}.

(** Modelled from the spec: the version adapter and the type of the
    propagated version, whose sources are not among the files verified
    here.  The persisted record carries its name, its owner, the API's
    resource-version token and the status; the adapter's [NewVersion],
    [GetStatus] and [SetStatus] build the record, read its status and
    replace its status. *)
Record PropagatedVersion := {
  versionName : QualifiedName;
  ownerReference : OwnerReference;
  resourceVersion : string;
  status : PropagatedVersionStatus;
}.

#[global] Instance ClusterObjectVersion_eq_dec : EqDecision ClusterObjectVersion.
Proof. solve_decision. Defined.
#[global] Instance PropagatedVersionStatus_eq_dec :
  EqDecision PropagatedVersionStatus.
Proof. solve_decision. Defined.
#[global] Instance OwnerReference_eq_dec : EqDecision OwnerReference.
Proof. solve_decision. Defined.
#[global] Instance PropagatedVersion_eq_dec : EqDecision PropagatedVersion.
Proof. solve_decision. Defined.

Definition NewVersion (qualifiedName : QualifiedName)
    (owner : OwnerReference) (st : PropagatedVersionStatus) : PropagatedVersion :=
  {| versionName := qualifiedName; ownerReference := owner;
     resourceVersion := ""; status := st |}.

Definition GetStatus (obj : PropagatedVersion) : PropagatedVersionStatus :=
  status obj.

Definition SetStatus (obj : PropagatedVersion) (st : PropagatedVersionStatus)
    : PropagatedVersion :=
  {| versionName := versionName obj; ownerReference := ownerReference obj;
     resourceVersion := resourceVersion obj; status := st |}.

(** [getResourceVersion] and [setResourceVersion]: [meta.Accessor] cannot
    fail on a [runtimeclient.Object], which implements [metav1.Object], so
    neither returns an error here. *)
Definition getResourceVersion (obj : PropagatedVersion) : string :=
  resourceVersion obj.

Definition setResourceVersion (obj : PropagatedVersion) (rv : string)
    : PropagatedVersion :=
  {| versionName := versionName obj; ownerReference := ownerReference obj;
     resourceVersion := rv; status := status obj |}.

(** Two records that differ at most in their resource version. *)
Definition sameRecord (a b : PropagatedVersion) : Prop :=
  versionName a = versionName b ∧ ownerReference a = ownerReference b ∧
  status a = status b.

(** The [VersionedResource] interface.  A value is the resource as one call
    sees it: a resource whose template changed is another value with the
    same [FederatedName]. *)
Record VersionedResource := {
  FederatedName : QualifiedName;
  Object : Unstructured;
  resourceTemplateVersion : result string;
  resourceOverrideVersion : result string;
}.

Definition ownerReferenceForUnstructured (obj : Unstructured) : OwnerReference :=
  {| ownerAPIVersion := GroupVersion obj; ownerKind := Kind obj;
     ownerName := GetName obj; ownerUID := GetUID obj |}.

(** The manager's fields, without the lock and the client (the client's
    state is threaded next to it). *)
Record VersionManager := {
  targetKind : string;
  federatedKind : string;
  namespace : string;
  hasSynced : bool;
  versions : gmap string PropagatedVersion;
}.

Definition NewVersionManager (federatedKind targetKind namespace : string)
    : VersionManager :=
  {| targetKind := targetKind; federatedKind := federatedKind;
     namespace := namespace; hasSynced := false; versions := ∅ |}.

Definition setVersions (m : VersionManager)
    (vs : gmap string PropagatedVersion) : VersionManager :=
  {| targetKind := targetKind m; federatedKind := federatedKind m;
     namespace := namespace m; hasSynced := hasSynced m; versions := vs |}.

(** *** Cluster version lists *)

Definition clusterNameLe (a b : ClusterObjectVersion) : Prop :=
  StrOrd.le (ClusterName a) (ClusterName b).

#[global] Instance clusterNameLe_dec a b : Decision (clusterNameLe a b).
Proof. unfold clusterNameLe. apply _. Defined.

(** Modelled from the spec: [util.SortClusterVersions], whose source is
    not among the files verified here; cluster versions are ordered by
    cluster name.  The lists sorted here have one entry per cluster, so the
    sorting algorithm does not show in the result. *)
Definition SortClusterVersions (l : list ClusterObjectVersion)
    : list ClusterObjectVersion :=
  merge_sort clusterNameLe l.

(** Modelled from the spec: [util.PropagatedVersionStatusEquivalent],
    whose source is not among the files verified here; value equality
    across template version, override version and cluster versions. *)
Definition PropagatedVersionStatusEquivalent
    (pvs1 pvs2 : PropagatedVersionStatus) : bool :=
  bool_decide (TemplateVersion pvs1 = TemplateVersion pvs2) &&
  bool_decide (OverrideVersion pvs1 = OverrideVersion pvs2) &&
  bool_decide (ClusterVersions pvs1 = ClusterVersions pvs2).

(** The body of the loop of [VersionMapToClusterVersions], on the entries
    of the map in the order the iteration yields them. *)
Definition clusterVersionsOfEntries (entries : list (string * string))
    : list ClusterObjectVersion :=
  (λ e, {| ClusterName := e.1; Version := e.2 |}) <$>
    filter (λ e, e.2 ≠ "") entries.

Definition VersionMapToClusterVersions (versionMap : gmap string string)
    : list ClusterObjectVersion :=
  SortClusterVersions (clusterVersionsOfEntries (map_to_list versionMap)).

(** One iteration of the loop of [updateClusterVersions]; the map is the
    caller's map, which the loop writes to. *)
Definition retainVersion (selectedClusterSet : gset string)
    (newVersions : gmap string string) (oldVersion : ClusterObjectVersion)
    : gmap string string :=
  if decide (ClusterName oldVersion ∈ selectedClusterSet) then
    match newVersions !! ClusterName oldVersion with
    | Some _ => newVersions
    | None => <[ClusterName oldVersion := Version oldVersion]> newVersions
    end
  else newVersions.

Definition retainVersions (oldVersions : list ClusterObjectVersion)
    (newVersions : gmap string string) (selectedClusters : list string)
    : gmap string string :=
  foldl (retainVersion (list_to_set selectedClusters)) newVersions oldVersions.

(** [updateClusterVersions] returns the new list; [retainVersions] is what
    it leaves in the map it was given. *)
Definition updateClusterVersions (oldVersions : list ClusterObjectVersion)
    (newVersions : gmap string string) (selectedClusters : list string)
    : list ClusterObjectVersion :=
  VersionMapToClusterVersions
    (retainVersions oldVersions newVersions selectedClusters).

(** The loop of [Get] over the cluster versions of a record. *)
Definition clusterVersionsToMap (l : list ClusterObjectVersion)
    : gmap string string :=
  foldl (λ versionMap v, <[ClusterName v := Version v]> versionMap) ∅ l.

(** *** The laws of the specification, in its words *)

Definition entry (v : ClusterObjectVersion) : string * string :=
  (ClusterName v, Version v).

Definition nonEmptyVersion (e : string * string) : Prop := e.2 ≠ "".

(** A version map restricted to the clusters whose version string is not
    empty. *)
Definition restrictNonEmpty (versionMap : gmap string string)
    : gmap string string :=
  filter nonEmptyVersion versionMap.

(** The entries of the old record's cluster versions whose cluster is in
    [selectedClusters] but absent from [newVersionMap]; of two old entries
    for one cluster the first counts. *)
Definition retainedEntries (oldVersions : list ClusterObjectVersion)
    (newVersionMap : gmap string string) (selectedClusters : list string)
    : gmap string string :=
  list_to_map
    (entry <$> filter (λ v, ClusterName v ∈ selectedClusters ∧
                            newVersionMap !! ClusterName v = None) oldVersions).

(** The union of [newVersionMap] with those entries. *)
Definition mergedVersions (oldVersions : list ClusterObjectVersion)
    (newVersionMap : gmap string string) (selectedClusters : list string)
    : gmap string string :=
  newVersionMap ∪ retainedEntries oldVersions newVersionMap selectedClusters.

(** *** The API client *)

(** [generic.Client], the three calls the manager makes for one record.
    The state of the API (and of the network) is the client's state; every
    call returns the next state.  A call that succeeds yields the
    resource-version token of the object the API returned: [Get] decodes
    into a fresh object, [Create] and [UpdateStatus] decode into the object
    they were given. *)
Class Client (C : Type) := {
  clientGet : C → string → string → C * result string;
  clientCreate : C → PropagatedVersion → C * result string;
  clientUpdateStatus : C → PropagatedVersion → C * result string;
}.

Section manager.

(** [common.PropagatedVersionName], from a package outside the files
    verified here: the name of the version record of a target kind and a
    resource name. *)
Variable PropagatedVersionName : string → string → string.

Context {C : Type} `{!Client C}.

Definition versionQualifiedName (m : VersionManager)
    (qualifiedName : QualifiedName) : QualifiedName :=
  let versionName := PropagatedVersionName (targetKind m) (Name qualifiedName) in
  {| Name := versionName; Namespace := Namespace qualifiedName |}.

Definition HasSynced (m : VersionManager) : bool := hasSynced m.

Definition Get (m : VersionManager) (resource : VersionedResource)
    : result (gmap string string) :=
  let versionMap : gmap string string := ∅ in
  let qualifiedName := versionQualifiedName m (FederatedName resource) in
  let key := QualifiedName_String qualifiedName in
  match versions m !! key with
  | None => Ok versionMap
  | Some obj =>
    let status := GetStatus obj in
    match resourceTemplateVersion resource with
    | Err err => Err (Wrap err "Failed to determine template version")
    | Ok templateVersion =>
      match resourceOverrideVersion resource with
      | Err err => Err (Wrap err "Failed to determine override version")
      | Ok overrideVersion =>
        if bool_decide (templateVersion = TemplateVersion status) &&
           bool_decide (overrideVersion = OverrideVersion status)
        then Ok (clusterVersionsToMap (ClusterVersions status))
        else Ok versionMap
      end
    end
  end.

(** The cluster versions the cache holds for a resource, as the list of
    the record and as the map [Get] makes of that list. *)
Definition cachedVersions (m : VersionManager) (resource : VersionedResource)
    : option (list ClusterObjectVersion) :=
  let qualifiedName := versionQualifiedName m (FederatedName resource) in
  (λ obj, ClusterVersions (GetStatus obj)) <$>
    versions m !! QualifiedName_String qualifiedName.

Definition cachedVersionMap (m : VersionManager) (resource : VersionedResource)
    : option (gmap string string) :=
  clusterVersionsToMap <$> cachedVersions m resource.

Definition Delete (m : VersionManager) (qualifiedName : QualifiedName)
    : VersionManager :=
  let versionQualifiedName := versionQualifiedName m qualifiedName in
  setVersions m (delete (QualifiedName_String versionQualifiedName) (versions m)).

Definition getResourceVersionFromAPI (c : C) (qualifiedName : QualifiedName)
    : C * result string :=
  clientGet c (Namespace qualifiedName) (Name qualifiedName).

(** *** The write protocol *)

(** The variables the closure of [writeVersion] captures and writes, and
    the client. *)
Record writeState := {
  wClient : C;
  wObj : PropagatedVersion;
  wResourceVersion : string;
  wRefreshVersion : bool;
}.

(** What one call of the poll's condition returns: [(false, nil)],
    [(true, nil)] or [(false, err)]. *)
Inductive pollStep :=
  | Retry
  | Done
  | Abort (err : error).

(** The update half of the condition: lines 405 to 452. *)
Definition updateStep (c : C) (obj : PropagatedVersion)
    (resourceVersion : string) : pollStep * writeState :=
  let updatedObj := setResourceVersion obj resourceVersion in
  let '(c, r) := clientUpdateStatus c updatedObj in
  match r with
  | Err err =>
    if IsConflict err then
      (Retry, {| wClient := c; wObj := obj;
                 wResourceVersion := resourceVersion; wRefreshVersion := true |})
    else if IsNotFound err then
      (Retry, {| wClient := c; wObj := obj;
                 wResourceVersion := ""; wRefreshVersion := false |})
    else if IsForbidden err then
      (Abort err, {| wClient := c; wObj := obj;
                     wResourceVersion := resourceVersion;
                     wRefreshVersion := false |})
    else
      (Retry, {| wClient := c; wObj := obj;
                 wResourceVersion := resourceVersion; wRefreshVersion := false |})
  | Ok resourceVersion =>
    (Done, {| wClient := c; wObj := setResourceVersion obj resourceVersion;
              wResourceVersion := resourceVersion; wRefreshVersion := false |})
  end.

(** The create half of the condition followed by the update half: lines
    369 to 452, entered with [refreshVersion] false. *)
Definition createStep (c : C) (obj : PropagatedVersion)
    (resourceVersion : string) : pollStep * writeState :=
  if decide (resourceVersion = "") then
    let createdObj := setResourceVersion obj "" in
    let '(c, r) := clientCreate c createdObj in
    match r with
    | Err err =>
      if IsAlreadyExists err then
        (Retry, {| wClient := c; wObj := obj;
                   wResourceVersion := resourceVersion; wRefreshVersion := true |})
      else if IsForbidden err then
        (Abort err, {| wClient := c; wObj := obj;
                       wResourceVersion := resourceVersion;
                       wRefreshVersion := false |})
      else
        (Retry, {| wClient := c; wObj := obj;
                   wResourceVersion := resourceVersion;
                   wRefreshVersion := false |})
    | Ok resourceVersion => updateStep c obj resourceVersion
    end
  else updateStep c obj resourceVersion.

(** The condition function of the poll in [writeVersion]. *)
Definition writeStep (qualifiedName : QualifiedName) (s : writeState)
    : pollStep * writeState :=
  if wRefreshVersion s then
    let '(c, r) := getResourceVersionFromAPI (wClient s) qualifiedName in
    match r with
    | Err _ =>
      (* the failed call has assigned its empty result to the token *)
      (Retry, {| wClient := c; wObj := wObj s;
                 wResourceVersion := "";
                 wRefreshVersion := true |})
    | Ok resourceVersion => createStep c (wObj s) resourceVersion
    end
  else createStep (wClient s) (wObj s) (wResourceVersion s).

(** [wait.PollUntilContextTimeout] with [immediate] set: the condition runs
    once at once and then once per interval until it is done, returns an
    error, or the deadline passes.  [retries] is the number of intervals
    that fit before the deadline. *)
Fixpoint pollUntil (retries : nat) (qualifiedName : QualifiedName)
    (s : writeState) : option error * writeState :=
  match writeStep qualifiedName s with
  | (Done, s') => (None, s')
  | (Abort err, s') => (Some err, s')
  | (Retry, s') =>
    match retries with
    | 0 => (Some DeadlineExceeded, s')
    | S retries' => pollUntil retries' qualifiedName s'
    end
  end.

(** [writeVersion] returns the error, the object (it sets the object's
    resource version on success) and the client. *)
Definition writeVersion (retries : nat) (c : C) (obj : PropagatedVersion)
    (qualifiedName : QualifiedName) : option error * PropagatedVersion * C :=
  let resourceVersion := getResourceVersion obj in
  let '(err, s) :=
    pollUntil retries qualifiedName
      {| wClient := c; wObj := obj; wResourceVersion := resourceVersion;
         wRefreshVersion := false |} in
  match err with
  | Some err =>
    (Some (Wrap err "Failed to write the version map for %s %q to the API"),
     wObj s, wClient s)
  | None => (None, wObj s, wClient s)
  end.

(** *** Update *)

(** What a call of [Update] leaves behind: the manager, the client, the
    map the caller passed (a Go map is shared with the caller), the error,
    and the number of calls of [writeVersion]. *)
Record updateResult := {
  uManager : VersionManager;
  uClient : C;
  uVersionMap : gmap string string;
  uErr : option error;
  uWrites : nat;
}.

(** The cluster versions of a cached record that are still valid for a
    resource whose versions are [templateVersion] and [overrideVersion]:
    lines 222 to 228 of [Update]. *)
Definition validVersions (oldStatus : PropagatedVersionStatus)
    (templateVersion overrideVersion : string) : list ClusterObjectVersion :=
  if bool_decide (TemplateVersion oldStatus = templateVersion) &&
     bool_decide (OverrideVersion oldStatus = overrideVersion)
  then ClusterVersions oldStatus else [].

(** The status [Update] compares with the cached one and stores: lines
    229 and 234 to 238. *)
Definition mergedStatus (oldStatus : PropagatedVersionStatus)
    (templateVersion overrideVersion : string)
    (versionMap : gmap string string) (selectedClusters : list string)
    : PropagatedVersionStatus :=
  {| TemplateVersion := templateVersion;
     OverrideVersion := overrideVersion;
     ClusterVersions :=
       updateClusterVersions
         (validVersions oldStatus templateVersion overrideVersion)
         versionMap selectedClusters |}.

Definition Update (retries : nat) (m : VersionManager) (c : C)
    (resource : VersionedResource) (selectedClusters : list string)
    (versionMap : gmap string string) : updateResult :=
  match resourceTemplateVersion resource with
  | Err err =>
    {| uManager := m; uClient := c; uVersionMap := versionMap;
       uErr := Some (Wrap err "Failed to determine template version");
       uWrites := 0 |}
  | Ok templateVersion =>
    match resourceOverrideVersion resource with
    | Err err =>
      {| uManager := m; uClient := c; uVersionMap := versionMap;
         uErr := Some (Wrap err "Failed to determine override version");
         uWrites := 0 |}
    | Ok overrideVersion =>
      let qualifiedName := versionQualifiedName m (FederatedName resource) in
      let key := QualifiedName_String qualifiedName in
      match versions m !! key with
      | Some obj =>
        let oldStatus := GetStatus obj in
        let clusterVersions :=
          validVersions oldStatus templateVersion overrideVersion in
        let versionMap' :=
          retainVersions clusterVersions versionMap selectedClusters in
        let clusterVersions :=
          updateClusterVersions clusterVersions versionMap selectedClusters in
        let status :=
          {| TemplateVersion := templateVersion;
             OverrideVersion := overrideVersion;
             ClusterVersions := clusterVersions |} in
        if PropagatedVersionStatusEquivalent oldStatus status then
          {| uManager := m; uClient := c; uVersionMap := versionMap';
             uErr := None; uWrites := 0 |}
        else
          let obj := SetStatus obj status in
          let '(err, obj, c) := writeVersion retries c obj qualifiedName in
          {| uManager := setVersions m (<[key := obj]> (versions m));
             uClient := c; uVersionMap := versionMap';
             uErr := err; uWrites := 1 |}
      | None =>
        let clusterVersions := VersionMapToClusterVersions versionMap in
        let status :=
          {| TemplateVersion := templateVersion;
             OverrideVersion := overrideVersion;
             ClusterVersions := clusterVersions |} in
        let ownerReference := ownerReferenceForUnstructured (Object resource) in
        let obj := NewVersion qualifiedName ownerReference status in
        let '(err, obj, c) := writeVersion retries c obj qualifiedName in
        {| uManager := setVersions m (<[key := obj]> (versions m));
           uClient := c; uVersionMap := versionMap;
           uErr := err; uWrites := 1 |}
      end
    end
  end.

End manager.

End Version.

(** ** A scripted client

    A fake store for running the manager: it answers the calls with the
    replies of a script, in order, and records every call it receives. *)

Module Fake.
Import Version.

Inductive call :=
  | CallGet (namespace name : string)
  | CallCreate (obj : PropagatedVersion)
  | CallUpdateStatus (obj : PropagatedVersion).

(** A call and the answer it got. *)
Definition exchange : Type := call * result string.

Record client := {
  replies : list (result string);
  history : list exchange;
}.

#[global] Instance call_eq_dec : EqDecision call.
Proof. solve_decision. Defined.
#[global] Instance client_eq_dec : EqDecision client.
Proof. solve_decision. Defined.

(** Once the script is used up the store answers with an error that is
    none of the four the manager tells apart. *)
Definition nextReply (c : client) : result string :=
  match replies c with
  | [] => Err (StatusError ReasonOther)
  | r :: _ => r
  end.

Definition answer (c : client) (what : call) : client * result string :=
  ({| replies := tail (replies c);
      history := history c ++ [(what, nextReply c)] |},
   nextReply c).

#[global] Instance fake_client : Client client := {|
  clientGet c namespace name := answer c (CallGet namespace name);
  clientCreate c obj := answer c (CallCreate obj);
  clientUpdateStatus c obj := answer c (CallUpdateStatus obj);
|}.

Definition script (rs : list (result string)) : client :=
  {| replies := rs; history := [] |}.

Definition calls (c : client) : list call := (history c).*1.

(** *** The write protocol as an automaton over the calls

    The call with which a write is attempted under a resource-version
    token: a create without a token, a status update with one. *)
Definition writeCall (obj : PropagatedVersion) (resourceVersion : string) : call :=
  if decide (resourceVersion = "")
  then CallCreate (setResourceVersion obj "")
  else CallUpdateStatus (setResourceVersion obj resourceVersion).

Definition refreshCall (qualifiedName : QualifiedName) : call :=
  CallGet (Namespace qualifiedName) (Name qualifiedName).

(** Which call may come after an exchange, in the words of the
    specification: after a conflict on update the token is refreshed from
    the API; after a not-found on update the record is created; after an
    already-exists on create the token is refreshed; after a forbidden
    create or update, and after an update that succeeded, nothing; any
    other error repeats the write under the token as it is; a refresh that
    failed is repeated, a refresh that succeeded is followed by the write
    under the new token, and a create that succeeded by the update under
    the token it returned. *)
Definition follows (qualifiedName : QualifiedName) (obj : PropagatedVersion)
    (prev : exchange) (next : call) : Prop :=
  match prev with
  | (CallGet _ _, Err _) => next = refreshCall qualifiedName
  | (CallGet _ _, Ok resourceVersion) => next = writeCall obj resourceVersion
  | (CallCreate _, Ok resourceVersion) =>
    next = CallUpdateStatus (setResourceVersion obj resourceVersion)
  | (CallCreate created, Err err) =>
    if IsAlreadyExists err then next = refreshCall qualifiedName
    else if IsForbidden err then False
    else next = CallCreate created
  | (CallUpdateStatus updated, Err err) =>
    if IsConflict err then next = refreshCall qualifiedName
    else if IsNotFound err then next = CallCreate (setResourceVersion obj "")
    else if IsForbidden err then False
    else next = writeCall obj (resourceVersion updated)
  | (CallUpdateStatus _, Ok _) => False
  end.

(** A history whose first call is as expected and in which every call
    follows the exchange before it. *)
Fixpoint conforms (qualifiedName : QualifiedName) (obj : PropagatedVersion)
    (expected : call → Prop) (h : list exchange) : Prop :=
  match h with
  | [] => True
  | x :: h' =>
    expected x.1 ∧ conforms qualifiedName obj (follows qualifiedName obj x) h'
  end.

(** The call the condition of the poll makes first in a state. *)
Definition nextCall (qualifiedName : QualifiedName) (s : writeState (C:=client))
    : call :=
  if wRefreshVersion s then refreshCall qualifiedName
  else writeCall (wObj s) (wResourceVersion s).

(** How a step of the poll ends, read off the last exchange. *)
Definition stepEnds (qualifiedName : QualifiedName) (obj : PropagatedVersion)
    (step : pollStep) (s' : writeState (C:=client))
    (lastExchange : exchange) : Prop :=
  match step with
  | Retry =>
    wObj s' = obj ∧
    follows qualifiedName obj lastExchange (nextCall qualifiedName s') ∧
    ∃ what err, lastExchange = (what, Err err)
  | Done => ∃ updated resourceVersion,
      lastExchange = (CallUpdateStatus updated, Ok resourceVersion)
  | Abort err =>
    IsForbidden err = true ∧
    ((∃ created, lastExchange = (CallCreate created, Err err)) ∨
     (∃ updated, lastExchange = (CallUpdateStatus updated, Err err)))
  end.

(** What a step adds to the history: exchanges that conform to the
    protocol, the first being [expected], the last deciding the step. *)
Definition stepTrace (qualifiedName : QualifiedName) (obj : PropagatedVersion)
    (h0 : list exchange) (expected : call)
    (step : pollStep) (s' : writeState (C:=client)) : Prop :=
  ∃ ex lastExchange,
    history (wClient s') = h0 ++ ex ∧
    last ex = Some lastExchange ∧
    conforms qualifiedName obj (eq expected) ex ∧
    stepEnds qualifiedName obj step s' lastExchange.

(** How the poll ends, read off the last exchange of the history. *)
Definition pollEnds (qualifiedName : QualifiedName) (obj : PropagatedVersion)
    (err : option error) (lastExchange : exchange) : Prop :=
  match err with
  | None => ∃ updated resourceVersion,
      lastExchange = (CallUpdateStatus updated, Ok resourceVersion)
  | Some err =>
    (IsForbidden err = true ∧
     ((∃ created, lastExchange = (CallCreate created, Err err)) ∨
      (∃ updated, lastExchange = (CallUpdateStatus updated, Err err)))) ∨
    (err = DeadlineExceeded ∧
     (∃ next, follows qualifiedName obj lastExchange next) ∧
     ∃ what err', lastExchange = (what, Err err'))
  end.

(** A stand-in for [common.PropagatedVersionName] in the examples. *)
Definition versionNameOf (kind name : string) : string :=
  kind +:+ "-" +:+ name.

End Fake.

(** ** Counting the runs of the poll's condition *)

Module Attempts.
Import Version Fake.

(** An exchange in which the API refused the call. *)
Definition refused (x : exchange) : bool :=
  match x.2 with
  | Err _ => true
  | Ok _ => false
  end.

(** The number of refused calls of a history.  A run of the condition of
    the poll in [writeVersion] returns at the first call the API refuses,
    or after the status update that succeeded; so the refused calls of a
    history are as many as the runs of the condition that came to an end
    without success.  When [retries] intervals fit before the deadline,
    the condition runs at most [retries + 1] times: after a refused call
    another run fits exactly when fewer than [retries] calls were refused
    before it. *)
Definition failures (h : list exchange) : nat :=
  length (filter (λ x, refused x = true) h).

End Attempts.

Module Examples.
Import Version Fake.

Definition manager : VersionManager :=
  NewVersionManager "FederatedConfigMap" "configmap" "kube-federation-system".

Definition resource (tv ov : result string) : VersionedResource :=
  {| FederatedName := {| Namespace := "ns"; Name := "cm" |};
     Object := {| GroupVersion := "types.kubefed.io/v1beta1";
                  Kind := "FederatedConfigMap"; GetName := "cm"; GetUID := "u1" |};
     resourceTemplateVersion := tv;
     resourceOverrideVersion := ov |}.

(** A record of the resource, as a write that succeeded left it. *)
Definition record (st : PropagatedVersionStatus) : PropagatedVersion :=
  setResourceVersion
    (NewVersion {| Namespace := "ns"; Name := versionNameOf "configmap" "cm" |}
       (ownerReferenceForUnstructured (Object (resource (Ok "t1") (Ok "o1")))) st)
    "5".

Definition managerWith (st : PropagatedVersionStatus) : VersionManager :=
  setVersions manager {[ "ns/configmap-cm" := record st ]}.

Definition cv (clusterName version : string) : ClusterObjectVersion :=
  {| ClusterName := clusterName; Version := version |}.

Definition statusOf (templateVersion overrideVersion : string)
    (clusterVersions : list ClusterObjectVersion) : PropagatedVersionStatus :=
  {| TemplateVersion := templateVersion; OverrideVersion := overrideVersion;
     ClusterVersions := clusterVersions |}.

Definition R : VersionedResource := resource (Ok "t1") (Ok "o1").

(** A store that answers every write with success. *)
Definition store : client := script [Ok "6"; Ok "7"; Ok "8"; Ok "9"].

(** The prior state of the merge law: c1 and c2 at v1. *)
Definition prior : VersionManager :=
  managerWith (statusOf "t1" "o1" [cv "c1" "v1"; cv "c2" "v1"]).

(** A record of an older template. *)
Definition stale : VersionManager :=
  managerWith (statusOf "t0" "o1" [cv "c1" "v1"; cv "c2" "v1"]).

End Examples.

(** ** The status controller *)

Module Status.

(** The content of an [unstructured.Unstructured]: JSON as Go decodes it
    into [interface{}]. *)
#[warnings="-register-all"]
Inductive value :=
  | VNull
  | VBool (b : bool)
  | VInt (z : Z)
  | VString (s : string)
  | VList (l : list value)
  | VMap (m : gmap string value).

#[global] Instance value_eq_dec : EqDecision value.
Proof.
  refine (fix go (x y : value) {struct x} : Decision (x = y) :=
    let _ : EqDecision value := go in
    match x, y with
    | VNull, VNull => left _
    | VBool a, VBool b => cast_if (decide (a = b))
    | VInt a, VInt b => cast_if (decide (a = b))
    | VString a, VString b => cast_if (decide (a = b))
    | VList a, VList b => cast_if (decide (a = b))
    | VMap a, VMap b => cast_if (decide (a = b))
    | _, _ => right _
    end); abstract congruence.
Defined.

(** Go's index expression [obj[k]] on a [map[string]interface{}]: [nil]
    for a key that is not there. *)
Definition index (obj : gmap string value) (k : string) : value :=
  default VNull (obj !! k).

(** [reflect.DeepEqual] on two decoded values. *)
Definition DeepEqual (a b : value) : bool := bool_decide (a = b).

(** [unstructured.NestedMap(obj, field)] for a path of one field: the map,
    whether it was found, and the accessor's error when the field holds
    something that is not a map. *)
Definition NestedMap (obj : gmap string value) (field : string)
    : option (gmap string value) * bool * option error :=
  match obj !! field with
  | None => (None, false, None)
  | Some (VMap m) => (Some m, true, None)
  | Some _ =>
    (None, false,
     Some (ErrorNew
       "%v accessor error: %v is of the type %T, expected map[string]interface{}"))
  end.

(** Modelled from the spec: [util.ReconciliationStatus], whose source is
    not among the files verified here; the four outcomes of a reconcile are
    AllOK, NeedsRecheck, Error and NotSynced. *)
Inductive ReconciliationStatus :=
  | StatusAllOK
  | StatusNeedsRecheck
  | StatusError
  | StatusNotSynced.

#[global] Instance ReconciliationStatus_eq_dec : EqDecision ReconciliationStatus.
Proof. solve_decision. Defined.

(** How a call of [reconcile] ends: it returns a status, or [klog.Fatalf]
    ends the process with [os.Exit(255)]. *)
Inductive outcome :=
  | Returned (s : ReconciliationStatus)
  | Exited (code : Z).

(** [util.ResourceClusterStatus], as [clusterStatuses] builds it. *)
Record ResourceClusterStatus := {
  ClusterName : string;
  Status : option (gmap string value);
}.

#[global] Instance ResourceClusterStatus_eq_dec : EqDecision ResourceClusterStatus.
Proof. solve_decision. Defined.

(** [util.FederatedResource], as [reconcile] builds it. *)
Record FederatedResource := {
  Kind : string;
  APIVersion : string;
  Name : string;
  Namespace : string;
  OwnerReferences : list Version.OwnerReference;
  ClusterStatus : list ResourceClusterStatus;
}.

(** The federated object, as [reconcile] reads it through the accessors of
    [unstructured.Unstructured]. *)
Record federatedObject := {
  GetAPIVersion : string;
  GetKind : string;
  GetName : string;
  GetUID : string;
  GetDeletionTimestamp : option string;
}.

(** The three answers of [GetByKey]: an error, no such object, the
    object. *)
Inductive cached (A : Type) :=
  | CacheError (err : error)
  | CacheAbsent
  | CacheFound (obj : A).
Arguments CacheError {A} err.
Arguments CacheAbsent {A}.
Arguments CacheFound {A} obj.

(** What the controller reads of its [typeconfig.Interface]. *)
Record typeConfig := {
  federatedTypeKind : string;
  statusTypeKind : string;
  statusTypeGroup : string;
  statusTypeVersion : string;
  targetTypeKind : string;
}.

(** The informers and stores at one moment. *)
Record informers := {
  ClustersSynced : bool;
  federatedHasSynced : bool;
  statusHasSynced : bool;
  GetReadyClusters : result (list string);
  targetClustersSynced : list string → bool;
  federatedStore : string → cached federatedObject;
  statusStore : string → cached (gmap string value);
  targetStore : string → string → cached (gmap string value);
}.

(** The controller: its type config, the informers at each poll of
    [waitForSync], the number of polls that fit into [cacheSyncTimeout]
    after the first, and what the API answers to a create and to an update
    of a status object. *)
Record KubeFedStatusController := {
  typeCfg : typeConfig;
  informerAt : nat → informers;
  syncRetries : nat;
  statusCreate : string → gmap string value → option error;
  statusUpdate : string → gmap string value → option error;
}.

(** The calls [reconcile] makes on [statusClient]. *)
Inductive write :=
  | Create (namespace : string) (obj : gmap string value)
  | Update (namespace : string) (obj : gmap string value).

#[global] Instance write_eq_dec : EqDecision write.
Proof. solve_decision. Defined.

Definition isSynced (i : informers) : bool :=
  if negb (ClustersSynced i) then false
  else if negb (federatedHasSynced i) then false
  else if negb (statusHasSynced i) then false
  else
    match GetReadyClusters i with
    | Err _ => false
    | Ok clusters =>
      if negb (targetClustersSynced i clusters) then false else true
    end.

(** [waitForSync]: [isSynced] is polled at once and then once per period;
    the result is the poll at which the stores were in sync, or the error
    of the deadline. *)
Fixpoint pollSynced (informerAt : nat → informers) (poll retries : nat)
    : result nat :=
  if isSynced (informerAt poll) then Ok poll
  else
    match retries with
    | 0 => Err DeadlineExceeded
    | S retries' => pollSynced informerAt (S poll) retries'
    end.

Definition waitForSync (s : KubeFedStatusController) : result nat :=
  pollSynced (informerAt s) 0 (syncRetries s).

Definition rawObjFromCache {A} (store : string → cached A) (key : string)
    : result (option A) :=
  match store key with
  | CacheError err => Err err
  | CacheAbsent => Ok None
  | CacheFound obj => Ok (Some obj)
  end.

Definition objFromCache {A} (store : string → cached A) (key : string)
    : result (option A) :=
  match rawObjFromCache store key with
  | Err err => Err err
  | Ok None => Ok None
  | Ok (Some obj) => Ok (Some obj)
  end.

Definition clusterNames (i : informers) : result (list string) :=
  match GetReadyClusters i with
  | Err err => Err err
  | Ok clusters =>
    Ok (foldl (λ clusterNames cluster, clusterNames ++ [cluster]) [] clusters)
  end.

Definition byClusterName (a b : ResourceClusterStatus) : Prop :=
  StrOrd.le (ClusterName a) (ClusterName b).

#[global] Instance byClusterName_dec a b : Decision (byClusterName a b).
Proof. unfold byClusterName. apply _. Defined.

(** The status [clusterStatuses] records for a cluster whose store
    answered without an error: lines 393 to 403. *)
Definition statusOf (exist : option (gmap string value))
    : option (gmap string value) :=
  match exist with
  | Some clusterObj =>
    let '(status, found, err) := NestedMap clusterObj "status" in
    status
  | None => None
  end.

(** The loop of [clusterStatuses]. *)
Fixpoint collectStatuses (i : informers) (key : string)
    (clusterStatus : list ResourceClusterStatus) (clusterNames : list string)
    : result (list ResourceClusterStatus) :=
  match clusterNames with
  | [] => Ok clusterStatus
  | clusterName :: rest =>
    match targetStore i clusterName key with
    | CacheError err =>
      Err (Wrap err "Failed to get %s %q from cluster %q")
    | CacheAbsent =>
      collectStatuses i key
        (clusterStatus ++
           [{| ClusterName := clusterName; Status := statusOf None |}])
        rest
    | CacheFound clusterObj =>
      collectStatuses i key
        (clusterStatus ++
           [{| ClusterName := clusterName; Status := statusOf (Some clusterObj) |}])
        rest
    end
  end.

(** The entry of a cluster whose store answers without an error, in the
    words of the specification: the status map of the target object, or
    nil when the object is absent or has no status map. *)
Definition entryOf (i : informers) (key clusterName : string)
    : ResourceClusterStatus :=
  {| ClusterName := clusterName;
     Status :=
       match targetStore i clusterName key with
       | CacheFound clusterObj =>
         match clusterObj !! "status" with
         | Some (VMap status) => Some status
         | _ => None
         end
       | _ => None
       end |}.

(** [clusterStatuses].  [sort.Slice] is a sort by cluster name; the names
    of ready clusters differ from one another, so the algorithm does not
    show in the result. *)
Definition clusterStatuses (i : informers) (clusterNames : list string)
    (key : string) : result (list ResourceClusterStatus) :=
  match collectStatuses i key [] clusterNames with
  | Err err => Err err
  | Ok clusterStatus => Ok (merge_sort byClusterName clusterStatus)
  end.

(** [schema.GroupVersion.String] *)
Definition GroupVersion_String (group version : string) : string :=
  if decide (group = "") then version else group +:+ "/" +:+ version.

Definition clusterStatusField : string := "clusterStatus".

Section reconcile.

(** [util.GetUnstructured], from a package outside the files verified
    here: the conversion of the federated resource into the object that is
    written. *)
Variable GetUnstructured : FederatedResource → result (gmap string value).

(** Lines 322 to 340 of [reconcile]: the write of the status.  The empty
    slice of [util.ResourceClusterStatus] that replaces a nil
    [clusterStatus] is the empty list here: that is what is written. *)
Definition writeStatus (s : KubeFedStatusController)
    (qualifiedName : QualifiedName)
    (existingStatus : option (gmap string value))
    (status : gmap string value) : outcome * list write :=
  match existingStatus with
  | None =>
    match statusCreate s (util.Namespace qualifiedName) status with
    | Some err =>
      (Returned StatusNeedsRecheck,
       [Create (util.Namespace qualifiedName) status])
    | None =>
      (Returned StatusAllOK, [Create (util.Namespace qualifiedName) status])
    end
  | Some existingStatus =>
    if negb (DeepEqual (index existingStatus clusterStatusField)
                       (index status clusterStatusField)) then
      let status :=
        if decide (index status clusterStatusField = VNull)
        then <[clusterStatusField := VList []]> status else status in
      let existingStatus :=
        <[clusterStatusField := index status clusterStatusField]>
          existingStatus in
      match statusUpdate s (util.Namespace qualifiedName) existingStatus with
      | Some err =>
        (Returned StatusNeedsRecheck,
         [Update (util.Namespace qualifiedName) existingStatus])
      | None =>
        (Returned StatusAllOK,
         [Update (util.Namespace qualifiedName) existingStatus])
      end
    else (Returned StatusAllOK, [])
  end.

(** [reconcile], after [waitForSync] has returned without an error, on the
    informers of that moment. *)
Definition reconcileSynced (s : KubeFedStatusController) (i : informers)
    (qualifiedName : QualifiedName) : outcome * list write :=
  let federatedKind := federatedTypeKind (typeCfg s) in
  let statusKind := statusTypeKind (typeCfg s) in
  let key := QualifiedName_String qualifiedName in
  match objFromCache (federatedStore i) key with
  | Err _ => (Returned StatusError, [])
  | Ok None => (Returned StatusAllOK, [])
  | Ok (Some fedObject) =>
    if bool_decide (GetDeletionTimestamp fedObject ≠ None) then
      (Returned StatusAllOK, [])
    else
      match clusterNames i with
      | Err _ => (Returned StatusNotSynced, [])
      | Ok clusterNames =>
        match clusterStatuses i clusterNames key with
        | Err _ => (Returned StatusError, [])
        | Ok clusterStatus =>
          match objFromCache (statusStore i) key with
          | Err _ => (Returned StatusError, [])
          | Ok existingStatus =>
            let resourceGroupVersion :=
              GroupVersion_String (statusTypeGroup (typeCfg s))
                                  (statusTypeVersion (typeCfg s)) in
            let federatedResource :=
              {| Kind := statusTypeKind (typeCfg s);
                 APIVersion := resourceGroupVersion;
                 Name := util.Name qualifiedName;
                 Namespace := util.Namespace qualifiedName;
                 OwnerReferences :=
                   [{| Version.ownerAPIVersion := GetAPIVersion fedObject;
                       Version.ownerKind := GetKind fedObject;
                       Version.ownerName := GetName fedObject;
                       Version.ownerUID := GetUID fedObject |}];
                 ClusterStatus := clusterStatus |} in
            match GetUnstructured federatedResource with
            | Err _ => (Returned StatusError, [])
            | Ok status => writeStatus s qualifiedName existingStatus status
            end
          end
        end
      end
  end.

Definition reconcile (s : KubeFedStatusController)
    (qualifiedName : QualifiedName) : outcome * list write :=
  match waitForSync s with
  | Err err => (Exited 255, [])
  | Ok poll => reconcileSynced s (informerAt s poll) qualifiedName
  end.

End reconcile.

(** The controller once its status informer has delivered a write: the
    status store holds the written object under the key, at every poll. *)
Definition deliver (s : KubeFedStatusController) (key : string)
    (written : gmap string value) : KubeFedStatusController :=
  {| typeCfg := typeCfg s;
     informerAt poll :=
       let i := informerAt s poll in
       {| ClustersSynced := ClustersSynced i;
          federatedHasSynced := federatedHasSynced i;
          statusHasSynced := statusHasSynced i;
          GetReadyClusters := GetReadyClusters i;
          targetClustersSynced := targetClustersSynced i;
          federatedStore := federatedStore i;
          statusStore k :=
            if decide (k = key) then CacheFound written else statusStore i k;
          targetStore := targetStore i |};
     syncRetries := syncRetries s;
     statusCreate := statusCreate s;
     statusUpdate := statusUpdate s |}.

End Status.

Module StatusExamples.
Import Status.

Definition ownerReferenceValue (o : Version.OwnerReference) : value :=
  VMap {[ "apiVersion" := VString (Version.ownerAPIVersion o);
          "kind" := VString (Version.ownerKind o);
          "name" := VString (Version.ownerName o);
          "uid" := VString (Version.ownerUID o) ]}.

Definition clusterStatusValue (c : ResourceClusterStatus) : value :=
  VMap (match Status c with
        | Some status => <["status" := VMap status]>
        | None => id
        end {[ "clusterName" := VString (ClusterName c) ]}).

(** A stand-in for [util.GetUnstructured] in the examples: the JSON of the
    federated resource, decoded again, in which an empty [clusterStatus]
    and a nil [status] are left out.  This is the case for which
    [reconcile] sets [status.Object["clusterStatus"]] when it is nil. *)
Definition toUnstructured (r : FederatedResource)
    : result (gmap string value) :=
  let object : gmap string value :=
    {[ "kind" := VString (Kind r);
       "apiVersion" := VString (APIVersion r);
       "metadata" :=
         VMap {[ "name" := VString (Name r);
                 "namespace" := VString (Namespace r);
                 "ownerReferences" :=
                   VList (ownerReferenceValue <$> OwnerReferences r) ]} ]} in
  Ok (match ClusterStatus r with
      | [] => object
      | clusterStatus =>
        <["clusterStatus" := VList (clusterStatusValue <$> clusterStatus)]> object
      end).

Definition config : typeConfig :=
  {| federatedTypeKind := "FederatedConfigMap";
     statusTypeKind := "FederatedConfigMapStatus";
     statusTypeGroup := "types.kubefed.io";
     statusTypeVersion := "v1beta1";
     targetTypeKind := "ConfigMap" |}.

Definition federated : federatedObject :=
  {| GetAPIVersion := "types.kubefed.io/v1beta1";
     GetKind := "FederatedConfigMap";
     GetName := "cm";
     GetUID := "u1";
     GetDeletionTimestamp := None |}.

Definition running : gmap string value := {[ "phase" := VString "Running" ]}.

(** Member clusters A and B: the target object of A has a status, that of
    B is absent from its cache; a cluster C whose store fails. *)
Definition targets (clusterName key : string) : cached (gmap string value) :=
  if decide (clusterName = "A")
  then CacheFound {[ "kind" := VString "ConfigMap"; "status" := VMap running ]}
  else if decide (clusterName = "C")
  then CacheError (ErrorNew "store failed")
  else CacheAbsent.

(** Informers in sync, with the given ready clusters and the given status
    object in the status store. *)
Definition synced (ready : list string)
    (existing : cached (gmap string value)) : informers :=
  {| ClustersSynced := true;
     federatedHasSynced := true;
     statusHasSynced := true;
     GetReadyClusters := Ok ready;
     targetClustersSynced _ := true;
     federatedStore key :=
       if decide (key = "ns/cm") then CacheFound federated else CacheAbsent;
     statusStore key :=
       if decide (key = "ns/cm") then existing else CacheAbsent;
     targetStore := targets |}.

Definition unsynced : informers :=
  {| ClustersSynced := false;
     federatedHasSynced := true;
     statusHasSynced := true;
     GetReadyClusters := Ok [];
     targetClustersSynced _ := true;
     federatedStore _ := CacheAbsent;
     statusStore _ := CacheAbsent;
     targetStore := targets |}.

Definition controller (i : informers) : KubeFedStatusController :=
  {| typeCfg := config;
     informerAt _ := i;
     syncRetries := 5;
     statusCreate _ _ := None;
     statusUpdate _ _ := None |}.

Definition cm : QualifiedName := {| util.Namespace := "ns"; util.Name := "cm" |}.

(** A status object as a reconcile over cluster A alone left it, with a
    field of another writer. *)
Definition persisted : gmap string value :=
  {[ "kind" := VString "FederatedConfigMapStatus";
     "note" := VString "kept";
     "clusterStatus" :=
       VList [clusterStatusValue
                {| ClusterName := "A"; Status := Some running |}] ]}.

End StatusExamples.

(** ** Finalizers

    Package [finalizers] of [pkg/controller/util/finalizers/finalizers.go].
    An object is seen through its finalizers ([ObjectMeta.Finalizers]), the
    only field the three functions read or write.  [meta.Accessor] cannot
    fail on a [runtimeclient.Object], so the error the functions return is
    always nil and is left out. *)

Module Finalizers.

(** [sets.List]: the members of a set as a sorted slice. *)
Definition sets_List (s : gset string) : list string :=
  merge_sort StrOrd.le (elements s).

Definition HasFinalizer (obj : list string) (finalizer : string) : bool :=
  let finalizers : gset string := list_to_set obj in
  bool_decide (finalizer ∈ finalizers).

(** [AddFinalizers] returns whether it updated the object, and the
    finalizers of the object afterwards. *)
Definition AddFinalizers (obj : list string) (newFinalizers : gset string)
    : bool * list string :=
  let oldFinalizers : gset string := list_to_set obj in
  if bool_decide (newFinalizers ⊆ oldFinalizers) then (false, obj)
  else
    let allFinalizers := oldFinalizers ∪ newFinalizers in
    (true, sets_List allFinalizers).

Definition RemoveFinalizers (obj : list string) (finalizers : gset string)
    : bool * list string :=
  let oldFinalizers : gset string := list_to_set obj in
  if bool_decide (size (oldFinalizers ∩ finalizers) = 0) then (false, obj)
  else
    let newFinalizers := oldFinalizers ∖ finalizers in
    (true, sets_List newFinalizers).

End Finalizers.

(** ** Loading the version manager

    [Sync], [list] and [load] of the version manager.  The API's answers to
    the listing and the moment the stop channel is closed come from
    outside: they are arguments here. *)

Module VersionSync.
Import Version.

(** How [list] ends: it is still polling when the polls looked at are used
    up, it was halted by the stop channel, or it has the list. *)
Inductive listResult :=
  | StillPolling
  | Halted
  | Listed (items : list PropagatedVersion).

(** Whether the stop channel is closed at a moment, [stopAt] being the
    moment it is closed, if it ever is. *)
Definition closed (stopAt : option nat) (now : nat) : bool :=
  match stopAt with
  | Some k => bool_decide (k ≤ now)
  | None => false
  end.

(** [list] (the name is taken by the type of lists): the condition of
    [wait.PollUntilContextCancel], which has no deadline, at each poll.
    [listAt poll] is the answer of the API to the listing made at that
    poll. *)
Fixpoint listVersions (polls : nat) (poll : nat)
    (listAt : nat → result (list PropagatedVersion)) (stopAt : option nat)
    : listResult :=
  match polls with
  | 0 => StillPolling
  | S polls' =>
    if closed stopAt poll then Halted
    else
      match listAt poll with
      | Err _ => listVersions polls' (S poll) listAt stopAt
      | Ok versionList => Listed versionList
      end
  end.

(** Modelled from the spec: [util.NewQualifiedName], whose source is not
    among the files verified here; the namespace and name of an object. *)
Definition NewQualifiedName (obj : PropagatedVersion) : QualifiedName :=
  {| Namespace := Namespace (versionName obj);
     Name := Name (versionName obj) |}.

Section load.

(** [common.PropagatedVersionPrefix], from a package outside the files
    verified here: the prefix of the names of the version records of a
    target kind. *)
Variable PropagatedVersionPrefix : string → string.

(** The loop of [load].  [stopAt] counts in items: the channel is found
    closed before the item of that index. *)
Fixpoint loadItems (typePrefix : string)
    (versions : gmap string PropagatedVersion)
    (items : list PropagatedVersion) (item : nat) (stopAt : option nat)
    : gmap string PropagatedVersion * bool :=
  match items with
  | [] => (versions, true)
  | obj :: rest =>
    if closed stopAt item then (versions, false)
    else
      let qualifiedName := NewQualifiedName obj in
      let versions :=
        if String.prefix typePrefix (Name qualifiedName)
        then <[QualifiedName_String qualifiedName := obj]> versions
        else versions in
      loadItems typePrefix versions rest (S item) stopAt
  end.

(** [load]; [extracted] is what [meta.ExtractList] makes of the list. *)
Definition load (m : VersionManager)
    (extracted : result (list PropagatedVersion)) (stopAt : option nat)
    : VersionManager * bool :=
  let typePrefix := PropagatedVersionPrefix (targetKind m) in
  match extracted with
  | Err _ => (m, false)
  | Ok items =>
    let '(versions, finished) :=
      loadItems typePrefix (versions m) items 0 stopAt in
    if finished then
      ({| targetKind := targetKind m; federatedKind := federatedKind m;
          namespace := namespace m; hasSynced := true;
          versions := versions |}, true)
    else (setVersions m versions, false)
  end.

(** [Sync]: the manager afterwards, or nothing while [list] is still
    polling.  [listStop] is the poll at which the stop channel is closed,
    [loadStop] the item of the load before which it is found closed. *)
Definition Sync (polls : nat) (m : VersionManager)
    (listAt : nat → result (list PropagatedVersion))
    (listStop loadStop : option nat) : option VersionManager :=
  match listVersions polls 0 listAt listStop with
  | StillPolling => None
  | Halted => Some m
  | Listed versionList => Some (load m (Ok versionList) loadStop).1
  end.

End load.

End VersionSync.

Module SyncExamples.
Import Version Fake Examples.

(** A stand-in for [common.PropagatedVersionPrefix] in the examples. *)
Definition typePrefixOf (kind : string) : string := kind +:+ "-".

(** The records of a namespace: one of a config map and one of a secret. *)
Definition listed : list PropagatedVersion :=
  [record (statusOf "t1" "o1" [cv "c1" "v1"]);
   setResourceVersion
     (NewVersion {| Namespace := "ns"; Name := "secret-cm" |}
        (ownerReferenceForUnstructured (Object R))
        (statusOf "t1" "o1" [])) "3"].

(** An API that fails the first two listings. *)
Definition listings (poll : nat) : result (list PropagatedVersion) :=
  if poll <? 2 then Err (ErrorNew "unavailable") else Ok listed.

End SyncExamples.

(** ** What the status controller writes *)

Module StatusWrites.
Import Status.

(** The object a call on [statusClient] carries. *)
Definition payload (w : write) : gmap string value :=
  match w with
  | Create _ obj => obj
  | Update _ obj => obj
  end.

(** What the API answers to a call of the controller. *)
Definition answered (s : KubeFedStatusController) (w : write) : option error :=
  match w with
  | Create namespace obj => statusCreate s namespace obj
  | Update namespace obj => statusUpdate s namespace obj
  end.

(** The namespace a call addresses. *)
Definition addressed (w : write) : string :=
  match w with
  | Create namespace _ => namespace
  | Update namespace _ => namespace
  end.

End StatusWrites.

(** ** What the write protocol may send *)

Module Payload.
Import Version Fake.

(** A call that concerns the record [obj] under the name [qualifiedName]
    and nothing else: a fetch of that name, a create of the record without
    a resource version, or a status update of the record under some
    resource version. *)
Definition concerns (qualifiedName : QualifiedName) (obj : PropagatedVersion)
    (what : call) : Prop :=
  match what with
  | CallGet namespace name =>
    namespace = Namespace qualifiedName ∧ name = Name qualifiedName
  | CallCreate created => sameRecord created obj ∧ resourceVersion created = ""
  | CallUpdateStatus updated => sameRecord updated obj
  end.

End Payload.

(** * Properties of the string order *)

Module StrOrdFacts.
Import StrOrd.

Lemma compare_refl (s : string) : String.compare s s = Eq.
Proof.
  induction s as [|c s IH]; simpl; [reflexivity|].
  unfold Ascii.compare. rewrite N.compare_refl. exact IH.
Qed.

Lemma compare_eq (a b : string) : String.compare a b = Eq ↔ a = b.
Proof.
  split; [apply String.compare_eq_iff|intros ->; apply compare_refl].
Qed.

Lemma ascii_compare_lt_trans (a b c : ascii) :
  Ascii.compare a b = Lt → Ascii.compare b c = Lt → Ascii.compare a c = Lt.
Proof.
  unfold Ascii.compare. rewrite !N.compare_lt_iff. apply N.lt_trans.
Qed.

Lemma compare_lt_trans (a b c : string) :
  String.compare a b = Lt → String.compare b c = Lt → String.compare a c = Lt.
Proof.
  revert b c. induction a as [|x a IH]; intros [|y b] [|z c]; simpl; try done.
  destruct (Ascii.compare x y) eqn:Hxy; try done;
    destruct (Ascii.compare y z) eqn:Hyz; try done.
  - apply Ascii.compare_eq_iff in Hxy, Hyz. subst.
    unfold Ascii.compare. rewrite N.compare_refl. apply IH.
  - apply Ascii.compare_eq_iff in Hxy. subst. by rewrite Hyz.
  - apply Ascii.compare_eq_iff in Hyz. subst. by rewrite Hxy.
  - by rewrite (ascii_compare_lt_trans _ _ _ Hxy Hyz).
Qed.

#[global] Instance le_refl : Reflexive le.
Proof. intros s. unfold le, String.leb. by rewrite compare_refl. Qed.

#[global] Instance le_trans : Transitive le.
Proof.
  intros a b c. unfold le, String.leb.
  destruct (String.compare a b) eqn:Hab; [|intros _|done].
  - apply compare_eq in Hab. by subst.
  - destruct (String.compare b c) eqn:Hbc; [|intros _|done].
    + apply compare_eq in Hbc. subst. by rewrite Hab.
    + by rewrite (compare_lt_trans _ _ _ Hab Hbc).
Qed.

#[global] Instance le_total : Total le.
Proof. intros a b. apply String.leb_total. Qed.

#[global] Instance le_antisym : AntiSymm (=) le.
Proof. intros a b. apply String.leb_antisym. Qed.

End StrOrdFacts.


(** * Properties of the version manager *)

Module VersionFacts.
Import Version.

(** ** Cluster version lists as maps *)

#[global] Instance clusterNameLe_trans : Transitive clusterNameLe.
Proof. intros a b c. unfold clusterNameLe. apply transitivity. Qed.

#[global] Instance clusterNameLe_total : Total clusterNameLe.
Proof. intros a b. unfold clusterNameLe. apply total, _. Qed.

Lemma entry_clusterVersionsOfEntries (entries : list (string * string)) :
  entry <$> clusterVersionsOfEntries entries = filter nonEmptyVersion entries.
Proof.
  unfold clusterVersionsOfEntries. rewrite <-list_fmap_compose.
  etrans; [|apply list_fmap_id].
  apply list_fmap_ext. by intros _ [??] _.
Qed.

Lemma SortClusterVersions_Permutation l : SortClusterVersions l ≡ₚ l.
Proof. apply merge_sort_Permutation. Qed.

Lemma SortClusterVersions_sorted l :
  StronglySorted clusterNameLe (SortClusterVersions l).
Proof. apply StronglySorted_merge_sort; apply _. Qed.

Lemma entry_VersionMapToClusterVersions (versionMap : gmap string string) :
  entry <$> VersionMapToClusterVersions versionMap
  ≡ₚ filter nonEmptyVersion (map_to_list versionMap).
Proof.
  unfold VersionMapToClusterVersions.
  rewrite SortClusterVersions_Permutation.
  by rewrite entry_clusterVersionsOfEntries.
Qed.

Lemma NoDup_filter_entries (versionMap : gmap string string) :
  NoDup (filter nonEmptyVersion (map_to_list versionMap)).*1.
Proof.
  eapply sublist_NoDup; [apply (NoDup_fst_map_to_list versionMap)|].
  apply fmap_sublist, sublist_filter.
Qed.

Lemma NoDup_names_VersionMapToClusterVersions (versionMap : gmap string string) :
  NoDup (ClusterName <$> VersionMapToClusterVersions versionMap).
Proof.
  assert (ClusterName <$> VersionMapToClusterVersions versionMap
          = (entry <$> VersionMapToClusterVersions versionMap).*1) as ->.
  { rewrite <-list_fmap_compose. done. }
  rewrite entry_VersionMapToClusterVersions. apply NoDup_filter_entries.
Qed.

(** The loop of [Get] builds the map whose last binding of a name wins. *)
Lemma clusterVersionsToMap_list_to_map l :
  clusterVersionsToMap l = list_to_map (reverse (entry <$> l)).
Proof.
  unfold clusterVersionsToMap.
  induction l as [|v l IH] using rev_ind; [done|].
  rewrite foldl_snoc, fmap_app, reverse_app, IH. done.
Qed.

Lemma filter_map_to_list (versionMap : gmap string string) :
  list_to_map (filter nonEmptyVersion (map_to_list versionMap))
  = filter nonEmptyVersion versionMap.
Proof.
  apply map_eq. intros c. apply option_eq. intros v.
  rewrite <-elem_of_list_to_map by apply NoDup_filter_entries.
  rewrite list_elem_of_filter, elem_of_map_to_list, map_lookup_filter_Some.
  tauto.
Qed.

(** Reading back the list [VersionMapToClusterVersions] makes of a map
    gives the map without its empty versions. *)
Lemma clusterVersionsToMap_VersionMapToClusterVersions
    (versionMap : gmap string string) :
  clusterVersionsToMap (VersionMapToClusterVersions versionMap)
  = filter nonEmptyVersion versionMap.
Proof.
  rewrite clusterVersionsToMap_list_to_map, <-filter_map_to_list.
  apply list_to_map_proper.
  - rewrite fmap_reverse, reverse_Permutation.
    rewrite entry_VersionMapToClusterVersions. apply NoDup_filter_entries.
  - rewrite reverse_Permutation. apply entry_VersionMapToClusterVersions.
Qed.

(** ** The list of a map does not depend on the order of iteration *)

Lemma NoDup_fmap_elem_inj {A B} (f : A → B) (l : list A) x y :
  NoDup (f <$> l) → x ∈ l → y ∈ l → f x = f y → x = y.
Proof.
  induction l as [|a l IH]; [by intros _ ?%elem_of_nil|].
  rewrite fmap_cons, NoDup_cons, !elem_of_cons.
  intros [Ha Hnd] [->|Hx] [->|Hy] Hf; auto.
  - destruct Ha. rewrite Hf. by apply list_elem_of_fmap_2.
  - destruct Ha. rewrite <-Hf. by apply list_elem_of_fmap_2.
Qed.

Lemma sorted_by_name_unique l1 l2 :
  NoDup (ClusterName <$> l1) →
  StronglySorted clusterNameLe l1 → StronglySorted clusterNameLe l2 →
  l1 ≡ₚ l2 → l1 = l2.
Proof.
  intros Hnd Hs1 Hs2 Hperm.
  apply (StronglySorted_unique_strong clusterNameLe); [|done..].
  intros x1 x2 Hx1 Hx2 H12 H21.
  apply (NoDup_fmap_elem_inj ClusterName l1); [done..|by rewrite Hperm|].
  by apply (anti_symm StrOrd.le).
Qed.

Lemma entry_inv (l : list ClusterObjectVersion) :
  (λ e, {| ClusterName := e.1; Version := e.2 |}) <$> (entry <$> l) = l.
Proof.
  rewrite <-list_fmap_compose. etrans; [|apply list_fmap_id].
  apply list_fmap_ext. by intros _ [] _.
Qed.

Lemma entry_Permutation (l1 l2 : list ClusterObjectVersion) :
  entry <$> l1 ≡ₚ entry <$> l2 → l1 ≡ₚ l2.
Proof. intros H. rewrite <-(entry_inv l1), <-(entry_inv l2). by rewrite H. Qed.

(** Go iterates over a map in an order of its own choosing.  Whatever the
    order, the loop of [VersionMapToClusterVersions] followed by the sort
    yields the list the model computes. *)
Lemma VersionMapToClusterVersions_any_order (versionMap : gmap string string)
    (entries : list (string * string)) :
  entries ≡ₚ map_to_list versionMap →
  SortClusterVersions (clusterVersionsOfEntries entries)
  = VersionMapToClusterVersions versionMap.
Proof.
  intros Hperm. apply sorted_by_name_unique.
  - rewrite SortClusterVersions_Permutation.
    assert (ClusterName <$> clusterVersionsOfEntries entries
            = (entry <$> clusterVersionsOfEntries entries).*1) as ->.
    { by rewrite <-list_fmap_compose. }
    rewrite entry_clusterVersionsOfEntries, Hperm.
    apply NoDup_filter_entries.
  - apply SortClusterVersions_sorted.
  - apply SortClusterVersions_sorted.
  - unfold VersionMapToClusterVersions.
    rewrite !SortClusterVersions_Permutation.
    apply entry_Permutation. rewrite !entry_clusterVersionsOfEntries.
    by rewrite Hperm.
Qed.

Lemma filter_map_to_list_Permutation (versionMap : gmap string string) :
  filter nonEmptyVersion (map_to_list versionMap)
  ≡ₚ map_to_list (restrictNonEmpty versionMap).
Proof.
  apply NoDup_Permutation.
  - apply NoDup_filter, NoDup_map_to_list.
  - apply NoDup_map_to_list.
  - intros [cluster version].
    rewrite list_elem_of_filter, !elem_of_map_to_list.
    unfold restrictNonEmpty. rewrite map_lookup_filter_Some. tauto.
Qed.

(** The list depends on the map only through its non-empty versions. *)
Lemma VersionMapToClusterVersions_restrict (m1 m2 : gmap string string) :
  restrictNonEmpty m1 = restrictNonEmpty m2 →
  VersionMapToClusterVersions m1 = VersionMapToClusterVersions m2.
Proof.
  intros Heq. apply sorted_by_name_unique.
  - apply NoDup_names_VersionMapToClusterVersions.
  - apply SortClusterVersions_sorted.
  - apply SortClusterVersions_sorted.
  - apply entry_Permutation. rewrite !entry_VersionMapToClusterVersions.
    by rewrite !filter_map_to_list_Permutation, Heq.
Qed.

(** ** The merge of [updateClusterVersions] *)

Lemma retainVersions_lookup oldVersions (newVersions : gmap string string)
    selectedClusters c :
  retainVersions oldVersions newVersions selectedClusters !! c =
  match newVersions !! c with
  | Some v => Some v
  | None =>
    (list_to_map
       (entry <$> filter (λ v, ClusterName v ∈ selectedClusters) oldVersions)
     : gmap string string) !! c
  end.
Proof.
  unfold retainVersions.
  revert newVersions.
  induction oldVersions as [|v old IH]; intros newVersions; simpl.
  { destruct (newVersions !! c); [done|]. by rewrite lookup_empty. }
  rewrite IH. clear IH. unfold retainVersion.
  rewrite filter_cons.
  destruct (decide (ClusterName v ∈ (list_to_set selectedClusters : gset string)))
    as [Hsel|Hsel]; rewrite elem_of_list_to_set in Hsel;
    [rewrite decide_True by done|by rewrite decide_False by done].
  rewrite fmap_cons. cbn [list_to_map foldr entry fst snd uncurry].
  destruct (newVersions !! ClusterName v) eqn:Hv.
  - destruct (newVersions !! c) eqn:Hc; [done|].
    rewrite lookup_insert_ne; [done|]. intros <-. congruence.
  - rewrite !lookup_insert. case_decide as Heq; [|done].
    subst c. by rewrite Hv.
Qed.

Lemma retainedEntries_lookup oldVersions (newVersionMap : gmap string string)
    selectedClusters c :
  newVersionMap !! c = None →
  retainedEntries oldVersions newVersionMap selectedClusters !! c =
  (list_to_map
     (entry <$> filter (λ v, ClusterName v ∈ selectedClusters) oldVersions)
   : gmap string string) !! c.
Proof.
  intros Hc. unfold retainedEntries.
  induction oldVersions as [|v old IH]; [done|].
  rewrite !filter_cons.
  destruct (decide (ClusterName v ∈ selectedClusters)) as [Hsel|Hsel].
  - destruct (decide (c = ClusterName v)) as [->|Hne].
    + rewrite decide_True by done.
      rewrite !fmap_cons. cbn [list_to_map foldr entry fst snd uncurry].
      by rewrite !lookup_insert_eq.
    + case_decide as Hd.
      * rewrite !fmap_cons. cbn [list_to_map foldr entry fst snd uncurry].
        rewrite !lookup_insert_ne by done. apply IH.
      * rewrite fmap_cons. cbn [list_to_map foldr entry fst snd uncurry].
        rewrite lookup_insert_ne by done. apply IH.
  - rewrite decide_False by tauto. apply IH.
Qed.

(** The loop of [updateClusterVersions] leaves the union of the new map
    with the retained entries in the map it was given. *)
Lemma retainVersions_merged oldVersions (newVersions : gmap string string)
    selectedClusters :
  retainVersions oldVersions newVersions selectedClusters
  = mergedVersions oldVersions newVersions selectedClusters.
Proof.
  apply map_eq. intros c. rewrite retainVersions_lookup.
  unfold mergedVersions. rewrite lookup_union.
  destruct (newVersions !! c) eqn:Hc.
  - by destruct (retainedEntries _ _ _ !! c).
  - rewrite retainedEntries_lookup by done.
    by destruct (list_to_map _ !! c).
Qed.

Lemma retainVersions_nil (newVersions : gmap string string) selectedClusters :
  retainVersions [] newVersions selectedClusters = newVersions.
Proof. done. Qed.

(** ** The write protocol leaves the record's status alone *)

Section write.

Context {C : Type} `{!Client C}.

Lemma updateStep_sameRecord (c : C) obj rv step s' :
  updateStep c obj rv = (step, s') → sameRecord (wObj s') obj.
Proof.
  unfold updateStep. destruct (clientUpdateStatus c _) as [c' [rv'|err]].
  - intros [= <- <-]. done.
  - repeat case_match; intros [= <- <-]; done.
Qed.

Lemma createStep_sameRecord (c : C) obj rv step s' :
  createStep c obj rv = (step, s') → sameRecord (wObj s') obj.
Proof.
  unfold createStep. case_decide; [|apply updateStep_sameRecord].
  destruct (clientCreate c _) as [c' [rv'|err]].
  - apply updateStep_sameRecord.
  - repeat case_match; intros [= <- <-]; done.
Qed.

Lemma writeStep_sameRecord qualifiedName (s : writeState (C:=C)) step s' :
  writeStep qualifiedName s = (step, s') → sameRecord (wObj s') (wObj s).
Proof.
  unfold writeStep. destruct (wRefreshVersion s).
  - destruct (getResourceVersionFromAPI _ _) as [c' [rv'|err]].
    + apply createStep_sameRecord.
    + intros [= <- <-]. done.
  - apply createStep_sameRecord.
Qed.

Lemma pollUntil_sameRecord retries qualifiedName (s : writeState (C:=C)) err s' :
  pollUntil retries qualifiedName s = (err, s') → sameRecord (wObj s') (wObj s).
Proof.
  revert s. induction retries as [|n IH]; intros s; simpl;
    destruct (writeStep qualifiedName s) as [[] s1] eqn:Hstep;
    apply writeStep_sameRecord in Hstep.
  all: try (intros [= <- <-]; exact Hstep).
  intros Hpoll. apply IH in Hpoll.
  destruct Hpoll as (?&?&?), Hstep as (?&?&?). repeat split; congruence.
Qed.

Lemma writeVersion_sameRecord retries (c : C) obj qualifiedName err obj' c' :
  writeVersion retries c obj qualifiedName = (err, obj', c') →
  sameRecord obj' obj.
Proof.
  unfold writeVersion.
  destruct (pollUntil _ _ _) as [e s] eqn:Hpoll.
  apply pollUntil_sameRecord in Hpoll. simpl in Hpoll.
  destruct e; intros [= <- <- <-]; exact Hpoll.
Qed.

End write.

(** ** The write protocol against the scripted client *)

Section protocol.
Import Fake.

Variable qualifiedName : QualifiedName.
Variable obj : PropagatedVersion.

Local Abbreviation conforms := (conforms qualifiedName obj).
Local Abbreviation follows := (follows qualifiedName obj).
Local Abbreviation stepEnds := (stepEnds qualifiedName obj).
Local Abbreviation stepTrace := (stepTrace qualifiedName obj).
Local Abbreviation pollEnds := (pollEnds qualifiedName obj).

Lemma conforms_weaken (e1 e2 : call → Prop) h :
  (∀ c, e1 c → e2 c) → conforms e1 h → conforms e2 h.
Proof. destruct h as [|x h]; simpl; [done|]. intros He [? ?]. auto. Qed.

Lemma conforms_app (expected : call → Prop) h1 h2 :
  conforms expected (h1 ++ h2) ↔
  conforms expected h1 ∧
  conforms (match last h1 with Some x => follows x | None => expected end) h2.
Proof.
  revert expected. induction h1 as [|x h1 IH]; intros expected; simpl.
  { tauto. }
  rewrite IH. destruct h1 as [|y h1]; [simpl; tauto|].
  rewrite last_cons_cons.
  assert (is_Some (last (y :: h1))) as [z ->] by by apply last_is_Some.
  tauto.
Qed.

Lemma conforms_lookup (expected : call → Prop) h i prev next :
  conforms expected h → h !! i = Some prev → h !! S i = Some next →
  follows prev next.1.
Proof.
  revert expected i. induction h as [|x h IH]; intros expected i; [done|].
  simpl. intros [_ Hc]. destruct i as [|i]; simpl.
  - intros [= ->]. destruct h as [|y h]; [done|]. simpl.
    intros [= ->]. by destruct Hc.
  - apply (IH _ i Hc).
Qed.

Lemma forbidden_exclusive err :
  IsForbidden err = true →
  IsConflict err = false ∧ IsNotFound err = false ∧ IsAlreadyExists err = false.
Proof.
  unfold IsForbidden, IsConflict, IsNotFound, IsAlreadyExists.
  intros H%bool_decide_eq_true. rewrite H.
  by rewrite !bool_decide_eq_false_2.
Qed.

Lemma updateStep_trace (c : client) resourceVersion step s' :
  updateStep c obj resourceVersion = (step, s') →
  stepTrace (history c)
    (CallUpdateStatus (setResourceVersion obj resourceVersion)) step s'.
Proof.
  unfold updateStep. simpl. unfold stepTrace.
  destruct (nextReply c) as [rv'|err] eqn:Hr.
  - intros [= <- <-]. eexists [_], _. simpl. split_and!; eauto.
  - destruct (IsConflict err) eqn:Hc; [|destruct (IsNotFound err) eqn:Hn;
      [|destruct (IsForbidden err) eqn:Hf]];
      intros [= <- <-]; eexists [_], _; simpl; split_and!; try done;
      unfold nextCall, writeCall; simpl; rewrite ?Hc, ?Hn, ?Hf; eauto.
Qed.

Lemma createStep_trace (c : client) resourceVersion step s' :
  createStep c obj resourceVersion = (step, s') →
  stepTrace (history c) (writeCall obj resourceVersion) step s'.
Proof.
  unfold createStep, writeCall.
  destruct (decide (resourceVersion = "")) as [->|Hne];
    [|apply updateStep_trace].
  simpl. destruct (nextReply c) as [rv'|err] eqn:Hr.
  - intros Hu. apply updateStep_trace in Hu
      as (ex & lastExchange & Hh & Hlast & Hconf & Hends).
    simpl in Hh. exists ((CallCreate (setResourceVersion obj ""), Ok rv') :: ex),
      lastExchange.
    split_and!; [by rewrite Hh, <-app_assoc| |simpl|done].
    + destruct ex; [done|]. by rewrite last_cons_cons.
    + split; [done|]. eapply conforms_weaken; [|exact Hconf].
      by intros ? <-.
  - unfold stepTrace.
    destruct (IsAlreadyExists err) eqn:Ha; [|destruct (IsForbidden err) eqn:Hf];
      intros [= <- <-]; eexists [_], _; simpl; split_and!; try done;
      unfold nextCall, writeCall; simpl; rewrite ?Ha, ?Hf; eauto.
Qed.

Lemma writeStep_trace (s : writeState (C:=client)) step s' :
  wObj s = obj →
  writeStep qualifiedName s = (step, s') →
  stepTrace (history (wClient s)) (nextCall qualifiedName s) step s'.
Proof.
  intros Hobj. unfold writeStep, nextCall. rewrite Hobj.
  destruct (wRefreshVersion s); [|apply createStep_trace].
  unfold getResourceVersionFromAPI. simpl.
  destruct (nextReply (wClient s)) as [rv'|err] eqn:Hr.
  - intros Hc. apply createStep_trace in Hc
      as (ex & lastExchange & Hh & Hlast & Hconf & Hends).
    simpl in Hh.
    exists ((refreshCall qualifiedName, Ok rv') :: ex), lastExchange.
    split_and!; [by rewrite Hh, <-app_assoc| |simpl|done].
    + destruct ex; [done|]. by rewrite last_cons_cons.
    + split; [done|]. eapply conforms_weaken; [|exact Hconf].
      by intros ? <-.
  - intros [= <- <-]. unfold stepTrace. eexists [_], _. simpl.
    split_and!; try done. eauto.
Qed.

Lemma pollUntil_trace retries (s : writeState (C:=client)) err s' :
  wObj s = obj →
  pollUntil retries qualifiedName s = (err, s') →
  ∃ ex lastExchange,
    history (wClient s') = history (wClient s) ++ ex ∧
    last ex = Some lastExchange ∧
    conforms (eq (nextCall qualifiedName s)) ex ∧
    pollEnds err lastExchange.
Proof.
  revert s. induction retries as [|n IH]; intros s Hobj; simpl;
    destruct (writeStep qualifiedName s) as [step s1] eqn:Hstep;
    apply writeStep_trace in Hstep
      as (ex & lastExchange & Hh & Hlast & Hconf & Hends); try done;
    destruct step as [| |abort]; simpl in Hends.
  - intros [= <- <-]. exists ex, lastExchange. split_and!; [done..|].
    right. split; [done|]. destruct Hends as (_ & ? & ?). eauto.
  - intros [= <- <-]. by exists ex, lastExchange.
  - intros [= <- <-]. exists ex, lastExchange. split_and!; [done..|].
    by left.
  - destruct Hends as (Hobj1 & Hfollows & _).
    intros Hpoll. apply (IH _ Hobj1) in Hpoll
      as (ex' & lastExchange' & Hh' & Hlast' & Hconf' & Hends').
    exists (ex ++ ex'), lastExchange'. split_and!.
    + by rewrite Hh', Hh, <-app_assoc.
    + destruct ex' as [|x ex' _] using rev_ind; [done|].
      by rewrite app_assoc, !last_snoc in *.
    + apply conforms_app. split; [done|]. rewrite Hlast.
      eapply conforms_weaken; [|exact Hconf']. by intros ? <-.
    + done.
  - intros [= <- <-]. by exists ex, lastExchange.
  - intros [= <- <-]. exists ex, lastExchange. split_and!; [done..|].
    by left.
Qed.

Lemma writeVersion_trace retries rs :
  let run := writeVersion retries (script rs) obj qualifiedName in
  ∃ err lastExchange,
    run.1.1 =
      (λ e, Wrap e "Failed to write the version map for %s %q to the API") <$> err ∧
    last (history run.2) = Some lastExchange ∧
    conforms (eq (writeCall obj (resourceVersion obj))) (history run.2) ∧
    pollEnds err lastExchange.
Proof.
  unfold writeVersion.
  destruct (pollUntil _ _ _) as [err s'] eqn:Hpoll.
  apply pollUntil_trace in Hpoll
    as (ex & lastExchange & Hh & Hlast & Hconf & Hends); [|done].
  simpl in Hh. exists err, lastExchange.
  destruct err; simpl; rewrite Hh; done.
Qed.

Lemma lookup_last {A} (l : list A) i x :
  l !! i = Some x → l !! S i = None → last l = Some x.
Proof.
  intros Hi Hn. apply lookup_lt_Some in Hi as Hlt.
  apply lookup_ge_None in Hn. rewrite last_lookup.
  by replace (pred (length l)) with i by lia.
Qed.

Lemma history_last (h : list exchange) i x lastExchange :
  last h = Some lastExchange → h !! i = Some x → h !! S i = None →
  lastExchange = x.
Proof. intros Hlast Hi Hn. rewrite (lookup_last _ _ _ Hi Hn) in Hlast. congruence. Qed.

(** *** The refused calls count the runs of the condition *)

Lemma failures_app (h1 h2 : list exchange) :
  Attempts.failures (h1 ++ h2) = Attempts.failures h1 + Attempts.failures h2.
Proof. unfold Attempts.failures. by rewrite filter_app, length_app. Qed.

Lemma failures_snoc (h : list exchange) what reply :
  Attempts.failures (h ++ [(what, reply)])
  = Attempts.failures h + match reply with Err _ => 1 | Ok _ => 0 end.
Proof. rewrite failures_app. by destruct reply. Qed.

Lemma failures_elem_of (h : list exchange) x :
  x ∈ h → Attempts.refused x = true → 1 ≤ Attempts.failures h.
Proof.
  intros Hin Hr. unfold Attempts.failures.
  assert (x ∈ filter (λ x, Attempts.refused x = true) h) as Hf
    by (by apply list_elem_of_filter).
  destruct (filter _ h); [by apply elem_of_nil in Hf|simpl; lia].
Qed.

Lemma updateStep_failures (c : client) o resourceVersion step s' :
  updateStep c o resourceVersion = (step, s') →
  Attempts.failures (history (wClient s'))
  = Attempts.failures (history c) + match step with Done => 0 | _ => 1 end ∧
  match step with Abort err => IsForbidden err = true | _ => True end.
Proof.
  unfold updateStep. simpl.
  destruct (nextReply c) as [rv|err] eqn:Hr.
  - intros [= <- <-]. simpl. by rewrite failures_snoc.
  - destruct (IsConflict err); [|destruct (IsNotFound err);
      [|destruct (IsForbidden err) eqn:Hf]];
      intros [= <- <-]; simpl; by rewrite failures_snoc.
Qed.

Lemma createStep_failures (c : client) o resourceVersion step s' :
  createStep c o resourceVersion = (step, s') →
  Attempts.failures (history (wClient s'))
  = Attempts.failures (history c) + match step with Done => 0 | _ => 1 end ∧
  match step with Abort err => IsForbidden err = true | _ => True end.
Proof.
  unfold createStep. case_decide; [|apply updateStep_failures].
  simpl. destruct (nextReply c) as [rv|err] eqn:Hr.
  - intros [Hu ?]%updateStep_failures. split; [|done]. rewrite Hu. simpl.
    rewrite failures_snoc. lia.
  - destruct (IsAlreadyExists err); [|destruct (IsForbidden err) eqn:Hf];
      intros [= <- <-]; simpl; by rewrite failures_snoc.
Qed.

Lemma writeStep_failures (s : writeState (C:=client)) step s' :
  writeStep qualifiedName s = (step, s') →
  Attempts.failures (history (wClient s'))
  = Attempts.failures (history (wClient s))
    + match step with Done => 0 | _ => 1 end ∧
  match step with Abort err => IsForbidden err = true | _ => True end.
Proof.
  unfold writeStep. destruct (wRefreshVersion s); [|apply createStep_failures].
  unfold getResourceVersionFromAPI. simpl.
  destruct (nextReply (wClient s)) as [rv|err] eqn:Hr.
  - intros [Hc ?]%createStep_failures. split; [|done]. rewrite Hc. simpl.
    rewrite failures_snoc. lia.
  - intros [= <- <-]. simpl. by rewrite failures_snoc.
Qed.

(** A poll that ends well has seen at most [retries] runs fail; a poll
    that ends with an error has seen at most [retries + 1], and exactly
    that many unless the error is a forbidden one. *)
Lemma pollUntil_failures retries (s : writeState (C:=client)) err s' :
  pollUntil retries qualifiedName s = (err, s') →
  match err with
  | None =>
    Attempts.failures (history (wClient s'))
    ≤ Attempts.failures (history (wClient s)) + retries
  | Some e =>
    Attempts.failures (history (wClient s'))
    ≤ Attempts.failures (history (wClient s)) + S retries ∧
    (IsForbidden e = false →
     Attempts.failures (history (wClient s'))
     = Attempts.failures (history (wClient s)) + S retries)
  end.
Proof.
  revert s. induction retries as [|n IH]; intros s; simpl;
    destruct (writeStep qualifiedName s) as [step s1] eqn:Hstep;
    apply writeStep_failures in Hstep as [Hf Hforbidden];
    destruct step as [| |abort].
  - intros [= <- <-]. split; [lia|]. intros _. lia.
  - intros [= <- <-]. lia.
  - intros [= <- <-]. split; [lia|]. intros Hnf. congruence.
  - intros Hpoll. apply IH in Hpoll. destruct err as [e|].
    + destruct Hpoll as [Hle Heq]. split; [lia|]. intros Hnf.
      rewrite (Heq Hnf). lia.
    + lia.
  - intros [= <- <-]. lia.
  - intros [= <- <-]. split; [lia|]. intros Hnf. congruence.
Qed.

Lemma writeVersion_failures retries rs :
  let run := writeVersion retries (script rs) obj qualifiedName in
  match run.1.1 with
  | None => Attempts.failures (history run.2) ≤ retries
  | Some e =>
    Attempts.failures (history run.2) ≤ S retries ∧
    (e = Wrap DeadlineExceeded
           "Failed to write the version map for %s %q to the API" →
     Attempts.failures (history run.2) = S retries)
  end.
Proof.
  unfold writeVersion.
  destruct (pollUntil _ _ _) as [err s'] eqn:Hpoll.
  apply pollUntil_failures in Hpoll. simpl in Hpoll.
  destruct err as [e|]; simpl; [|done].
  destruct Hpoll as [Hle Heq]. split; [done|].
  intros [= ->]. by apply Heq.
Qed.

End protocol.

(** C5. The write protocol of the version manager, against a store that
    answers the calls of one [writeVersion] with any script of replies and
    records them.  The invocation starts with the write under the token of
    the object.  Each run of the poll's condition ends at the first call
    the API refuses, so that after a refused call another run fits before
    the deadline exactly when fewer than [retries] calls were refused
    before it.  In the history of the invocation:
    - after a conflict on the status update, if another run fits, the next
      call is there and fetches the record to refresh the resource-version
      token, and when that succeeds the write is retried under the token it
      returned;
    - after a not-found on the status update, if another run fits, the
      next call is there and is the create, with the token cleared;
    - after an already-exists on the create, if another run fits, the next
      call is there and fetches the record to refresh the token, and when
      that succeeds the write is retried under the token it returned;
    - in these three cases, if no other run fits, there is no next call and
      [writeVersion] returns the error of the deadline;
    - a forbidden error on the create or on the status update is the last
      call of the invocation, however many runs would fit, and
      [writeVersion] returns that error, wrapped. *)
Theorem write_protocol retries rs obj qualifiedName :
  let run := writeVersion retries (Fake.script rs) obj qualifiedName in
  let err := run.1.1 in
  let h := Fake.history run.2 in
  let deadline :=
    Some (Wrap DeadlineExceeded
            "Failed to write the version map for %s %q to the API") in
  let refreshed i :=
    ∃ next, h !! S i = Some next ∧
      next.1 = Fake.refreshCall qualifiedName ∧
      ∀ resourceVersion, next.2 = Ok resourceVersion →
        ∃ retried, h !! S (S i) = Some retried ∧
                   retried.1 = Fake.writeCall obj resourceVersion in
  let expired i := h !! S i = None ∧ err = deadline in
  (∃ first, h !! 0 = Some first ∧
            first.1 = Fake.writeCall obj (resourceVersion obj)) ∧
  (∀ i updated e,
     h !! i = Some (Fake.CallUpdateStatus updated, Err e) →
     IsConflict e = true →
     (Attempts.failures (take i h) < retries → refreshed i) ∧
     (retries ≤ Attempts.failures (take i h) → expired i)) ∧
  (∀ i updated e,
     h !! i = Some (Fake.CallUpdateStatus updated, Err e) →
     IsConflict e = false → IsNotFound e = true →
     (Attempts.failures (take i h) < retries →
      ∃ next, h !! S i = Some next ∧
              next.1 = Fake.CallCreate (setResourceVersion obj "")) ∧
     (retries ≤ Attempts.failures (take i h) → expired i)) ∧
  (∀ i created e,
     h !! i = Some (Fake.CallCreate created, Err e) →
     IsAlreadyExists e = true →
     (Attempts.failures (take i h) < retries → refreshed i) ∧
     (retries ≤ Attempts.failures (take i h) → expired i)) ∧
  (∀ i what e,
     h !! i = Some (what, Err e) →
     (∃ created, what = Fake.CallCreate created) ∨
     (∃ updated, what = Fake.CallUpdateStatus updated) →
     IsForbidden e = true →
     h !! S i = None ∧
     err = Some (Wrap e "Failed to write the version map for %s %q to the API")).
Proof.
  intros run err h deadline refreshed expired.
  destruct (writeVersion_trace qualifiedName obj retries rs)
    as (err0 & lastExchange & Herr & Hlast & Hconf & Hends).
  pose proof (writeVersion_failures qualifiedName obj retries rs) as Hruns.
  cbv zeta in Hruns. fold run in Herr, Hlast, Hconf, Hruns.
  fold h in Hlast, Hconf, Hruns. change (run.1.1) with err in Herr, Hruns.
  assert (∀ i prev, h !! i = Some prev → h !! S i = None →
            (∃ what e, prev = (what, Err e)) →
            (∀ e, prev.2 = Err e → IsForbidden e = false) →
            err = deadline) as Hdeadline.
  { intros i prev Hi Hn (what & e & ->) Hnf.
    pose proof (history_last _ _ _ _ Hlast Hi Hn) as ->.
    rewrite Herr. destruct err0 as [e0|]; simpl in Hends.
    - destruct Hends as [[Hf [[? [= _ ->]]|[? [= _ ->]]]]|[-> _]]; [..|done];
        by rewrite (Hnf e0 eq_refl) in Hf.
    - by destruct Hends as (? & ? & [=]). }
  (* another run fits: the refused call is not the last *)
  assert (∀ i what e, h !! i = Some (what, Err e) → IsForbidden e = false →
            Attempts.failures (take i h) < retries →
            ∃ next, h !! S i = Some next) as Hroom.
  { intros i what e Hi Hnf Hlt.
    destruct (h !! S i) as [next|] eqn:Hn; [eauto|]. exfalso.
    assert (err = deadline) as Hd.
    { eapply Hdeadline; [exact Hi|exact Hn|eauto|].
      simpl. by intros ? [= <-]. }
    rewrite Hd in Hruns. destruct Hruns as [_ Heq].
    specialize (Heq eq_refl).
    assert (h = take i h ++ [(what, Err e)]) as Hh.
    { transitivity (take (S i) h); [|by apply take_S_r].
      symmetry. apply take_ge. by apply lookup_ge_None. }
    rewrite Hh, failures_snoc in Heq. lia. }
  (* no other run fits: the refused call is the last *)
  assert (∀ i what e, h !! i = Some (what, Err e) →
            retries ≤ Attempts.failures (take i h) →
            h !! S i = None) as Hnoroom.
  { intros i what e Hi Hle.
    destruct (h !! S i) as [next|] eqn:Hn; [exfalso|done].
    assert (Attempts.failures h
            = Attempts.failures (take i h) + 1
              + Attempts.failures (drop (S i) h)) as Hh.
    { assert (Attempts.failures (take (S i) h)
              = Attempts.failures (take i h) + 1) as <-.
      { replace (take (S i) h) with (take i h ++ [(what, Err e)]);
          [apply failures_snoc|].
        symmetry. by apply take_S_r. }
      rewrite <-failures_app. by rewrite take_drop. }
    rewrite Herr in Hruns. destruct err0 as [e0|]; simpl in Hruns; [|lia].
    destruct Hruns as [Hmax _].
    assert (Attempts.refused lastExchange = true) as Hrefused.
    { simpl in Hends.
      destruct Hends as [[_ [[? ->]|[? ->]]]|(_ & _ & ? & ? & ->)]; done. }
    assert (lastExchange ∈ drop (S i) h) as Hin.
    { rewrite last_lookup in Hlast.
      apply lookup_lt_Some in Hn as Hlt.
      apply list_elem_of_lookup. exists (pred (length h) - S i).
      rewrite lookup_drop. rewrite <-Hlast. f_equal. lia. }
    pose proof (failures_elem_of _ _ Hin Hrefused). lia. }
  (* a refresh that succeeded is followed by the write under its token *)
  assert (∀ i prev next, h !! i = Some prev → h !! S i = Some next →
            Fake.follows qualifiedName obj prev
              (Fake.refreshCall qualifiedName) →
            next.1 = Fake.refreshCall qualifiedName →
            ∀ resourceVersion, next.2 = Ok resourceVersion →
              ∃ retried, h !! S (S i) = Some retried ∧
                         retried.1 = Fake.writeCall obj resourceVersion)
    as Hrefreshed.
  { intros i prev next Hi Hnext _ Hcall rv Hrv. destruct next as [what reply].
    simpl in Hrv, Hcall. rewrite Hrv, Hcall in Hnext. clear Hrv Hcall.
    destruct (h !! S (S i)) as [retried|] eqn:Hretried.
    - exists retried. split; [done|].
      by apply (conforms_lookup _ _ _ _ _ _ _ Hconf Hnext Hretried).
    - pose proof (history_last _ _ _ _ Hlast Hnext Hretried) as ->.
      destruct err0 as [e0|]; simpl in Hends.
      + destruct Hends as [[_ [[? [=]]|[? [=]]]]|(_ & _ & ? & ? & [=])].
      + by destruct Hends as (? & ? & [=]). }
  split_and!.
  - destruct h as [|first rest] eqn:Hh; [done|].
    exists first. split; [done|]. by destruct Hconf as [<- _].
  - intros i updated e Hi Hc.
    assert (IsForbidden e = false) as Hnf.
    { unfold IsConflict, IsForbidden in *.
      apply bool_decide_eq_true in Hc. rewrite Hc.
      by apply bool_decide_eq_false_2. }
    split.
    + intros Hlt. destruct (Hroom _ _ _ Hi Hnf Hlt) as [next Hnext].
      pose proof (conforms_lookup _ _ _ _ _ _ _ Hconf Hi Hnext) as Hf.
      simpl in Hf. rewrite Hc in Hf.
      exists next. split_and!; [done..|].
      eapply Hrefreshed; [exact Hi|exact Hnext| |done].
      simpl. by rewrite Hc.
    + intros Hle. pose proof (Hnoroom _ _ _ Hi Hle) as Hn.
      split; [done|]. eapply Hdeadline; [exact Hi|exact Hn|eauto|].
      simpl. by intros ? [= <-].
  - intros i updated e Hi Hc Hnotfound.
    assert (IsForbidden e = false) as Hnf.
    { unfold IsNotFound, IsForbidden in *.
      apply bool_decide_eq_true in Hnotfound. rewrite Hnotfound.
      by apply bool_decide_eq_false_2. }
    split.
    + intros Hlt. destruct (Hroom _ _ _ Hi Hnf Hlt) as [next Hnext].
      pose proof (conforms_lookup _ _ _ _ _ _ _ Hconf Hi Hnext) as Hf.
      simpl in Hf. rewrite Hc, Hnotfound in Hf. eauto.
    + intros Hle. pose proof (Hnoroom _ _ _ Hi Hle) as Hn.
      split; [done|]. eapply Hdeadline; [exact Hi|exact Hn|eauto|].
      simpl. by intros ? [= <-].
  - intros i created e Hi Ha.
    assert (IsForbidden e = false) as Hnf.
    { unfold IsAlreadyExists, IsForbidden in *.
      apply bool_decide_eq_true in Ha. rewrite Ha.
      by apply bool_decide_eq_false_2. }
    split.
    + intros Hlt. destruct (Hroom _ _ _ Hi Hnf Hlt) as [next Hnext].
      pose proof (conforms_lookup _ _ _ _ _ _ _ Hconf Hi Hnext) as Hf.
      simpl in Hf. rewrite Ha in Hf.
      exists next. split_and!; [done..|].
      eapply Hrefreshed; [exact Hi|exact Hnext| |done].
      simpl. by rewrite Ha.
    + intros Hle. pose proof (Hnoroom _ _ _ Hi Hle) as Hn.
      split; [done|]. eapply Hdeadline; [exact Hi|exact Hn|eauto|].
      simpl. by intros ? [= <-].
  - intros i what e Hi Hwhat Hf.
    destruct (forbidden_exclusive e Hf) as (Hc & Hnf & Ha).
    assert (h !! S i = None) as Hn.
    { destruct (h !! S i) as [next|] eqn:Hnext; [|done].
      pose proof (conforms_lookup _ _ _ _ _ _ _ Hconf Hi Hnext) as Hfol.
      destruct Hwhat as [[? ->]|[? ->]]; simpl in Hfol.
      - by rewrite Ha, Hf in Hfol.
      - by rewrite Hc, Hnf, Hf in Hfol. }
    split; [done|].
    pose proof (history_last _ _ _ _ Hlast Hi Hn) as ->.
    rewrite Herr. destruct err0 as [e0|]; simpl in Hends.
    + destruct Hends as [[_ [[? [= _ <-]]|[? [= _ <-]]]]|(_ & [next Hfol] & _)];
        [done..|].
      destruct Hwhat as [[? ->]|[? ->]]; simpl in Hfol.
      * by rewrite Ha, Hf in Hfol.
      * by rewrite Hc, Hnf, Hf in Hfol.
    + by destruct Hends as (? & ? & [=]).
Qed.

(** ** What [Update] stores *)

Lemma PropagatedVersionStatusEquivalent_eq pvs1 pvs2 :
  PropagatedVersionStatusEquivalent pvs1 pvs2 = true ↔ pvs1 = pvs2.
Proof.
  unfold PropagatedVersionStatusEquivalent.
  rewrite !andb_true_iff, !bool_decide_eq_true.
  destruct pvs1, pvs2; simpl. split; [intros [[-> ->] ->]|intros [= -> -> ->]]; done.
Qed.

Section update.

Variable PropagatedVersionName : string → string → string.
Context {C : Type} `{!Client C}.

Local Abbreviation Update := (Update PropagatedVersionName).
Local Abbreviation Get := (Get PropagatedVersionName).
Local Abbreviation key m resource :=
  (QualifiedName_String
     (versionQualifiedName PropagatedVersionName m (FederatedName resource))).

Lemma Update_no_record retries m (c : C) resource selectedClusters versionMap
    templateVersion overrideVersion :
  resourceTemplateVersion resource = Ok templateVersion →
  resourceOverrideVersion resource = Ok overrideVersion →
  versions m !! key m resource = None →
  let r := Update retries m c resource selectedClusters versionMap in
  ∃ obj,
    uManager r = setVersions m (<[key m resource := obj]> (versions m)) ∧
    status obj =
      {| TemplateVersion := templateVersion;
         OverrideVersion := overrideVersion;
         ClusterVersions := VersionMapToClusterVersions versionMap |} ∧
    uVersionMap r = versionMap ∧ uWrites r = 1.
Proof.
  intros Htv Hov Hkey. unfold Version.Update. rewrite Htv, Hov, Hkey.
  destruct (writeVersion _ _ _ _) as [[err obj] c'] eqn:Hw.
  apply writeVersion_sameRecord in Hw as (_ & _ & Hst).
  exists obj. simpl. rewrite Hst. done.
Qed.

Lemma Update_record retries m (c : C) resource selectedClusters versionMap
    templateVersion overrideVersion obj :
  resourceTemplateVersion resource = Ok templateVersion →
  resourceOverrideVersion resource = Ok overrideVersion →
  versions m !! key m resource = Some obj →
  let r := Update retries m c resource selectedClusters versionMap in
  let valid := validVersions (status obj) templateVersion overrideVersion in
  let merged :=
    {| TemplateVersion := templateVersion;
       OverrideVersion := overrideVersion;
       ClusterVersions :=
         updateClusterVersions valid versionMap selectedClusters |} in
  uVersionMap r = retainVersions valid versionMap selectedClusters ∧
  ((status obj = merged ∧ uManager r = m ∧ uClient r = c ∧
    uErr r = None ∧ uWrites r = 0) ∨
   (status obj ≠ merged ∧ uWrites r = 1 ∧
    ∃ obj', uManager r = setVersions m (<[key m resource := obj']> (versions m)) ∧
            status obj' = merged)).
Proof.
  intros Htv Hov Hkey. unfold Version.Update. rewrite Htv, Hov, Hkey.
  fold (validVersions (status obj) templateVersion overrideVersion).
  cbv zeta. unfold GetStatus.
  destruct (PropagatedVersionStatusEquivalent _ _) eqn:Heq.
  - apply PropagatedVersionStatusEquivalent_eq in Heq. simpl. by auto 10.
  - assert (status obj ≠
      {| TemplateVersion := templateVersion;
         OverrideVersion := overrideVersion;
         ClusterVersions :=
           updateClusterVersions
             (validVersions (status obj) templateVersion overrideVersion)
             versionMap selectedClusters |}) as Hne.
    { intros Heq'. apply PropagatedVersionStatusEquivalent_eq in Heq'.
      congruence. }
    destruct (writeVersion _ _ _ _) as [[err obj'] c'] eqn:Hw.
    apply writeVersion_sameRecord in Hw as (_ & _ & Hst).
    simpl. split; [done|]. right. split; [done|]. split; [done|].
    exists obj'. by rewrite Hst.
Qed.

(** In either case the cache holds a record with the merged status. *)
Lemma Update_stored retries m (c : C) resource selectedClusters versionMap
    templateVersion overrideVersion :
  resourceTemplateVersion resource = Ok templateVersion →
  resourceOverrideVersion resource = Ok overrideVersion →
  let r := Update retries m c resource selectedClusters versionMap in
  targetKind (uManager r) = targetKind m ∧
  ∃ obj',
    versions (uManager r) !! key m resource = Some obj' ∧
    status obj' =
      {| TemplateVersion := templateVersion;
         OverrideVersion := overrideVersion;
         ClusterVersions :=
           match versions m !! key m resource with
           | Some obj =>
             updateClusterVersions
               (validVersions (status obj) templateVersion overrideVersion)
               versionMap selectedClusters
           | None => VersionMapToClusterVersions versionMap
           end |}.
Proof.
  intros Htv Hov r.
  destruct (versions m !! key m resource) as [obj|] eqn:Hkey.
  - destruct (Update_record retries m c resource selectedClusters versionMap
                _ _ obj Htv Hov Hkey) as [_ [(Hst & Hm & _)|(_ & _ & obj' & Hm & Hst)]];
      fold r in Hm; rewrite Hm.
    + split; [done|]. exists obj. done.
    + split; [done|]. exists obj'. simpl. by rewrite lookup_insert_eq.
  - destruct (Update_no_record retries m c resource selectedClusters versionMap
                _ _ Htv Hov Hkey) as (obj' & Hm & Hst & _).
    fold r in Hm; rewrite Hm. split; [done|].
    exists obj'. simpl. by rewrite lookup_insert_eq.
Qed.

Lemma restrictNonEmpty_lookup (versionMap : gmap string string) cluster :
  restrictNonEmpty versionMap !! cluster =
  match versionMap !! cluster with
  | Some version => if decide (version = "") then None else Some version
  | None => None
  end.
Proof.
  unfold restrictNonEmpty. rewrite map_lookup_filter.
  destruct (versionMap !! cluster) as [version|]; [|done]. simpl.
  unfold nonEmptyVersion. simpl.
  destruct (decide (version = "")); [by rewrite option_guard_False by auto|].
  by rewrite option_guard_True.
Qed.

(** C1. Round trip of the version manager.  Starting from a cache without
    a record for the resource (an empty cache in particular), after
    [Update(R, clusters, V)] a call of [Get] for the resource, its template
    and override versions unchanged, returns exactly [V] restricted to the
    clusters whose version string is not empty: a cluster whose version in
    [V] is the empty string has no entry, every other cluster of [V] has
    its version.  If the template version of the resource has changed after
    the [Update], [Get] returns the empty map.  This holds whatever the API
    answers to the write. *)
Theorem get_after_update retries m (c : C) R clusters V R' templateVersion
    overrideVersion :
  versions m !! key m R = None →
  resourceTemplateVersion R = Ok templateVersion →
  resourceOverrideVersion R = Ok overrideVersion →
  FederatedName R' = FederatedName R →
  let m' := uManager (Update retries m c R clusters V) in
  (resourceTemplateVersion R' = Ok templateVersion →
   resourceOverrideVersion R' = Ok overrideVersion →
   Get m' R' = Ok (restrictNonEmpty V)) ∧
  (∀ cluster, V !! cluster = Some "" → restrictNonEmpty V !! cluster = None) ∧
  (∀ cluster version, version ≠ "" →
     restrictNonEmpty V !! cluster = Some version ↔ V !! cluster = Some version) ∧
  (∀ templateVersion' overrideVersion',
     resourceTemplateVersion R' = Ok templateVersion' →
     resourceOverrideVersion R' = Ok overrideVersion' →
     templateVersion' ≠ templateVersion →
     Get m' R' = Ok ∅).
Proof.
  intros Hkey Htv Hov Hname m'.
  destruct (Update_stored retries m c R clusters V _ _ Htv Hov)
    as (Hkind & obj & Hobj & Hst).
  fold m' in Hkind, Hobj. rewrite Hkey in Hst.
  assert (versions m' !! key m' R' = Some obj) as Hget.
  { unfold versionQualifiedName. rewrite Hkind, Hname. exact Hobj. }
  repeat split.
  - intros Htv' Hov'. unfold Version.Get. rewrite Hget, Htv', Hov'.
    unfold GetStatus. rewrite Hst. simpl.
    rewrite !bool_decide_eq_true_2 by done. simpl.
    by rewrite clusterVersionsToMap_VersionMapToClusterVersions.
  - intros cluster Hc. by rewrite restrictNonEmpty_lookup, Hc.
  - rewrite restrictNonEmpty_lookup.
    destruct (V !! cluster) as [v|]; [|done].
    case_decide; [done|]. done.
  - rewrite restrictNonEmpty_lookup. intros Hc. rewrite Hc.
    by rewrite decide_False.
  - intros tv' ov' Htv' Hov' Hne. unfold Version.Get.
    rewrite Hget, Htv', Hov'. unfold GetStatus. rewrite Hst. simpl.
    by rewrite (bool_decide_eq_false_2 (tv' = templateVersion)).
Qed.

Lemma validVersions_match st :
  validVersions st (TemplateVersion st) (OverrideVersion st) = ClusterVersions st.
Proof. unfold validVersions. by rewrite !bool_decide_eq_true_2. Qed.

Lemma validVersions_mismatch st templateVersion overrideVersion :
  TemplateVersion st ≠ templateVersion ∨ OverrideVersion st ≠ overrideVersion →
  validVersions st templateVersion overrideVersion = [].
Proof.
  unfold validVersions. intros [H|H].
  - by rewrite (bool_decide_eq_false_2 _ H).
  - rewrite (bool_decide_eq_false_2 _ H). by rewrite andb_false_r.
Qed.

Lemma cachedVersions_Update retries m (c : C) R selectedClusters V
    templateVersion overrideVersion obj :
  resourceTemplateVersion R = Ok templateVersion →
  resourceOverrideVersion R = Ok overrideVersion →
  versions m !! key m R = Some obj →
  cachedVersions PropagatedVersionName
    (uManager (Update retries m c R selectedClusters V)) R =
  Some (updateClusterVersions
          (validVersions (status obj) templateVersion overrideVersion)
          V selectedClusters).
Proof.
  intros Htv Hov Hkey.
  destruct (Update_stored retries m c R selectedClusters V _ _ Htv Hov)
    as (Hkind & obj' & Hobj & Hst).
  rewrite Hkey in Hst.
  unfold cachedVersions, versionQualifiedName. rewrite Hkind.
  unfold versionQualifiedName in Hobj. rewrite Hobj. simpl.
  unfold GetStatus. by rewrite Hst.
Qed.

Lemma cachedVersions_merge retries m (c : C) R selectedClusters newVersionMap obj :
  versions m !! key m R = Some obj →
  resourceTemplateVersion R = Ok (TemplateVersion (status obj)) →
  resourceOverrideVersion R = Ok (OverrideVersion (status obj)) →
  cachedVersions PropagatedVersionName
    (uManager (Update retries m c R selectedClusters newVersionMap)) R
  = Some (VersionMapToClusterVersions
            (mergedVersions (ClusterVersions (status obj)) newVersionMap
               selectedClusters)).
Proof.
  intros Hkey Htv Hov. erewrite cachedVersions_Update by done.
  rewrite validVersions_match. unfold updateClusterVersions.
  by rewrite retainVersions_merged.
Qed.

(** C2, as amended.  For a resource with a cached record whose template and
    override versions are the resource's current ones, after
    [Update(R, selectedClusters, newVersionMap)] the cache holds, sorted by
    cluster name, the union of [newVersionMap] with those entries of the
    old record's cluster versions whose cluster is in [selectedClusters]
    but absent from [newVersionMap], without the entries of that union
    whose version is the empty string. *)
Theorem merge_law retries m (c : C) R selectedClusters newVersionMap obj :
  versions m !! key m R = Some obj →
  resourceTemplateVersion R = Ok (TemplateVersion (status obj)) →
  resourceOverrideVersion R = Ok (OverrideVersion (status obj)) →
  let r := Update retries m c R selectedClusters newVersionMap in
  let union :=
    mergedVersions (ClusterVersions (status obj)) newVersionMap selectedClusters in
  cachedVersions PropagatedVersionName (uManager r) R
    = Some (VersionMapToClusterVersions union) ∧
  cachedVersionMap PropagatedVersionName (uManager r) R
    = Some (restrictNonEmpty union).
Proof.
  intros Hkey Htv Hov r union.
  assert (cachedVersions PropagatedVersionName (uManager r) R
          = Some (VersionMapToClusterVersions union)) as Hc.
  { by apply cachedVersions_merge. }
  split; [done|]. unfold cachedVersionMap. rewrite Hc. simpl.
  by rewrite clusterVersionsToMap_VersionMapToClusterVersions.
Qed.

(** C9. Old cluster versions are carried into the merge of [Update] only
    when the cached record's template and override versions both equal the
    resource's current ones: then the stored list is that of the merge; if
    either differs, every old cluster version is discarded, and the stored
    result holds only the entries of the new version map with a non-empty
    version string, also for selected clusters that had known versions. *)
Theorem stale_versions_discarded retries m (c : C) R selectedClusters
    newVersionMap obj templateVersion overrideVersion :
  versions m !! key m R = Some obj →
  resourceTemplateVersion R = Ok templateVersion →
  resourceOverrideVersion R = Ok overrideVersion →
  let r := Update retries m c R selectedClusters newVersionMap in
  (TemplateVersion (status obj) = templateVersion ∧
   OverrideVersion (status obj) = overrideVersion →
   cachedVersions PropagatedVersionName (uManager r) R
   = Some (VersionMapToClusterVersions
             (mergedVersions (ClusterVersions (status obj)) newVersionMap
                selectedClusters))) ∧
  (TemplateVersion (status obj) ≠ templateVersion ∨
   OverrideVersion (status obj) ≠ overrideVersion →
   cachedVersions PropagatedVersionName (uManager r) R
   = Some (VersionMapToClusterVersions newVersionMap) ∧
   cachedVersionMap PropagatedVersionName (uManager r) R
   = Some (restrictNonEmpty newVersionMap) ∧
   uVersionMap r = newVersionMap).
Proof.
  intros Hkey Htv Hov r. split.
  - intros [<- <-]. by apply cachedVersions_merge.
  - intros Hne.
    assert (cachedVersions PropagatedVersionName (uManager r) R
            = Some (VersionMapToClusterVersions newVersionMap)) as Hc.
    { unfold r. erewrite cachedVersions_Update by done.
      by rewrite validVersions_mismatch. }
    split; [done|]. split.
    + unfold cachedVersionMap. rewrite Hc. simpl.
      by rewrite clusterVersionsToMap_VersionMapToClusterVersions.
    + destruct (Update_record retries m c R selectedClusters newVersionMap
                  _ _ obj Htv Hov Hkey) as [Hmap _].
      fold r in Hmap. rewrite Hmap. by rewrite validVersions_mismatch.
Qed.

Lemma mergedVersions_retained oldVersions (newVersionMap : gmap string string)
    selectedClusters old :
  NoDup (ClusterName <$> oldVersions) →
  old ∈ oldVersions →
  ClusterName old ∈ selectedClusters →
  newVersionMap !! ClusterName old = None →
  mergedVersions oldVersions newVersionMap selectedClusters !! ClusterName old
  = Some (Version old).
Proof.
  intros Hnd Hin Hsel Hnew. unfold mergedVersions.
  rewrite lookup_union_r by done. unfold retainedEntries.
  apply elem_of_list_to_map_1.
  - eapply sublist_NoDup; [exact Hnd|].
    rewrite <-list_fmap_compose.
    apply (fmap_sublist (fst ∘ entry)), sublist_filter.
  - apply (list_elem_of_fmap_2 entry). apply list_elem_of_filter. done.
Qed.

Lemma mergedVersions_new oldVersions (newVersionMap : gmap string string)
    selectedClusters cluster version :
  newVersionMap !! cluster = Some version →
  mergedVersions oldVersions newVersionMap selectedClusters !! cluster
  = Some version.
Proof. intros Hnew. unfold mergedVersions. by apply lookup_union_Some_l. Qed.

(** C10, as amended.  [Update] writes to the map its caller passed: when
    the cached record's template and override versions equal the resource's
    current ones, the caller's map is afterwards the union of what it was
    with the retained old entries, so for each selected cluster that has an
    entry in the record's cluster versions but none in the map, the old
    version is now in the caller's map, and the caller's own entries are as
    they were.  When either version differs the map is left as it was. *)
Theorem caller_map_mutated retries m (c : C) R selectedClusters versionMap obj
    templateVersion overrideVersion :
  versions m !! key m R = Some obj →
  resourceTemplateVersion R = Ok templateVersion →
  resourceOverrideVersion R = Ok overrideVersion →
  let r := Update retries m c R selectedClusters versionMap in
  (TemplateVersion (status obj) = templateVersion ∧
   OverrideVersion (status obj) = overrideVersion →
   uVersionMap r
   = mergedVersions (ClusterVersions (status obj)) versionMap selectedClusters ∧
   (∀ cluster version,
      versionMap !! cluster = Some version →
      uVersionMap r !! cluster = Some version) ∧
   (NoDup (ClusterName <$> ClusterVersions (status obj)) →
    ∀ old, old ∈ ClusterVersions (status obj) →
      ClusterName old ∈ selectedClusters →
      versionMap !! ClusterName old = None →
      uVersionMap r !! ClusterName old = Some (Version old))) ∧
  (TemplateVersion (status obj) ≠ templateVersion ∨
   OverrideVersion (status obj) ≠ overrideVersion →
   uVersionMap r = versionMap).
Proof.
  intros Hkey Htv Hov r.
  destruct (Update_record retries m c R selectedClusters versionMap
              _ _ obj Htv Hov Hkey) as [Hmap _].
  fold r in Hmap. split.
  - intros [<- <-]. rewrite validVersions_match, retainVersions_merged in Hmap.
    rewrite Hmap. split; [done|]. split.
    + intros. by apply mergedVersions_new.
    + intros. by apply mergedVersions_retained.
  - intros Hne. rewrite Hmap. by rewrite validVersions_mismatch.
Qed.

(** C4, as amended.  [Get] looks the record up before it asks the
    resource for its versions.  If no cached record exists for the key of
    the resource, [Get] returns an empty map and no error, also when the
    versions of the resource cannot be computed.  If a record exists and
    computing the template or the override version fails, [Get] returns
    that failure, wrapped, as its error.  If a record exists and its
    template or its override version differs from the resource's current
    one, [Get] returns an empty map; if both agree it returns the cluster
    versions of the record as a map. *)
Theorem get_semantics m R :
  (versions m !! key m R = None → Get m R = Ok ∅) ∧
  (∀ obj, versions m !! key m R = Some obj →
     (∀ err, resourceTemplateVersion R = Err err →
        Get m R = Err (Wrap err "Failed to determine template version")) ∧
     (∀ templateVersion err,
        resourceTemplateVersion R = Ok templateVersion →
        resourceOverrideVersion R = Err err →
        Get m R = Err (Wrap err "Failed to determine override version")) ∧
     (∀ templateVersion overrideVersion,
        resourceTemplateVersion R = Ok templateVersion →
        resourceOverrideVersion R = Ok overrideVersion →
        (templateVersion ≠ TemplateVersion (status obj) ∨
         overrideVersion ≠ OverrideVersion (status obj) →
         Get m R = Ok ∅) ∧
        (templateVersion = TemplateVersion (status obj) ∧
         overrideVersion = OverrideVersion (status obj) →
         Get m R = Ok (clusterVersionsToMap (ClusterVersions (status obj)))))).
Proof.
  unfold Version.Get. split.
  - by intros ->.
  - intros obj ->. unfold GetStatus. split; [|split].
    + by intros err ->.
    + by intros tv err -> ->.
    + intros tv ov -> ->. split.
      * intros [Hne|Hne].
        -- by rewrite (bool_decide_eq_false_2 _ Hne).
        -- rewrite (bool_decide_eq_false_2 _ Hne). by rewrite andb_false_r.
      * intros [-> ->]. by rewrite !bool_decide_eq_true_2.
Qed.

(** ** Write avoidance *)

Lemma retainVersions_covered oldVersions (newVersions : gmap string string)
    selectedClusters :
  (∀ old, old ∈ oldVersions → is_Some (newVersions !! ClusterName old)) →
  retainVersions oldVersions newVersions selectedClusters = newVersions.
Proof.
  intros Hcov. apply map_eq. intros cluster. rewrite retainVersions_lookup.
  destruct (newVersions !! cluster) eqn:Hc; [done|].
  apply not_elem_of_list_to_map_1. intros Hin.
  apply list_elem_of_fmap in Hin as ([c' v'] & -> & Hin).
  apply list_elem_of_fmap in Hin as (old & Heq & Hin).
  apply list_elem_of_filter in Hin as [_ Hin].
  destruct (Hcov old Hin) as [v Hv]. inversion Heq; subst.
  simpl in Hc. congruence.
Qed.

Lemma VersionMapToClusterVersions_covered (versionMap : gmap string string) old :
  old ∈ VersionMapToClusterVersions versionMap →
  is_Some (versionMap !! ClusterName old).
Proof.
  intros Hin. apply (list_elem_of_fmap_2 entry) in Hin.
  rewrite entry_VersionMapToClusterVersions in Hin.
  apply list_elem_of_filter in Hin as [_ Hin].
  apply elem_of_map_to_list in Hin. eauto.
Qed.

(** A second [Update] with the map as the first call left it finds nothing
    to do. *)
Lemma updateClusterVersions_again (versionMap : gmap string string)
    selectedClusters :
  retainVersions (VersionMapToClusterVersions versionMap) versionMap
    selectedClusters = versionMap ∧
  updateClusterVersions (VersionMapToClusterVersions versionMap) versionMap
    selectedClusters = VersionMapToClusterVersions versionMap.
Proof.
  assert (retainVersions (VersionMapToClusterVersions versionMap) versionMap
            selectedClusters = versionMap) as H.
  { apply retainVersions_covered. apply VersionMapToClusterVersions_covered. }
  split; [done|]. unfold updateClusterVersions. by rewrite H.
Qed.

Lemma retained_lookup (l : list ClusterObjectVersion)
    (selectedClusters : list string) cluster version :
  NoDup (ClusterName <$> l) →
  (list_to_map
     (entry <$> filter (λ v, ClusterName v ∈ selectedClusters) l)
   : gmap string string) !! cluster = Some version ↔
  cluster ∈ selectedClusters ∧
  {| ClusterName := cluster; Version := version |} ∈ l.
Proof.
  intros Hnd. rewrite <-elem_of_list_to_map.
  - rewrite list_elem_of_fmap. split.
    + intros ([c v] & [= -> ->] & [Hsel Hin]%list_elem_of_filter). done.
    + intros [Hsel Hin].
      exists {| ClusterName := cluster; Version := version |}.
      split; [done|]. by apply list_elem_of_filter.
  - eapply sublist_NoDup; [exact Hnd|]. rewrite <-list_fmap_compose.
    apply (fmap_sublist (fst ∘ entry)), sublist_filter.
Qed.

Lemma elem_of_VersionMapToClusterVersions (versionMap : gmap string string)
    cluster version :
  {| ClusterName := cluster; Version := version |}
    ∈ VersionMapToClusterVersions versionMap ↔
  version ≠ "" ∧ versionMap !! cluster = Some version.
Proof.
  assert ({| ClusterName := cluster; Version := version |}
            ∈ VersionMapToClusterVersions versionMap ↔
          (cluster, version) ∈ entry <$> VersionMapToClusterVersions versionMap)
    as ->.
  { rewrite list_elem_of_fmap. split.
    - intros H. exists {| ClusterName := cluster; Version := version |}. done.
    - intros ([c v] & [= -> ->] & H). done. }
  rewrite entry_VersionMapToClusterVersions.
  by rewrite list_elem_of_filter, elem_of_map_to_list.
Qed.

Lemma mergedVersions_lookup oldVersions (newVersionMap : gmap string string)
    (selectedClusters : list string) cluster :
  mergedVersions oldVersions newVersionMap selectedClusters !! cluster =
  match newVersionMap !! cluster with
  | Some version => Some version
  | None =>
    (list_to_map
       (entry <$> filter (λ v, ClusterName v ∈ selectedClusters) oldVersions)
     : gmap string string) !! cluster
  end.
Proof. rewrite <-retainVersions_merged. apply retainVersions_lookup. Qed.

(** Merging the stored list into the map the caller passed the first time
    gives, up to empty versions, the map that was stored. *)
Lemma mergedVersions_again oldVersions (versionMap : gmap string string)
    selectedClusters :
  let merged := mergedVersions oldVersions versionMap selectedClusters in
  restrictNonEmpty
    (mergedVersions (VersionMapToClusterVersions merged) versionMap
       selectedClusters)
  = restrictNonEmpty merged.
Proof.
  intros merged. apply map_eq. intros cluster. apply option_eq. intros version.
  unfold restrictNonEmpty. rewrite !map_lookup_filter_Some.
  rewrite mergedVersions_lookup. unfold merged at 2.
  rewrite mergedVersions_lookup.
  destruct (versionMap !! cluster) as [v|] eqn:Hc; [done|].
  rewrite retained_lookup by apply NoDup_names_VersionMapToClusterVersions.
  rewrite elem_of_VersionMapToClusterVersions.
  unfold merged. rewrite mergedVersions_lookup, Hc.
  unfold nonEmptyVersion. simpl. split; [tauto|].
  intros [Hl Hne]. repeat split; try done.
  apply elem_of_list_to_map_2, list_elem_of_fmap in Hl
    as (old & Heq & [Hsel _]%list_elem_of_filter).
  inversion Heq. by subst.
Qed.

(** After an [Update] whose versions could be computed the cache holds, for
    the resource, the list of the map the call left to its caller. *)
Lemma Update_stored_map retries m (c : C) R selectedClusters V
    templateVersion overrideVersion :
  resourceTemplateVersion R = Ok templateVersion →
  resourceOverrideVersion R = Ok overrideVersion →
  let r := Update retries m c R selectedClusters V in
  ∃ obj',
    versions (uManager r) !! key (uManager r) R = Some obj' ∧
    status obj' =
      {| TemplateVersion := templateVersion;
         OverrideVersion := overrideVersion;
         ClusterVersions := VersionMapToClusterVersions (uVersionMap r) |}.
Proof.
  intros Htv Hov r.
  destruct (Update_stored retries m c R selectedClusters V _ _ Htv Hov)
    as (Hkind & obj' & Hobj & Hst).
  fold r in Hkind, Hobj. exists obj'. split.
  { unfold versionQualifiedName. rewrite Hkind. exact Hobj. }
  rewrite Hst. f_equal.
  destruct (versions m !! key m R) as [obj|] eqn:Hkey.
  - destruct (Update_record retries m c R selectedClusters V
                _ _ obj Htv Hov Hkey) as [Hmap _].
    fold r in Hmap. by rewrite Hmap.
  - destruct (Update_no_record retries m c R selectedClusters V
                _ _ Htv Hov Hkey) as (_ & _ & _ & Hmap & _).
    fold r in Hmap. by rewrite Hmap.
Qed.

Lemma Update_caller_map retries m (c : C) R selectedClusters V
    templateVersion overrideVersion :
  resourceTemplateVersion R = Ok templateVersion →
  resourceOverrideVersion R = Ok overrideVersion →
  ∃ oldVersions,
    uVersionMap (Update retries m c R selectedClusters V)
    = mergedVersions oldVersions V selectedClusters.
Proof.
  intros Htv Hov. destruct (versions m !! key m R) as [obj|] eqn:Hkey.
  - destruct (Update_record retries m c R selectedClusters V
                _ _ obj Htv Hov Hkey) as [Hmap _].
    eexists. rewrite Hmap. apply retainVersions_merged.
  - destruct (Update_no_record retries m c R selectedClusters V
                _ _ Htv Hov Hkey) as (_ & _ & _ & Hmap & _).
    exists []. rewrite Hmap. by rewrite <-retainVersions_merged.
Qed.

(** An [Update] that finds the merged status in the cache does nothing. *)
Lemma Update_unchanged retries m (c : C) R selectedClusters V
    templateVersion overrideVersion obj :
  resourceTemplateVersion R = Ok templateVersion →
  resourceOverrideVersion R = Ok overrideVersion →
  versions m !! key m R = Some obj →
  status obj
  = mergedStatus (status obj) templateVersion overrideVersion V selectedClusters →
  let r := Update retries m c R selectedClusters V in
  uErr r = None ∧ uWrites r = 0 ∧ uClient r = c ∧ uManager r = m.
Proof.
  intros Htv Hov Hkey Hst r.
  destruct (Update_record retries m c R selectedClusters V
              _ _ obj Htv Hov Hkey) as [_ [H|[Hne _]]]; [|done].
  fold r in H. tauto.
Qed.

Lemma Update_changed retries m (c : C) R selectedClusters V
    templateVersion overrideVersion :
  resourceTemplateVersion R = Ok templateVersion →
  resourceOverrideVersion R = Ok overrideVersion →
  ¬ (∃ obj, versions m !! key m R = Some obj ∧
            status obj = mergedStatus (status obj) templateVersion
                           overrideVersion V selectedClusters) →
  uWrites (Update retries m c R selectedClusters V) = 1.
Proof.
  intros Htv Hov Hne. destruct (versions m !! key m R) as [obj|] eqn:Hkey.
  - destruct (Update_record retries m c R selectedClusters V
                _ _ obj Htv Hov Hkey) as [_ [[H _]|[_ [H _]]]]; [|done].
    destruct Hne. eauto.
  - by destruct (Update_no_record retries m c R selectedClusters V
                   _ _ Htv Hov Hkey) as (_ & _ & _ & _ & H).
Qed.

(** C3, as amended.  For a resource with a cached record, if the merged
    status (template version, override version and the sorted list of
    cluster versions) equals the status of the record, [Update] returns nil
    and performs no durable write: the write protocol is not run and the
    client is not called.  Hence of two calls of [Update] with identical
    arguments the second performs no durable write and changes nothing,
    whether it is given the map as the first call left it or the map as it
    was; the two calls together run the write protocol at most once:
    exactly once when the first call finds no record, or a record whose
    status differs from the merged one, and not at all otherwise. *)
Theorem update_write_avoidance retries retries' m (c : C) R selectedClusters V
    templateVersion overrideVersion :
  resourceTemplateVersion R = Ok templateVersion →
  resourceOverrideVersion R = Ok overrideVersion →
  let unchanged :=
    ∃ obj, versions m !! key m R = Some obj ∧
           status obj = mergedStatus (status obj) templateVersion
                          overrideVersion V selectedClusters in
  let r1 := Update retries m c R selectedClusters V in
  let again versionMap :=
    Update retries' (uManager r1) (uClient r1) R selectedClusters versionMap in
  (unchanged →
   uErr r1 = None ∧ uWrites r1 = 0 ∧ uClient r1 = c ∧ uManager r1 = m) ∧
  (∀ versionMap, versionMap = uVersionMap r1 ∨ versionMap = V →
     uErr (again versionMap) = None ∧ uWrites (again versionMap) = 0 ∧
     uClient (again versionMap) = uClient r1 ∧
     uManager (again versionMap) = uManager r1 ∧
     (unchanged → uWrites r1 + uWrites (again versionMap) = 0) ∧
     (¬ unchanged → uWrites r1 + uWrites (again versionMap) = 1)).
Proof.
  intros Htv Hov unchanged r1 again. split.
  { intros (obj & Hkey & Hst). by eapply Update_unchanged. }
  intros versionMap Hmap.
  destruct (Update_stored_map retries m c R selectedClusters V _ _ Htv Hov)
    as (obj1 & Hkey1 & Hst1).
  fold r1 in Hkey1, Hst1.
  assert (status obj1
          = mergedStatus (status obj1) templateVersion overrideVersion
              versionMap selectedClusters) as Hsame.
  { rewrite Hst1 at 1. unfold mergedStatus. f_equal.
    rewrite Hst1. unfold validVersions. simpl.
    rewrite !bool_decide_eq_true_2 by done. simpl.
    destruct Hmap as [->| ->].
    - symmetry. apply updateClusterVersions_again.
    - destruct (Update_caller_map retries m c R selectedClusters V _ _ Htv Hov)
        as (oldVersions & Hold).
      fold r1 in Hold. rewrite Hold. unfold updateClusterVersions.
      rewrite retainVersions_merged.
      symmetry. apply VersionMapToClusterVersions_restrict.
      apply mergedVersions_again. }
  destruct (Update_unchanged retries' (uManager r1) (uClient r1) R
              selectedClusters versionMap _ _ obj1 Htv Hov Hkey1 Hsame)
    as (Herr & Hw & Hc & Hm).
  fold (again versionMap) in Herr, Hw, Hc, Hm.
  repeat split; try done.
  - intros (obj & Hkey & Hst). rewrite Hw.
    destruct (Update_unchanged retries m c R selectedClusters V
                _ _ obj Htv Hov Hkey Hst) as (_ & Hzero & _).
    fold r1 in Hzero. by rewrite Hzero.
  - intros Hne. rewrite Hw.
    pose proof (Update_changed retries m c R selectedClusters V _ _ Htv Hov Hne)
      as Hone.
    fold r1 in Hone. by rewrite Hone.
Qed.

End update.

(** ** The laws on concrete runs *)

Section runs.
Import Fake Examples.

Local Abbreviation Update := (Update versionNameOf).
Local Abbreviation Get := (Get versionNameOf).

Lemma get_after_update_witness :
  let V : gmap string string :=
    <["c2" := "v1"]> (<["c1" := "v1"]> (<["c0" := ""]> ∅)) in
  Get (uManager (Update 3 manager store R ["c1"; "c2"] V)) R
  = Ok (restrictNonEmpty V).
Proof.
  intros V.
  apply (get_after_update versionNameOf 3 manager store R ["c1"; "c2"] V R
           "t1" "o1"); reflexivity.
Defined.

Example get_after_update_run :
  Get (uManager (Update 3 manager store R ["c1"; "c2"]
                   (<["c2" := "v1"]> (<["c1" := "v1"]> (<["c0" := ""]> ∅))))) R
  = Ok (<["c2" := "v1"]> (<["c1" := "v1"]> ∅)).
Proof. vm_compute. reflexivity. Qed.

(** The example of the merge law: prior state c1 and c2 at v1, and
    [Update(R, {c1, c2}, {c1: v2})]. *)
Lemma merge_law_witness :
  let r := Update 3 prior store R ["c1"; "c2"] {[ "c1" := "v2" ]} in
  let union :=
    mergedVersions [cv "c1" "v1"; cv "c2" "v1"] {[ "c1" := "v2" ]} ["c1"; "c2"] in
  cachedVersions versionNameOf (uManager r) R
    = Some (VersionMapToClusterVersions union) ∧
  cachedVersionMap versionNameOf (uManager r) R = Some (restrictNonEmpty union).
Proof.
  apply (merge_law versionNameOf 3 prior store R ["c1"; "c2"] {[ "c1" := "v2" ]}
           (record (statusOf "t1" "o1" [cv "c1" "v1"; cv "c2" "v1"])));
    reflexivity.
Defined.

Example merge_law_run :
  cachedVersionMap versionNameOf
    (uManager (Update 3 prior store R ["c1"; "c2"] {[ "c1" := "v2" ]})) R
  = Some (<["c1" := "v2"]> (<["c2" := "v1"]> ∅)).
Proof. vm_compute. reflexivity. Qed.

(** C2 as stated fails where the new version map holds an empty version:
    with c1 at v1 in the record, [Update(R, {c1}, {c1: ""})] stores no
    entry for c1, while the union of the new map with the retained entries
    maps c1 to the empty string. *)
Lemma merge_law_counterexample :
  let m := managerWith (statusOf "t1" "o1" [cv "c1" "v1"]) in
  let r := Update 3 m store R ["c1"] {[ "c1" := "" ]} in
  mergedVersions [cv "c1" "v1"] {[ "c1" := "" ]} ["c1"] !! "c1" = Some "" ∧
  cachedVersions versionNameOf (uManager r) R = Some [] ∧
  cachedVersionMap versionNameOf (uManager r) R
  ≠ Some (mergedVersions [cv "c1" "v1"] {[ "c1" := "" ]} ["c1"]).
Proof.
  split_and!; [by vm_compute..|].
  vm_compute. intros [=].
Qed.

Lemma update_write_avoidance_witness :
  let r1 := Update 3 prior store R ["c1"; "c2"] {[ "c1" := "v2" ]} in
  let r2 :=
    Update 3 (uManager r1) (uClient r1) R ["c1"; "c2"] (uVersionMap r1) in
  uErr r2 = None ∧ uWrites r2 = 0 ∧ uClient r2 = uClient r1 ∧
  uManager r2 = uManager r1.
Proof.
  intros r1 r2.
  pose proof (update_write_avoidance versionNameOf 3 3 prior store R
                ["c1"; "c2"] {[ "c1" := "v2" ]} "t1" "o1" eq_refl eq_refl)
    as [_ Hagain].
  destruct (Hagain (uVersionMap r1) (or_introl eq_refl))
    as (Herr & Hwrites & Hclient & Hmanager & _).
  exact (conj Herr (conj Hwrites (conj Hclient Hmanager))).
Defined.

Example update_twice_run :
  let r1 := Update 3 prior store R ["c1"; "c2"] {[ "c1" := "v2" ]} in
  let r2 :=
    Update 3 (uManager r1) (uClient r1) R ["c1"; "c2"] (uVersionMap r1) in
  uWrites r1 = 1 ∧ uWrites r2 = 0 ∧
  length (calls (uClient r1)) = 1 ∧ calls (uClient r2) = calls (uClient r1) ∧
  uVersionMap r1 = <["c1" := "v2"]> (<["c2" := "v1"]> ∅).
Proof. vm_compute. done. Qed.

(** C3 as stated fails where the first of the two calls already finds the
    merged status in the cache: with c1 and c2 at v1 in the record, two
    calls of [Update(R, {c1, c2}, {c1: v1})] perform no durable write at
    all, not exactly one. *)
Lemma update_write_avoidance_counterexample :
  let r1 := Update 3 prior store R ["c1"; "c2"] {[ "c1" := "v1" ]} in
  let r2 :=
    Update 3 (uManager r1) (uClient r1) R ["c1"; "c2"] (uVersionMap r1) in
  uVersionMap r1 = <["c1" := "v1"]> (<["c2" := "v1"]> ∅) ∧
  calls (uClient r2) = [] ∧
  uWrites r1 + uWrites r2 ≠ 1.
Proof. vm_compute. split_and!; [done..|]. intros [=]. Qed.

(** C4 as stated fails where no record is cached and the template version
    cannot be computed: [Get] returns the empty map and no error. *)
Lemma get_semantics_counterexample :
  let failing := resource (Err (ErrorNew "no template")) (Ok "o1") in
  resourceTemplateVersion failing = Err (ErrorNew "no template") ∧
  Get manager failing = Ok ∅ ∧
  ∀ err, Get manager failing ≠ Err err.
Proof. split_and!; [done..|]. intros err. vm_compute. intros [=]. Qed.

Example get_error_run :
  Get prior (resource (Err (ErrorNew "no template")) (Ok "o1"))
  = Err (Wrap (ErrorNew "no template") "Failed to determine template version").
Proof. reflexivity. Qed.

Lemma stale_versions_discarded_witness :
  let r := Update 3 stale store R ["c1"; "c2"] {[ "c1" := "v2" ]} in
  cachedVersions versionNameOf (uManager r) R
  = Some (VersionMapToClusterVersions {[ "c1" := "v2" ]}) ∧
  cachedVersionMap versionNameOf (uManager r) R
  = Some (restrictNonEmpty {[ "c1" := "v2" ]}) ∧
  uVersionMap r = {[ "c1" := "v2" ]}.
Proof.
  apply (stale_versions_discarded versionNameOf 3 stale store R ["c1"; "c2"]
           {[ "c1" := "v2" ]}
           (record (statusOf "t0" "o1" [cv "c1" "v1"; cv "c2" "v1"]))
           "t1" "o1"); [reflexivity..|].
  left. vm_compute. intros [=].
Defined.

Example stale_versions_run :
  cachedVersions versionNameOf
    (uManager (Update 3 stale store R ["c1"; "c2"] {[ "c1" := "v2" ]})) R
  = Some [cv "c1" "v2"].
Proof. vm_compute. reflexivity. Qed.

Lemma caller_map_mutated_witness :
  let r := Update 3 prior store R ["c1"; "c2"] {[ "c1" := "v2" ]} in
  uVersionMap r
  = mergedVersions [cv "c1" "v1"; cv "c2" "v1"] {[ "c1" := "v2" ]} ["c1"; "c2"] ∧
  uVersionMap r !! "c2" = Some "v1".
Proof.
  intros r.
  destruct (caller_map_mutated versionNameOf 3 prior store R ["c1"; "c2"]
              {[ "c1" := "v2" ]}
              (record (statusOf "t1" "o1" [cv "c1" "v1"; cv "c2" "v1"]))
              "t1" "o1" eq_refl eq_refl eq_refl) as [Hmatch _].
  destruct (Hmatch (conj eq_refl eq_refl)) as (Hmap & _ & Hold).
  split; [exact Hmap|].
  apply (Hold ltac:(apply (bool_decide_unpack _); vm_compute; exact I)
              (cv "c2" "v1"));
    [apply (bool_decide_unpack _); vm_compute; exact I..|reflexivity].
Defined.

(** C10 as stated fails where the cached record is of another template
    version: c1 is selected, has an entry in the record's cluster versions
    and none in the caller's map, and yet nothing is inserted. *)
Lemma caller_map_mutated_counterexample :
  let r := Update 3 stale store R ["c1"; "c2"] ∅ in
  cachedVersions versionNameOf stale R = Some [cv "c1" "v1"; cv "c2" "v1"] ∧
  uVersionMap r !! "c1" ≠ Some "v1" ∧
  uVersionMap r = ∅.
Proof. vm_compute. split_and!; [done| |done]. intros [=]. Qed.

(** With room for one more run, a conflict on the first update is followed
    by the refresh and by the write under the refreshed token; with no room
    the conflict is the last call and the deadline's error is returned. *)
Lemma write_protocol_witness :
  let obj := record (statusOf "t1" "o1" [cv "c1" "v1"]) in
  let qualifiedName := versionName obj in
  let replies := [Err (StatusError ReasonConflict); Ok "9"; Ok "10"] in
  let h := history (writeVersion 1 (script replies) obj qualifiedName).2 in
  let late := writeVersion 0 (script replies) obj qualifiedName in
  (∃ next, h !! 1 = Some next ∧
     next.1 = refreshCall qualifiedName ∧
     ∀ resourceVersion, next.2 = Ok resourceVersion →
       ∃ retried, h !! 2 = Some retried ∧
                  retried.1 = writeCall obj resourceVersion) ∧
  history late.2 !! 1 = None ∧
  late.1.1
  = Some (Wrap DeadlineExceeded
            "Failed to write the version map for %s %q to the API").
Proof.
  intros obj qualifiedName replies h late. split.
  - destruct (write_protocol 1 replies obj qualifiedName)
      as (_ & Hconflict & _).
    destruct (Hconflict 0 obj (StatusError ReasonConflict))
      as [Hroom _]; [vm_compute; reflexivity|reflexivity|].
    apply Hroom. vm_compute. lia.
  - destruct (write_protocol 0 replies obj qualifiedName)
      as (_ & Hconflict & _).
    destruct (Hconflict 0 obj (StatusError ReasonConflict))
      as [_ Hexpired]; [vm_compute; reflexivity|reflexivity|].
    apply Hexpired. vm_compute. lia.
Defined.

(** A conflict on the update, a refresh, and the update under the new
    token. *)
Example write_conflict_run :
  let obj := record (statusOf "t1" "o1" [cv "c1" "v1"]) in
  let qualifiedName := versionName obj in
  let run :=
    writeVersion 3 (script [Err (StatusError ReasonConflict); Ok "9"; Ok "10"])
      obj qualifiedName in
  calls run.2 =
    [CallUpdateStatus obj; CallGet "ns" "configmap-cm";
     CallUpdateStatus (setResourceVersion obj "9")] ∧
  run.1 = (None, setResourceVersion obj "10").
Proof. vm_compute. done. Qed.

(** A not-found on the update, the create, and the update of the created
    record. *)
Example write_not_found_run :
  let obj := record (statusOf "t1" "o1" [cv "c1" "v1"]) in
  let run :=
    writeVersion 3 (script [Err (StatusError ReasonNotFound); Ok "1"; Ok "2"])
      obj (versionName obj) in
  calls run.2 =
    [CallUpdateStatus obj; CallCreate (setResourceVersion obj "");
     CallUpdateStatus (setResourceVersion obj "1")] ∧
  run.1 = (None, setResourceVersion obj "2").
Proof. vm_compute. done. Qed.

(** An already-exists on the create, a refresh, and the update. *)
Example write_already_exists_run :
  let obj := setResourceVersion (record (statusOf "t1" "o1" [])) "" in
  let run :=
    writeVersion 3
      (script [Err (StatusError ReasonAlreadyExists); Ok "4"; Ok "5"])
      obj (versionName obj) in
  calls run.2 =
    [CallCreate obj; CallGet "ns" "configmap-cm";
     CallUpdateStatus (setResourceVersion obj "4")] ∧
  run.1 = (None, setResourceVersion obj "5").
Proof. vm_compute. done. Qed.

(** A forbidden update ends the invocation with one call. *)
Example write_forbidden_run :
  let obj := record (statusOf "t1" "o1" [cv "c1" "v1"]) in
  let run :=
    writeVersion 3 (script [Err (StatusError ReasonForbidden); Ok "9"])
      obj (versionName obj) in
  calls run.2 = [CallUpdateStatus obj] ∧
  run.1 =
    (Some (Wrap (StatusError ReasonForbidden)
             "Failed to write the version map for %s %q to the API"), obj).
Proof. vm_compute. done. Qed.

(** An error that stays is retried until the deadline. *)
Example write_deadline_run :
  let obj := record (statusOf "t1" "o1" [cv "c1" "v1"]) in
  let run := writeVersion 2 (script []) obj (versionName obj) in
  calls run.2 = [CallUpdateStatus obj; CallUpdateStatus obj; CallUpdateStatus obj] ∧
  run.1.1 =
    Some (Wrap DeadlineExceeded
            "Failed to write the version map for %s %q to the API").
Proof. vm_compute. done. Qed.

End runs.

End VersionFacts.

(** * Properties of the status controller *)

Module StatusFacts.
Import Status.

#[global] Instance byClusterName_trans : Transitive byClusterName.
Proof. intros a b c. unfold byClusterName. apply transitivity. Qed.

#[global] Instance byClusterName_total : Total byClusterName.
Proof. intros a b. unfold byClusterName. apply total, _. Qed.

Lemma statusOf_entryOf i key clusterName clusterObj :
  targetStore i clusterName key = CacheFound clusterObj →
  {| ClusterName := clusterName; Status := statusOf (Some clusterObj) |}
  = entryOf i key clusterName.
Proof.
  intros H. unfold entryOf, statusOf, NestedMap. rewrite H.
  destruct (clusterObj !! "status") as [[]|]; done.
Qed.

Lemma collectStatuses_ok i key clusterStatus clusterNames :
  (∀ clusterName err, clusterName ∈ clusterNames →
     targetStore i clusterName key ≠ CacheError err) →
  collectStatuses i key clusterStatus clusterNames
  = Ok (clusterStatus ++ (entryOf i key <$> clusterNames)).
Proof.
  revert clusterStatus.
  induction clusterNames as [|clusterName rest IH]; intros clusterStatus Hok.
  { simpl. by rewrite app_nil_r. }
  cbn [collectStatuses].
  destruct (targetStore i clusterName key) as [err| |clusterObj] eqn:Hs.
  - destruct (Hok clusterName err); [by left|done].
  - rewrite IH by (intros; apply Hok; by right).
    rewrite <-app_assoc, fmap_cons. do 2 f_equal. cbn [app]. f_equal.
    unfold entryOf. by rewrite Hs.
  - rewrite IH by (intros; apply Hok; by right).
    rewrite <-app_assoc, fmap_cons. do 2 f_equal. cbn [app]. f_equal.
    by apply statusOf_entryOf.
Qed.

Lemma collectStatuses_error i key clusterStatus clusterNames clusterName err :
  clusterName ∈ clusterNames →
  targetStore i clusterName key = CacheError err →
  ∃ err', collectStatuses i key clusterStatus clusterNames = Err err'.
Proof.
  revert clusterStatus.
  induction clusterNames as [|first rest IH]; intros clusterStatus Hin Herr.
  { by apply elem_of_nil in Hin. }
  simpl. destruct (targetStore i first key) as [err1| |clusterObj] eqn:Hs.
  - eauto.
  - apply elem_of_cons in Hin as [->|Hin]; [congruence|]. by apply IH.
  - apply elem_of_cons in Hin as [->|Hin]; [congruence|]. by apply IH.
Qed.

(** C8. The list of cluster statuses.  When no store lookup fails, the
    list has exactly one entry per ready cluster name given, sorted
    ascending by cluster name; each entry carries the status map of the
    cluster's target object; a cluster whose target object is absent from
    its cache, or whose object has no status map to extract, contributes
    an entry with a nil status and is not left out.  A lookup that fails
    for any of the clusters makes the whole computation fail. *)
Theorem cluster_statuses i clusterNames key :
  ((∀ clusterName err, clusterName ∈ clusterNames →
      targetStore i clusterName key ≠ CacheError err) →
   ∃ clusterStatus,
     clusterStatuses i clusterNames key = Ok clusterStatus ∧
     ClusterName <$> clusterStatus ≡ₚ clusterNames ∧
     length clusterStatus = length clusterNames ∧
     StronglySorted
       (λ a b, String.leb (ClusterName a) (ClusterName b) = true) clusterStatus ∧
     (∀ entry, entry ∈ clusterStatus ↔
        ∃ clusterName, clusterName ∈ clusterNames ∧
                       entry = entryOf i key clusterName) ∧
     (∀ clusterName, clusterName ∈ clusterNames →
        targetStore i clusterName key = CacheAbsent →
        {| ClusterName := clusterName; Status := None |} ∈ clusterStatus) ∧
     (∀ clusterName clusterObj, clusterName ∈ clusterNames →
        targetStore i clusterName key = CacheFound clusterObj →
        (NestedMap clusterObj "status").1.2 = false →
        {| ClusterName := clusterName; Status := None |} ∈ clusterStatus)) ∧
  (∀ clusterName err, clusterName ∈ clusterNames →
     targetStore i clusterName key = CacheError err →
     ∃ err', clusterStatuses i clusterNames key = Err err').
Proof.
  split.
  - intros Hok. unfold clusterStatuses.
    rewrite (collectStatuses_ok _ _ _ _ Hok). simpl.
    eexists. split; [done|].
    assert (merge_sort byClusterName (entryOf i key <$> clusterNames)
            ≡ₚ entryOf i key <$> clusterNames) as Hperm
      by apply merge_sort_Permutation.
    assert (∀ entry, entry ∈ merge_sort byClusterName (entryOf i key <$> clusterNames)
              ↔ ∃ clusterName, clusterName ∈ clusterNames ∧
                               entry = entryOf i key clusterName) as Hin.
    { intros entry. rewrite Hperm, list_elem_of_fmap.
      split; intros (clusterName & ? & ?); eauto. }
    split_and!.
    + rewrite Hperm, <-list_fmap_compose. simpl. apply reflexive_eq, list_fmap_id.
    + by rewrite Hperm, length_fmap.
    + apply (StronglySorted_merge_sort byClusterName).
    + done.
    + intros clusterName Hname Habs. apply Hin. exists clusterName.
      split; [done|]. unfold entryOf. by rewrite Habs.
    + intros clusterName clusterObj Hname Hfound Hnot. apply Hin.
      exists clusterName. split; [done|]. unfold entryOf. rewrite Hfound.
      unfold NestedMap in Hnot.
      by destruct (clusterObj !! "status") as [[]|].
  - intros clusterName err Hin Herr. unfold clusterStatuses.
    destruct (collectStatuses_error i key [] _ _ _ Hin Herr) as [err' ->].
    eauto.
Qed.

Example cluster_statuses_sorted :
  clusterStatuses (StatusExamples.synced [] CacheAbsent) ["c3"; "c1"; "c2"] "ns/cm"
  = Ok [{| ClusterName := "c1"; Status := None |};
        {| ClusterName := "c2"; Status := None |};
        {| ClusterName := "c3"; Status := None |}].
Proof. vm_compute. reflexivity. Qed.

(** Clusters A and B, the target object of B absent from its cache: B has
    an entry with a nil status. *)
Example cluster_statuses_absent :
  clusterStatuses (StatusExamples.synced [] CacheAbsent) ["B"; "A"] "ns/cm"
  = Ok [{| ClusterName := "A"; Status := Some StatusExamples.running |};
        {| ClusterName := "B"; Status := None |}].
Proof. vm_compute. reflexivity. Qed.

(** The store of C fails: no list. *)
Example cluster_statuses_error :
  clusterStatuses (StatusExamples.synced [] CacheAbsent) ["B"; "C"; "A"] "ns/cm"
  = Err (Wrap (ErrorNew "store failed") "Failed to get %s %q from cluster %q").
Proof. vm_compute. reflexivity. Qed.

(** ** The wait for the informers *)

Lemma pollSynced_Err informerAt poll retries err :
  pollSynced informerAt poll retries = Err err ↔
  err = DeadlineExceeded ∧
  ∀ k, k ≤ retries → isSynced (informerAt (poll + k)) = false.
Proof.
  revert poll. induction retries as [|n IH]; intros poll; simpl.
  - destruct (isSynced (informerAt poll)) eqn:Hs.
    + split; [done|]. intros [_ H]. specialize (H 0 (le_n _)).
      rewrite Nat.add_0_r in H. congruence.
    + split; [intros [= <-]|by intros [-> _]]. split; [done|].
      intros k Hk. replace k with 0 by lia. by rewrite Nat.add_0_r.
  - destruct (isSynced (informerAt poll)) eqn:Hs.
    + split; [done|]. intros [_ H]. specialize (H 0 ltac:(lia)).
      rewrite Nat.add_0_r in H. congruence.
    + rewrite IH. split; intros [-> H]; (split; [done|]); intros k Hk.
      * destruct k as [|k]; [by rewrite Nat.add_0_r|].
        replace (poll + S k) with (S poll + k) by lia. apply H. lia.
      * replace (S poll + k) with (poll + S k) by lia. apply H. lia.
Qed.

Lemma pollSynced_Ok informerAt poll retries found :
  pollSynced informerAt poll retries = Ok found →
  isSynced (informerAt found) = true ∧ poll ≤ found ≤ poll + retries.
Proof.
  revert poll. induction retries as [|n IH]; intros poll; simpl;
    destruct (isSynced (informerAt poll)) eqn:Hs; try done.
  - intros [= <-]. split; [done|lia].
  - intros [= <-]. split; [done|lia].
  - intros H. apply IH in H as [? ?]. split; [done|lia].
Qed.

Section reconcile.

Variable GetUnstructured : FederatedResource → result (gmap string value).

Local Abbreviation reconcile := (reconcile GetUnstructured).
Local Abbreviation reconcileSynced := (reconcileSynced GetUnstructured).

Lemma writeStatus_returns s qualifiedName existingStatus status :
  ∃ st, (writeStatus s qualifiedName existingStatus status).1 = Returned st.
Proof.
  unfold writeStatus. repeat case_match; simpl; eauto.
Qed.

Lemma reconcileSynced_returns s i qualifiedName :
  ∃ st, (reconcileSynced s i qualifiedName).1 = Returned st.
Proof.
  unfold Status.reconcileSynced.
  repeat case_match; simpl; eauto using writeStatus_returns.
Qed.

(** C6, as amended.  If the bounded wait for the informers fails, that is
    if the stores are in sync at none of the polls before the deadline,
    [reconcile] ends the process ([klog.Fatalf], exit code 255) and makes
    no write; it returns no status then.  If the stores are in sync at one
    of the polls, [reconcile] returns one of the four reconciliation
    statuses, for every key. *)
Theorem reconcile_outcome s qualifiedName :
  ((∀ poll, poll ≤ syncRetries s → isSynced (informerAt s poll) = false) →
   reconcile s qualifiedName = (Exited 255, [])) ∧
  ((∃ poll, poll ≤ syncRetries s ∧ isSynced (informerAt s poll) = true) →
   ∃ st, (reconcile s qualifiedName).1 = Returned st ∧
         (st = StatusAllOK ∨ st = StatusNeedsRecheck ∨
          st = StatusError ∨ st = StatusNotSynced)).
Proof.
  unfold Status.reconcile, waitForSync. split.
  - intros Hnever.
    destruct (pollSynced (informerAt s) 0 (syncRetries s)) as [found|err] eqn:Hw;
      [|done].
    apply pollSynced_Ok in Hw as [Hs Hle].
    rewrite Hnever in Hs by lia. done.
  - intros (poll & Hle & Hs).
    destruct (pollSynced (informerAt s) 0 (syncRetries s)) as [found|err] eqn:Hw.
    + destruct (reconcileSynced_returns s (informerAt s found) qualifiedName)
        as [st Hst].
      exists st. split; [done|]. destruct st; auto.
    + apply pollSynced_Err in Hw as [_ Hnever].
      specialize (Hnever poll Hle). simpl in Hnever. congruence.
Qed.

(** ** The write of the status *)

(** The write of the status for an existing status object: only the
    [clusterStatus] field of the existing object is compared; if it equals
    the computed one nothing is written; if not, the object written is the
    existing one with that field replaced, every other field as it was. *)
Lemma writeStatus_frame s qualifiedName existingStatus status :
  (index existingStatus clusterStatusField = index status clusterStatusField →
   writeStatus s qualifiedName (Some existingStatus) status
   = (Returned StatusAllOK, [])) ∧
  (index existingStatus clusterStatusField ≠ index status clusterStatusField →
   ∃ written,
     (writeStatus s qualifiedName (Some existingStatus) status).2
     = [Update (util.Namespace qualifiedName) written] ∧
     (∀ field, field ≠ clusterStatusField →
        written !! field = existingStatus !! field) ∧
     written !! clusterStatusField
     = Some (if decide (index status clusterStatusField = VNull)
             then VList [] else index status clusterStatusField)).
Proof.
  unfold writeStatus, DeepEqual. split.
  - intros Heq. by rewrite bool_decide_eq_true_2.
  - intros Hne. rewrite bool_decide_eq_false_2 by done. cbn [negb]. cbv zeta.
    eexists. split; [by destruct (statusUpdate s _ _)|]. split.
    + intros field Hfield. by rewrite lookup_insert_ne.
    + rewrite lookup_insert_eq. f_equal. case_decide; [|done].
      unfold index. by rewrite lookup_insert_eq.
Qed.

(** When the computed object has a [clusterStatus], the object written is
    not written again by the next call. *)
Lemma writeStatus_settled s qualifiedName existingStatus status :
  index status clusterStatusField ≠ VNull →
  let written :=
    <[clusterStatusField := index status clusterStatusField]> existingStatus in
  writeStatus s qualifiedName (Some written) status
  = (Returned StatusAllOK, []).
Proof.
  intros Hnn written.
  apply (writeStatus_frame s qualifiedName written status).
  unfold index at 1, written. by rewrite lookup_insert_eq.
Qed.

(** When the computed object has no [clusterStatus], the existing object
    is written with an empty list, and the object so written is written
    again by the next call: the comparison is made before nil is replaced
    by the empty list, which is never equal to nil. *)
Lemma writeStatus_nil_again s qualifiedName existingStatus status :
  index status clusterStatusField = VNull →
  index existingStatus clusterStatusField ≠ VNull →
  let written := <[clusterStatusField := VList []]> existingStatus in
  (writeStatus s qualifiedName (Some existingStatus) status).2
  = [Update (util.Namespace qualifiedName) written] ∧
  (writeStatus s qualifiedName (Some written) status).2
  = [Update (util.Namespace qualifiedName) written].
Proof.
  intros Hnil Hex written.
  assert (index written clusterStatusField = VList []) as Hw.
  { unfold index, written. by rewrite lookup_insert_eq. }
  assert (index (<[clusterStatusField := VList []]> status) clusterStatusField
          = VList []) as Hi.
  { unfold index. by rewrite lookup_insert_eq. }
  unfold writeStatus, DeepEqual. cbv zeta. rewrite Hnil, Hw.
  rewrite !bool_decide_eq_false_2 by done. cbn [negb].
  rewrite decide_True by done. rewrite Hi. fold written.
  assert (<[clusterStatusField := VList []]> written = written) as ->.
  { unfold written. by rewrite insert_insert_eq. }
  by destruct (statusUpdate s _ _).
Qed.

End reconcile.

Section runs.
Import StatusExamples.

Local Abbreviation reconcile := (reconcile toUnstructured).

(** C6 as stated fails where the informers do not get in sync before the
    deadline: [reconcile] ends the process and returns none of the four
    statuses. *)
Lemma reconcile_outcome_counterexample :
  reconcile (controller unsynced) cm = (Exited 255, []) ∧
  ¬ ∃ st, (reconcile (controller unsynced) cm).1 = Returned st.
Proof. split; [by vm_compute|]. vm_compute. by intros [st [=]]. Qed.

Example reconcile_first_run :
  (reconcile (controller (synced ["B"; "A"] CacheAbsent)) cm).1
  = Returned StatusAllOK ∧
  length (reconcile (controller (synced ["B"; "A"] CacheAbsent)) cm).2 = 1.
Proof. by vm_compute. Qed.

(** A status object that holds the status of cluster A, and A the only
    ready cluster: nothing is written. *)
Example reconcile_unchanged_run :
  reconcile (controller (synced ["A"] (CacheFound persisted))) cm
  = (Returned StatusAllOK, []).
Proof. by vm_compute. Qed.

(** A and B ready: the [clusterStatus] of the status object is replaced,
    the field of the other writer is kept, and once the write has reached
    the store the next reconcile writes nothing. *)
Example reconcile_changed_run :
  let s := controller (synced ["A"; "B"] (CacheFound persisted)) in
  let written :=
    <["clusterStatus" :=
        VList [clusterStatusValue {| ClusterName := "A"; Status := Some running |};
               clusterStatusValue {| ClusterName := "B"; Status := None |}]]>
      persisted in
  reconcile s cm = (Returned StatusAllOK, [Update "ns" written]) ∧
  written !! "note" = persisted !! "note" ∧
  written !! "kind" = persisted !! "kind" ∧
  reconcile (deliver s "ns/cm" written) cm = (Returned StatusAllOK, []).
Proof. split_and!; by vm_compute. Qed.

(** C7. The code at the failing input: a status object exists and no
    member cluster is ready.  The first reconcile writes the object with
    an empty [clusterStatus]; once that write has reached the store, with
    no other change, the second reconcile makes the same write again. *)
Theorem status_rewritten_without_clusters :
  let s := controller (synced [] (CacheFound persisted)) in
  let written := <["clusterStatus" := VList []]> persisted in
  reconcile s cm = (Returned StatusAllOK, [Update "ns" written]) ∧
  reconcile (deliver s "ns/cm" written) cm
  = (Returned StatusAllOK, [Update "ns" written]).
Proof. split; by vm_compute. Qed.

End runs.

End StatusFacts.

(** * Properties of the finalizer helpers *)

Module FinalizersFacts.
Import Finalizers.

Lemma elem_of_sets_List (s : gset string) x : x ∈ sets_List s ↔ x ∈ s.
Proof. unfold sets_List. by rewrite merge_sort_Permutation, elem_of_elements. Qed.

Lemma NoDup_sets_List (s : gset string) : NoDup (sets_List s).
Proof. unfold sets_List. rewrite merge_sort_Permutation. apply NoDup_elements. Qed.

Lemma Sorted_sets_List (s : gset string) : StronglySorted StrOrd.le (sets_List s).
Proof. apply StronglySorted_merge_sort; apply _. Qed.

Lemma list_to_set_sets_List (s : gset string) : list_to_set (sets_List s) = s.
Proof.
  apply set_eq. intros x. by rewrite elem_of_list_to_set, elem_of_sets_List.
Qed.

(** A sorted list without duplicates is the list of its set. *)
Lemma sets_List_of_sorted (l : list string) :
  StronglySorted StrOrd.le l → NoDup l → sets_List (list_to_set l) = l.
Proof.
  intros Hs Hnd. apply (StronglySorted_unique StrOrd.le).
  - apply Sorted_sets_List.
  - done.
  - unfold sets_List. rewrite merge_sort_Permutation.
    by apply elements_list_to_set.
Qed.

Lemma HasFinalizer_elem_of obj finalizer :
  HasFinalizer obj finalizer = true ↔ finalizer ∈ obj.
Proof.
  unfold HasFinalizer. by rewrite bool_decide_eq_true, elem_of_list_to_set.
Qed.

(** X1. [AddFinalizers] reports no update, and leaves the finalizers of the
    object exactly as they were, if and only if every new finalizer is
    already on the object; otherwise it reports an update and the object
    carries, sorted and without duplicates, exactly the old finalizers and
    the new ones. *)
Theorem AddFinalizers_spec obj (newFinalizers : gset string) :
  let r := AddFinalizers obj newFinalizers in
  (r.1 = false ↔ ∀ f, f ∈ newFinalizers → f ∈ obj) ∧
  (r.1 = false → r.2 = obj) ∧
  (r.1 = true →
   StronglySorted (λ a b, String.leb a b = true) r.2 ∧ NoDup r.2 ∧
   ∀ f, f ∈ r.2 ↔ f ∈ obj ∨ f ∈ newFinalizers).
Proof.
  unfold AddFinalizers. cbv zeta.
  assert (newFinalizers ⊆ list_to_set obj ↔ ∀ f, f ∈ newFinalizers → f ∈ obj)
    as Hsub.
  { unfold subseteq, set_subseteq_instance.
    by setoid_rewrite elem_of_list_to_set. }
  case_bool_decide as Hd; simpl.
  - split_and!; [|done..]. split; [intros _; by apply Hsub|done].
  - split_and!; [|done|].
    + split; [done|]. intros H. destruct Hd. by apply Hsub.
    + intros _. split_and!.
      * apply Sorted_sets_List.
      * apply NoDup_sets_List.
      * intros f. rewrite elem_of_sets_List, elem_of_union, elem_of_list_to_set.
        done.
Qed.

(** X2. [AddFinalizers] is idempotent: a second call with the same
    finalizers reports no update and changes nothing; and after the first
    call [HasFinalizer] holds of every finalizer that was added and of
    every finalizer that was there before. *)
Theorem AddFinalizers_idempotent obj (newFinalizers : gset string) :
  let r := AddFinalizers obj newFinalizers in
  AddFinalizers r.2 newFinalizers = (false, r.2) ∧
  (∀ f, f ∈ newFinalizers → HasFinalizer r.2 f = true) ∧
  (∀ f, HasFinalizer obj f = true → HasFinalizer r.2 f = true).
Proof.
  intros r.
  assert (∀ f, f ∈ r.2 ↔ f ∈ obj ∨ (r.1 = true ∧ f ∈ newFinalizers)) as Hin.
  { intros f. unfold r, AddFinalizers. cbv zeta. case_bool_decide; simpl.
    - split; [by left|]. by intros [?|[[=] _]].
    - rewrite elem_of_sets_List, elem_of_union, elem_of_list_to_set.
      split; [intros [?|?]; auto|intros [?|[_ ?]]; auto]. }
  assert (∀ f, f ∈ newFinalizers → f ∈ r.2) as Hnew.
  { intros f Hf. unfold r, AddFinalizers. cbv zeta.
    case_bool_decide as Hd; simpl.
    - apply Hd in Hf. by apply elem_of_list_to_set in Hf.
    - rewrite elem_of_sets_List, elem_of_union. by right. }
  split_and!.
  - unfold AddFinalizers at 1. cbv zeta. rewrite bool_decide_eq_true_2; [done|].
    intros f Hf. apply elem_of_list_to_set. by apply Hnew.
  - intros f Hf. apply HasFinalizer_elem_of. by apply Hnew.
  - intros f Hf. apply HasFinalizer_elem_of. apply Hin. left.
    by apply HasFinalizer_elem_of.
Qed.

(** X3. [RemoveFinalizers] reports no update, and leaves the finalizers of
    the object exactly as they were, if and only if none of the given
    finalizers is on the object; otherwise it reports an update and the
    object carries, sorted and without duplicates, exactly the old
    finalizers that were not given. *)
Theorem RemoveFinalizers_spec obj (finalizers : gset string) :
  let r := RemoveFinalizers obj finalizers in
  (r.1 = false ↔ ∀ f, f ∈ obj → f ∉ finalizers) ∧
  (r.1 = false → r.2 = obj) ∧
  (r.1 = true →
   StronglySorted (λ a b, String.leb a b = true) r.2 ∧ NoDup r.2 ∧
   ∀ f, f ∈ r.2 ↔ f ∈ obj ∧ f ∉ finalizers).
Proof.
  unfold RemoveFinalizers. cbv zeta.
  assert (size ((list_to_set obj : gset string) ∩ finalizers) = 0
          ↔ ∀ f, f ∈ obj → f ∉ finalizers) as Hdisj.
  { rewrite size_empty_iff. split.
    - intros He f Hf Hf'. apply (not_elem_of_empty (C:=gset string) f).
      rewrite <-He. apply elem_of_intersection.
      by rewrite elem_of_list_to_set.
    - intros H. apply set_equiv. intros f.
      rewrite elem_of_intersection, elem_of_list_to_set.
      split; [|by intros ?%not_elem_of_empty]. intros [? ?]. by destruct (H f). }
  case_bool_decide as Hd; simpl.
  - split_and!; [|done..]. split; [intros _; by apply Hdisj|done].
  - split_and!; [|done|].
    + split; [done|]. intros H. destruct Hd. by apply Hdisj.
    + intros _. split_and!.
      * apply Sorted_sets_List.
      * apply NoDup_sets_List.
      * intros f.
        by rewrite elem_of_sets_List, elem_of_difference, elem_of_list_to_set.
Qed.

(** X4. Round trip: adding finalizers of which none is on the object and
    removing the same finalizers again leaves the finalizers the object had,
    as a sorted list without duplicates; on an object whose finalizers were
    sorted and free of duplicates that is the list it had.  Both calls
    report an update as soon as one finalizer is given. *)
Theorem RemoveFinalizers_AddFinalizers obj (finalizers : gset string) :
  (∀ f, f ∈ finalizers → f ∉ obj) →
  finalizers ≠ ∅ →
  let added := AddFinalizers obj finalizers in
  let removed := RemoveFinalizers added.2 finalizers in
  added.1 = true ∧ removed.1 = true ∧
  removed.2 = sets_List (list_to_set obj) ∧
  (StronglySorted (λ a b, String.leb a b = true) obj → NoDup obj →
   removed.2 = obj).
Proof.
  intros Hfresh Hne added removed.
  apply set_choose_L in Hne as [f0 Hf0].
  assert (¬ finalizers ⊆ (list_to_set obj : gset string)) as Hnsub.
  { intros Hsub. apply (Hfresh f0 Hf0).
    apply (elem_of_list_to_set (C:=gset string)), Hsub, Hf0. }
  assert (added = (true, sets_List (list_to_set obj ∪ finalizers))) as Hadd.
  { unfold added, AddFinalizers. cbv zeta. by rewrite bool_decide_eq_false_2. }
  assert (removed = (true, sets_List (list_to_set obj))) as Hrem.
  { unfold removed, RemoveFinalizers. rewrite Hadd. cbv zeta. simpl.
    rewrite list_to_set_sets_List. rewrite bool_decide_eq_false_2.
    - do 2 f_equal. apply set_eq. intros f.
      rewrite elem_of_difference, elem_of_union, elem_of_list_to_set.
      specialize (Hfresh f). tauto.
    - rewrite size_empty_iff. intros He.
      apply (not_elem_of_empty (C:=gset string) f0). rewrite <-He.
      rewrite elem_of_intersection, elem_of_union. auto. }
  rewrite Hadd, Hrem. simpl. split_and!; [done..|].
  intros. by apply sets_List_of_sorted.
Qed.

Lemma RemoveFinalizers_AddFinalizers_witness :
  (RemoveFinalizers (AddFinalizers ["b"; "d"] {[ "a"; "c" ]}).2 {[ "a"; "c" ]}).2
  = ["b"; "d"].
Proof.
  apply (RemoveFinalizers_AddFinalizers ["b"; "d"] {[ "a"; "c" ]}).
  - apply (bool_decide_unpack _). vm_compute. exact I.
  - apply (bool_decide_unpack _). vm_compute. exact I.
  - apply (bool_decide_unpack _). vm_compute. exact I.
  - apply (bool_decide_unpack _). vm_compute. exact I.
Defined.

(** The cases of [TestAddFinalizers] and [TestRemoveFinalizers]. *)
Example AddFinalizers_tests :
  AddFinalizers [] ∅ = (false, []) ∧
  AddFinalizers [] {[ "someFinalizer" ]} = (true, ["someFinalizer"]) ∧
  AddFinalizers ["someFinalizer"] ∅ = (false, ["someFinalizer"]) ∧
  AddFinalizers ["someFinalizer"] {[ "anotherFinalizer" ]}
  = (true, ["anotherFinalizer"; "someFinalizer"]) ∧
  AddFinalizers ["someFinalizer"] {[ "someFinalizer" ]}
  = (false, ["someFinalizer"]).
Proof. by vm_compute. Qed.

Example RemoveFinalizers_tests :
  RemoveFinalizers [] ∅ = (false, []) ∧
  RemoveFinalizers [] {[ "someFinalizer" ]} = (false, []) ∧
  RemoveFinalizers ["someFinalizer"] ∅ = (false, ["someFinalizer"]) ∧
  RemoveFinalizers ["someFinalizer"] {[ "anotherFinalizer" ]}
  = (false, ["someFinalizer"]) ∧
  RemoveFinalizers ["someFinalizer"; "anotherFinalizer"] {[ "someFinalizer" ]}
  = (true, ["anotherFinalizer"]).
Proof. by vm_compute. Qed.

End FinalizersFacts.

(** * More properties of the version manager *)

Module VersionMore.
Import Version VersionFacts.

Section cache.

Variable PropagatedVersionName : string → string → string.
Context {C : Type} `{!Client C}.

Local Abbreviation Update := (Update PropagatedVersionName).
Local Abbreviation Get := (Get PropagatedVersionName).
Local Abbreviation Delete := (Delete PropagatedVersionName).
Local Abbreviation key m resource :=
  (QualifiedName_String
     (versionQualifiedName PropagatedVersionName m (FederatedName resource))).

(** X5. [Update] touches the record of its resource only: the cached
    records of all other keys, and the other fields of the manager, are
    after the call what they were before, whatever the call returns. *)
Theorem Update_frame retries m (c : C) R selectedClusters V :
  let r := Update retries m c R selectedClusters V in
  (∀ k, k ≠ key m R → versions (uManager r) !! k = versions m !! k) ∧
  targetKind (uManager r) = targetKind m ∧
  federatedKind (uManager r) = federatedKind m ∧
  namespace (uManager r) = namespace m ∧
  hasSynced (uManager r) = hasSynced m.
Proof.
  unfold Version.Update.
  destruct (resourceTemplateVersion R) as [tv|]; [|done].
  destruct (resourceOverrideVersion R) as [ov|]; [|done].
  destruct (versions m !! key m R) as [obj|].
  - cbv zeta. destruct (PropagatedVersionStatusEquivalent _ _); [done|].
    destruct (writeVersion _ _ _ _) as [[err obj'] c']. simpl.
    split_and!; [|done..]. intros k Hk. by rewrite lookup_insert_ne.
  - cbv zeta. destruct (writeVersion _ _ _ _) as [[err obj'] c']. simpl.
    split_and!; [|done..]. intros k Hk. by rewrite lookup_insert_ne.
Qed.

(** X6. Whatever the cache held, after an [Update] of a resource whose
    versions can be computed the record of the resource carries the
    resource's template and override version, and its cluster versions are
    sorted by cluster name, name each cluster once, and hold no empty
    version. *)
Theorem Update_record_wellformed retries m (c : C) R selectedClusters V
    templateVersion overrideVersion :
  resourceTemplateVersion R = Ok templateVersion →
  resourceOverrideVersion R = Ok overrideVersion →
  let m' := uManager (Update retries m c R selectedClusters V) in
  ∃ obj,
    versions m' !! key m' R = Some obj ∧
    TemplateVersion (status obj) = templateVersion ∧
    OverrideVersion (status obj) = overrideVersion ∧
    StronglySorted
      (λ a b, String.leb (ClusterName a) (ClusterName b) = true)
      (ClusterVersions (status obj)) ∧
    NoDup (ClusterName <$> ClusterVersions (status obj)) ∧
    (∀ v, v ∈ ClusterVersions (status obj) → Version v ≠ "").
Proof.
  intros Htv Hov m'.
  destruct (Update_stored_map PropagatedVersionName retries m c R
              selectedClusters V _ _ Htv Hov) as (obj & Hobj & Hst).
  exists obj. rewrite Hst. simpl. split_and!; try done.
  - apply SortClusterVersions_sorted.
  - apply NoDup_names_VersionMapToClusterVersions.
  - intros [cluster version] Hv.
    apply elem_of_VersionMapToClusterVersions in Hv as [Hne _]. done.
Qed.

(** X7. Round trip for any cache: after an [Update] of a resource whose
    versions can be computed, [Get] for the resource, its versions
    unchanged, returns the map the call left to its caller (the new
    versions together with the old ones it retained) without the empty
    versions. *)
Theorem Get_Update retries m (c : C) R selectedClusters V R'
    templateVersion overrideVersion :
  resourceTemplateVersion R = Ok templateVersion →
  resourceOverrideVersion R = Ok overrideVersion →
  FederatedName R' = FederatedName R →
  resourceTemplateVersion R' = Ok templateVersion →
  resourceOverrideVersion R' = Ok overrideVersion →
  let r := Update retries m c R selectedClusters V in
  Get (uManager r) R' = Ok (restrictNonEmpty (uVersionMap r)) ∧
  (∀ cluster version,
     V !! cluster = Some version → uVersionMap r !! cluster = Some version).
Proof.
  intros Htv Hov Hname Htv' Hov' r.
  destruct (Update_stored_map PropagatedVersionName retries m c R
              selectedClusters V _ _ Htv Hov) as (obj & Hobj & Hst).
  fold r in Hobj, Hst. split.
  - unfold Version.Get. rewrite Hname, Hobj, Htv', Hov'.
    unfold GetStatus. rewrite Hst. simpl.
    rewrite !bool_decide_eq_true_2 by done. simpl.
    by rewrite clusterVersionsToMap_VersionMapToClusterVersions.
  - intros cluster version Hv.
    destruct (Update_caller_map PropagatedVersionName retries m c R
                selectedClusters V _ _ Htv Hov) as (oldVersions & Hmap).
    fold r in Hmap. rewrite Hmap. by apply mergedVersions_new.
Qed.

(** X8. [Delete] forgets the record of the named resource and nothing
    else: [Get] for the resource then returns the empty map and no error,
    also when the versions of the resource cannot be computed; every other
    record stays; and deleting again changes nothing. *)
Theorem Delete_spec m R :
  let m' := Delete m (FederatedName R) in
  Get m' R = Ok ∅ ∧
  (∀ k, k ≠ key m R → versions m' !! k = versions m !! k) ∧
  Delete m' (FederatedName R) = m'.
Proof.
  intros m'. split_and!.
  - unfold Version.Get, m', Version.Delete. simpl.
    unfold versionQualifiedName. simpl. by rewrite lookup_delete_eq.
  - intros k Hk. unfold m', Version.Delete. simpl.
    by rewrite lookup_delete_ne.
  - unfold m', Version.Delete, setVersions. simpl. f_equal.
    unfold versionQualifiedName. simpl. apply delete_id.
    by rewrite lookup_delete_eq.
Qed.

End cache.

(** ** Maps and lists of cluster versions *)

Lemma filter_all {A} (P : A → Prop) `{!∀ x, Decision (P x)} (l : list A) :
  (∀ x, x ∈ l → P x) → filter P l = l.
Proof.
  induction l as [|x l IH]; [done|]. intros Hall.
  rewrite filter_cons_True by (apply Hall; left).
  f_equal. apply IH. intros y Hy. apply Hall. by right.
Qed.

(** X25. Round trips between the map and the list of cluster versions.
    The list [VersionMapToClusterVersions] makes of a map, read back into a
    map as [Get] does, is the map without its empty versions.  And a list
    that is sorted by cluster name, names each cluster once and holds no
    empty version comes back unchanged from the map made of it. *)
Theorem VersionMapToClusterVersions_round_trip :
  (∀ versionMap : gmap string string,
     clusterVersionsToMap (VersionMapToClusterVersions versionMap)
     = restrictNonEmpty versionMap) ∧
  (∀ clusterVersions : list ClusterObjectVersion,
     StronglySorted clusterNameLe clusterVersions →
     NoDup (ClusterName <$> clusterVersions) →
     (∀ v, v ∈ clusterVersions → Version v ≠ "") →
     VersionMapToClusterVersions (clusterVersionsToMap clusterVersions)
     = clusterVersions).
Proof.
  split; [apply clusterVersionsToMap_VersionMapToClusterVersions|].
  intros l Hsorted Hnd Hne. symmetry.
  apply sorted_by_name_unique; [done..|apply SortClusterVersions_sorted|].
  apply entry_Permutation.
  rewrite entry_VersionMapToClusterVersions, clusterVersionsToMap_list_to_map.
  assert (NoDup (reverse (entry <$> l)).*1) as Hnd'.
  { rewrite <-fmap_reverse, reverse_Permutation, <-list_fmap_compose.
    exact Hnd. }
  rewrite (map_to_list_to_map _ Hnd'), reverse_Permutation.
  rewrite filter_all; [done|].
  intros e (v & -> & Hv)%list_elem_of_fmap. by apply Hne.
Qed.

(** X26. Go ranges over a map in an order of its own choosing.  In
    whatever order the entries of the map come, the loop of
    [VersionMapToClusterVersions] followed by the sort gives one and the
    same list. *)
Theorem VersionMapToClusterVersions_order (versionMap : gmap string string)
    (entries entries' : list (string * string)) :
  entries ≡ₚ map_to_list versionMap →
  entries' ≡ₚ map_to_list versionMap →
  SortClusterVersions (clusterVersionsOfEntries entries)
  = SortClusterVersions (clusterVersionsOfEntries entries').
Proof.
  intros H1 H2.
  by rewrite (VersionMapToClusterVersions_any_order versionMap entries),
    (VersionMapToClusterVersions_any_order versionMap entries').
Qed.

Section runs.
Import Fake Examples.

Lemma VersionMapToClusterVersions_round_trip_witness :
  VersionMapToClusterVersions
    (clusterVersionsToMap [cv "c1" "v1"; cv "c2" "v2"])
  = [cv "c1" "v1"; cv "c2" "v2"].
Proof.
  apply (proj2 VersionMapToClusterVersions_round_trip
           [cv "c1" "v1"; cv "c2" "v2"]).
  - apply (bool_decide_unpack _). vm_compute. exact I.
  - apply (bool_decide_unpack _). vm_compute. exact I.
  - intros v Hv. apply elem_of_cons in Hv as [->|Hv]; [done|].
    apply list_elem_of_singleton in Hv as ->. done.
Defined.

Lemma VersionMapToClusterVersions_order_witness :
  SortClusterVersions
    (clusterVersionsOfEntries [("c2", "v2"); ("c0", ""); ("c1", "v1")])
  = SortClusterVersions
      (clusterVersionsOfEntries [("c1", "v1"); ("c2", "v2"); ("c0", "")]).
Proof.
  apply (VersionMapToClusterVersions_order
           (<["c2" := "v2"]> (<["c1" := "v1"]> {[ "c0" := "" ]}))).
  - apply (bool_decide_unpack _). vm_compute. exact I.
  - apply (bool_decide_unpack _). vm_compute. exact I.
Defined.

Lemma Update_record_wellformed_witness :
  let m' := uManager (Update versionNameOf 3 stale store R ["c1"; "c2"]
                        (<["c2" := ""]> {[ "c1" := "v2" ]})) in
  ∃ obj,
    versions m'
      !! QualifiedName_String
           (versionQualifiedName versionNameOf m' (FederatedName R))
      = Some obj ∧
    TemplateVersion (status obj) = "t1" ∧
    OverrideVersion (status obj) = "o1" ∧
    StronglySorted
      (λ a b, String.leb (ClusterName a) (ClusterName b) = true)
      (ClusterVersions (status obj)) ∧
    NoDup (ClusterName <$> ClusterVersions (status obj)) ∧
    (∀ v, v ∈ ClusterVersions (status obj) → Version v ≠ "").
Proof.
  apply (Update_record_wellformed versionNameOf 3 stale store R ["c1"; "c2"]
           (<["c2" := ""]> {[ "c1" := "v2" ]}) "t1" "o1"); reflexivity.
Defined.

Lemma Get_Update_witness :
  let V : gmap string string := <["c3" := ""]> {[ "c1" := "v2" ]} in
  let r := Update versionNameOf 3 prior store R ["c1"; "c2"] V in
  Get versionNameOf (uManager r) R = Ok (restrictNonEmpty (uVersionMap r)) ∧
  (∀ cluster version,
     V !! cluster = Some version → uVersionMap r !! cluster = Some version).
Proof.
  intros V.
  apply (Get_Update versionNameOf 3 prior store R ["c1"; "c2"] V R "t1" "o1");
    reflexivity.
Defined.

Example Get_Update_run :
  let V : gmap string string := <["c3" := ""]> {[ "c1" := "v2" ]} in
  let r := Update versionNameOf 3 prior store R ["c1"; "c2"] V in
  Get versionNameOf (uManager r) R
  = Ok (<["c2" := "v1"]> {[ "c1" := "v2" ]}) ∧
  uVersionMap r = <["c3" := ""]> (<["c2" := "v1"]> {[ "c1" := "v2" ]}).
Proof. vm_compute. done. Qed.

End runs.

End VersionMore.

(** * More properties of the write protocol *)

Module ProtocolMore.
Import Version Fake Payload VersionFacts.

Section protocol.

Variable qualifiedName : QualifiedName.
Variable obj : PropagatedVersion.

Local Abbreviation conforms := (conforms qualifiedName obj).
Local Abbreviation follows := (follows qualifiedName obj).
Local Abbreviation concerns := (concerns qualifiedName obj).

Lemma concerns_writeCall resourceVersion :
  concerns (writeCall obj resourceVersion).
Proof. unfold writeCall. case_decide; simpl; done. Qed.

Lemma concerns_follows prev next :
  concerns prev.1 → follows prev next → concerns next.
Proof.
  destruct prev as [[ns n|created|updated] [rv|err]]; simpl.
  - intros _ ->. apply concerns_writeCall.
  - by intros _ ->.
  - by intros _ ->.
  - intros Hc. repeat case_match; try done; by intros ->.
  - done.
  - intros Hc. repeat case_match; try done; intros ->; try done.
    apply concerns_writeCall.
Qed.

Lemma conforms_concerns (expected : call → Prop) h :
  (∀ what, expected what → concerns what) →
  conforms expected h → ∀ x, x ∈ h → concerns x.1.
Proof.
  revert expected. induction h as [|y h IH]; intros expected Hexp;
    [by intros _ x ?%elem_of_nil|].
  simpl. intros [Hy Hh] x [->|Hx]%elem_of_cons; [by apply Hexp|].
  eapply IH; [|exact Hh|exact Hx].
  intros what. apply concerns_follows. by apply Hexp.
Qed.

(** ** The number of calls *)

Lemma updateStep_calls (c : client) resourceVersion step s' :
  updateStep c obj resourceVersion = (step, s') →
  length (history (wClient s')) = S (length (history c)).
Proof.
  unfold updateStep. simpl.
  destruct (nextReply c) as [rv|err];
    [|destruct (IsConflict err), (IsNotFound err), (IsForbidden err)];
    intros [= <- <-]; simpl; rewrite length_app; simpl; lia.
Qed.

Lemma createStep_calls (c : client) resourceVersion step s' :
  createStep c obj resourceVersion = (step, s') →
  S (length (history c)) ≤ length (history (wClient s'))
  ≤ 2 + length (history c).
Proof.
  unfold createStep. case_decide.
  - simpl. destruct (nextReply c) as [rv|err].
    + intros Hu%updateStep_calls. rewrite Hu. simpl.
      rewrite length_app. simpl. lia.
    + destruct (IsAlreadyExists err), (IsForbidden err);
        intros [= <- <-]; simpl; rewrite length_app; simpl; lia.
  - intros Hu%updateStep_calls. lia.
Qed.

Lemma writeStep_calls (s : writeState (C:=client)) step s' :
  wObj s = obj →
  writeStep qualifiedName s = (step, s') →
  S (length (history (wClient s))) ≤ length (history (wClient s'))
  ≤ 3 + length (history (wClient s)).
Proof.
  intros Hobj. unfold writeStep. rewrite Hobj.
  destruct (wRefreshVersion s).
  - unfold getResourceVersionFromAPI. simpl.
    destruct (nextReply (wClient s)) as [rv|err].
    + intros Hc%createStep_calls. simpl in Hc.
      rewrite length_app in Hc. simpl in Hc. lia.
    + intros [= <- <-]. simpl. rewrite length_app. simpl. lia.
  - intros Hc%createStep_calls. lia.
Qed.

Lemma writeStep_obj (s : writeState (C:=client)) s' :
  wObj s = obj →
  writeStep qualifiedName s = (Retry, s') → wObj s' = obj.
Proof.
  intros Hobj Hstep.
  apply (writeStep_trace qualifiedName obj) in Hstep; [|done].
  destruct Hstep as (? & ? & _ & _ & _ & Hends). simpl in Hends. tauto.
Qed.

Lemma pollUntil_calls retries (s : writeState (C:=client)) err s' :
  wObj s = obj →
  pollUntil retries qualifiedName s = (err, s') →
  S (length (history (wClient s))) ≤ length (history (wClient s'))
  ≤ 3 * S retries + length (history (wClient s)).
Proof.
  revert s. induction retries as [|n IH]; intros s Hobj; simpl;
    destruct (writeStep qualifiedName s) as [step s1] eqn:Hstep;
    pose proof (writeStep_calls _ _ _ Hobj Hstep) as Hlen;
    destruct step as [| |abort]; try (intros [= <- <-]; lia).
  intros Hpoll. apply IH in Hpoll; [lia|].
  by eapply writeStep_obj.
Qed.

(** ** The object returned *)

Lemma updateStep_result (c : client) resourceVersion step s' :
  updateStep c obj resourceVersion = (step, s') →
  match step with
  | Done => ∃ updated rv,
      last (history (wClient s')) = Some (CallUpdateStatus updated, Ok rv) ∧
      wObj s' = setResourceVersion obj rv
  | _ => wObj s' = obj
  end.
Proof.
  unfold updateStep. simpl.
  destruct (nextReply c) as [rv|err];
    [|destruct (IsConflict err), (IsNotFound err), (IsForbidden err)];
    intros [= <- <-]; simpl; try done.
  eexists _, _. by rewrite last_snoc.
Qed.

Lemma createStep_result (c : client) resourceVersion step s' :
  createStep c obj resourceVersion = (step, s') →
  match step with
  | Done => ∃ updated rv,
      last (history (wClient s')) = Some (CallUpdateStatus updated, Ok rv) ∧
      wObj s' = setResourceVersion obj rv
  | _ => wObj s' = obj
  end.
Proof.
  unfold createStep. case_decide; [|apply updateStep_result].
  simpl. destruct (nextReply c) as [rv|err]; [apply updateStep_result|].
  destruct (IsAlreadyExists err), (IsForbidden err); by intros [= <- <-].
Qed.

Lemma writeStep_result (s : writeState (C:=client)) step s' :
  wObj s = obj →
  writeStep qualifiedName s = (step, s') →
  match step with
  | Done => ∃ updated rv,
      last (history (wClient s')) = Some (CallUpdateStatus updated, Ok rv) ∧
      wObj s' = setResourceVersion obj rv
  | _ => wObj s' = obj
  end.
Proof.
  intros Hobj. unfold writeStep. rewrite Hobj.
  destruct (wRefreshVersion s); [|apply createStep_result].
  unfold getResourceVersionFromAPI. simpl.
  destruct (nextReply (wClient s)) as [rv|err]; [apply createStep_result|].
  by intros [= <- <-].
Qed.

Lemma pollUntil_result retries (s : writeState (C:=client)) err s' :
  wObj s = obj →
  pollUntil retries qualifiedName s = (err, s') →
  match err with
  | None => ∃ updated rv,
      last (history (wClient s')) = Some (CallUpdateStatus updated, Ok rv) ∧
      wObj s' = setResourceVersion obj rv
  | Some _ => wObj s' = obj
  end.
Proof.
  revert s. induction retries as [|n IH]; intros s Hobj; simpl;
    destruct (writeStep qualifiedName s) as [step s1] eqn:Hstep;
    pose proof (writeStep_result _ _ _ Hobj Hstep) as Hres;
    destruct step as [| |abort]; try (by intros [= <- <-]).
  intros Hpoll. by apply IH in Hpoll.
Qed.

End protocol.

(** X9. Whatever the API answers, one [writeVersion] makes at least one
    call and at most three for each run of the poll's condition (a fetch,
    a create and a status update): at most [3 * (retries + 1)] calls when
    [retries] intervals fit before the deadline. *)
Theorem writeVersion_calls_bounded retries rs obj qualifiedName :
  let run := writeVersion retries (script rs) obj qualifiedName in
  1 ≤ length (calls run.2) ≤ 3 * (retries + 1).
Proof.
  intros run. unfold calls. rewrite length_fmap.
  unfold run, writeVersion.
  destruct (pollUntil _ _ _) as [err s'] eqn:Hpoll.
  apply (pollUntil_calls qualifiedName obj) in Hpoll; [|done].
  cbn [wClient script history length] in Hpoll.
  unfold exchange in *. destruct err; cbn [snd]; lia.
Qed.

(** X10. Every call of one [writeVersion] concerns the record it was given
    and no other: each fetch is of the record's qualified name, each create
    carries the name, the owner and the status of the record and no
    resource version, each status update carries the name, the owner and
    the status of the record. *)
Theorem writeVersion_calls_concern retries rs obj qualifiedName :
  let run := writeVersion retries (script rs) obj qualifiedName in
  ∀ what, what ∈ calls run.2 → concerns qualifiedName obj what.
Proof.
  intros run what Hin. unfold calls in Hin.
  apply list_elem_of_fmap in Hin as (x & -> & Hx).
  destruct (writeVersion_trace qualifiedName obj retries rs)
    as (err & lastExchange & _ & _ & Hconf & _).
  fold run in Hconf.
  eapply conforms_concerns; [|exact Hconf|exact Hx].
  intros ? <-. apply concerns_writeCall.
Qed.

(** X11. [writeVersion] returns nil exactly when the last call of the
    invocation is a status update that succeeded; the object then has the
    resource version that update returned and is otherwise as it was.  When
    [writeVersion] returns an error the object is as it was. *)
Theorem writeVersion_result retries rs obj qualifiedName :
  let run := writeVersion retries (script rs) obj qualifiedName in
  (run.1.1 = None ↔
   ∃ updated rv, last (history run.2) = Some (CallUpdateStatus updated, Ok rv)) ∧
  (∀ updated rv,
     last (history run.2) = Some (CallUpdateStatus updated, Ok rv) →
     run.1.2 = setResourceVersion obj rv) ∧
  (run.1.1 ≠ None → run.1.2 = obj).
Proof.
  intros run.
  destruct (writeVersion_trace qualifiedName obj retries rs)
    as (err & lastExchange & Herr & Hlast & _ & Hends).
  fold run in Herr, Hlast.
  assert (match err with
          | None => ∃ updated rv,
              last (history run.2) = Some (CallUpdateStatus updated, Ok rv) ∧
              run.1.2 = setResourceVersion obj rv
          | Some _ => run.1.2 = obj
          end) as Hres.
  { revert Herr. unfold run, writeVersion.
    destruct (pollUntil _ _ _) as [err0 s'] eqn:Hpoll.
    apply (pollUntil_result qualifiedName obj) in Hpoll; [|done].
    destruct err0, err; simpl; try done. }
  assert (err ≠ None →
          ¬ ∃ updated rv, lastExchange = (CallUpdateStatus updated, Ok rv))
    as Hfail.
  { destruct err as [e|]; [intros _|done]. simpl in Hends.
    intros (updated & rv & ->).
    destruct Hends as [[_ [[? [=]]|[? [=]]]]|(_ & _ & ? & ? & [=])]. }
  split_and!.
  - rewrite Herr. destruct err as [e|]; simpl.
    + split; [done|]. intros (updated & rv & Hl). destruct Hfail; [done|].
      rewrite Hlast in Hl. injection Hl as ->. eauto.
    + split; [|done]. intros _. destruct Hres as (? & ? & ? & _). eauto.
  - intros updated rv Hl. destruct err as [e|].
    + destruct Hfail; [done|]. rewrite Hlast in Hl. injection Hl as ->. eauto.
    + destruct Hres as (updated' & rv' & Hl' & ->).
      rewrite Hl in Hl'. by injection Hl' as _ ->.
  - rewrite Herr. destruct err; [done|]. simpl. done.
Qed.

(** X12. Against an API that accepts the calls, a record without a
    resource version costs two calls, the create and the status update
    under the resource version the create returned, and a record with one
    costs the single status update; in both cases [writeVersion] returns
    nil and the object carries the resource version of the update. *)
Theorem writeVersion_accepted retries obj qualifiedName created updated rs :
  (resourceVersion obj = "" →
   writeVersion retries (script (Ok created :: Ok updated :: rs)) obj
     qualifiedName
   = (None, setResourceVersion obj updated,
      {| replies := rs;
         history :=
           [(CallCreate (setResourceVersion obj ""), Ok created);
            (CallUpdateStatus (setResourceVersion obj created), Ok updated)] |})) ∧
  (resourceVersion obj ≠ "" →
   writeVersion retries (script (Ok updated :: rs)) obj qualifiedName
   = (None, setResourceVersion obj updated,
      {| replies := rs;
         history :=
           [(CallUpdateStatus (setResourceVersion obj (resourceVersion obj)),
             Ok updated)] |})).
Proof.
  split; intros Hrv; unfold writeVersion, getResourceVersion;
    destruct retries; simpl; unfold writeStep, createStep; simpl.
  all: try rewrite Hrv; simpl; try rewrite decide_False by done; done.
Qed.

(** X13. How the API's refusals are recovered from, when at least one
    interval fits before the deadline.  A create refused because the record
    already exists is followed by a fetch of the record's resource version
    and the status update under it; a status update refused by a conflict
    likewise; a status update refused because the record is not found is
    followed by the create and the status update under the resource version
    the create returned.  In each case [writeVersion] returns nil and the
    object carries the resource version of the last update. *)
Theorem writeVersion_recovers retries obj qualifiedName err rv rv' rs :
  let recovered first :=
    (None, setResourceVersion obj rv',
     {| replies := rs;
        history :=
          [(first, Err err);
           (refreshCall qualifiedName, Ok rv);
           (CallUpdateStatus (setResourceVersion obj rv), Ok rv')] |}) in
  let refused := script (Err err :: Ok rv :: Ok rv' :: rs) in
  (resourceVersion obj = "" → IsAlreadyExists err = true → rv ≠ "" →
   writeVersion (S retries) refused obj qualifiedName
   = recovered (CallCreate (setResourceVersion obj ""))) ∧
  (resourceVersion obj ≠ "" → IsConflict err = true → rv ≠ "" →
   writeVersion (S retries) refused obj qualifiedName
   = recovered
       (CallUpdateStatus (setResourceVersion obj (resourceVersion obj)))) ∧
  (resourceVersion obj ≠ "" → IsNotFound err = true →
   writeVersion (S retries) refused obj qualifiedName
   = (None, setResourceVersion obj rv',
      {| replies := rs;
         history :=
           [(CallUpdateStatus (setResourceVersion obj (resourceVersion obj)),
             Err err);
            (CallCreate (setResourceVersion obj ""), Ok rv);
            (CallUpdateStatus (setResourceVersion obj rv), Ok rv')] |})).
Proof.
  intros recovered refused. unfold recovered, refused.
  split_and!.
  - intros Hrv Herr Hne. unfold writeVersion, getResourceVersion.
    rewrite Hrv. simpl. unfold writeStep at 1. simpl.
    unfold createStep at 1. simpl. rewrite Herr.
    destruct retries; simpl; unfold writeStep, getResourceVersionFromAPI,
      createStep; simpl; rewrite decide_False by done; done.
  - intros Hrv Herr Hne. unfold writeVersion, getResourceVersion.
    simpl. unfold writeStep at 1. simpl.
    unfold createStep at 1. rewrite decide_False by done.
    unfold updateStep. simpl. rewrite Herr.
    destruct retries; simpl; unfold writeStep, getResourceVersionFromAPI,
      createStep; simpl; rewrite decide_False by done; done.
  - intros Hrv Herr.
    assert (IsConflict err = false) as Hc.
    { unfold IsNotFound, IsConflict in *.
      apply bool_decide_eq_true in Herr. apply bool_decide_eq_false.
      rewrite Herr. done. }
    unfold writeVersion, getResourceVersion.
    simpl. unfold writeStep at 1. simpl.
    unfold createStep at 1. rewrite decide_False by done.
    unfold updateStep. simpl. rewrite Hc, Herr.
    destruct retries; simpl; unfold writeStep, createStep; simpl; done.
Qed.

Lemma IsForbidden_only err :
  IsForbidden err = true →
  IsAlreadyExists err = false ∧ IsConflict err = false ∧
  IsNotFound err = false.
Proof.
  unfold IsForbidden, IsAlreadyExists, IsConflict, IsNotFound.
  intros Hf%bool_decide_eq_true. rewrite Hf.
  split_and!; by apply bool_decide_eq_false.
Qed.

(** X27. A forbidden write is not retried: when the API answers the first
    call of [writeVersion] with a forbidden error, that call (a create for
    a record without a resource version, a status update otherwise) is the
    only one, however many intervals fit before the deadline, and
    [writeVersion] returns the error, wrapped, with the object as it
    was. *)
Theorem writeVersion_forbidden retries obj qualifiedName err rs :
  IsForbidden err = true →
  writeVersion retries (script (Err err :: rs)) obj qualifiedName
  = (Some (Wrap err "Failed to write the version map for %s %q to the API"),
     obj,
     {| replies := rs;
        history := [(writeCall obj (resourceVersion obj), Err err)] |}).
Proof.
  intros Hf. destruct (IsForbidden_only err Hf) as (Ha & Hc & Hn).
  unfold writeVersion, getResourceVersion, writeCall.
  destruct retries; simpl; unfold writeStep, createStep, updateStep; simpl;
    destruct (decide (resourceVersion obj = "")); simpl;
    by rewrite ?Ha, ?Hc, ?Hn, ?Hf.
Qed.

Lemma pollUntil_deadline retries qualifiedName obj resourceVersion err rs h :
  IsAlreadyExists err = false → IsConflict err = false →
  IsNotFound err = false → IsForbidden err = false →
  pollUntil retries qualifiedName
    {| wClient := {| replies := replicate (S retries) (Err err) ++ rs;
                     history := h |};
       wObj := obj; wResourceVersion := resourceVersion;
       wRefreshVersion := false |}
  = (Some DeadlineExceeded,
     {| wClient :=
          {| replies := rs;
             history :=
               h ++ replicate (S retries)
                      (writeCall obj resourceVersion, Err err) |};
        wObj := obj; wResourceVersion := resourceVersion;
        wRefreshVersion := false |}).
Proof.
  intros Ha Hc Hn Hf. revert h.
  induction retries as [|n IH]; intros h.
  - simpl. unfold writeStep, createStep, updateStep, writeCall. simpl.
    destruct (decide (resourceVersion = "")); simpl;
      by rewrite ?Ha, ?Hc, ?Hn, ?Hf.
  - cbn [pollUntil].
    assert (writeStep qualifiedName
              {| wClient := {| replies := replicate (S (S n)) (Err err) ++ rs;
                               history := h |};
                 wObj := obj; wResourceVersion := resourceVersion;
                 wRefreshVersion := false |}
            = (Retry,
               {| wClient :=
                    {| replies := replicate (S n) (Err err) ++ rs;
                       history := h ++ [(writeCall obj resourceVersion,
                                         Err err)] |};
                  wObj := obj; wResourceVersion := resourceVersion;
                  wRefreshVersion := false |})) as ->.
    { unfold writeStep, createStep, updateStep, writeCall. simpl.
      destruct (decide (resourceVersion = "")); simpl;
        by rewrite ?Ha, ?Hc, ?Hn, ?Hf. }
    rewrite IH. by rewrite <-app_assoc.
Qed.

(** X28. The deadline.  Against an API that refuses every call with an
    error that is none of already-exists, conflict, not-found and
    forbidden, [writeVersion] repeats the same call, once at once and once
    per interval that fits before the deadline, never fetches, and returns
    the error of the deadline, wrapped, with the object as it was. *)
Theorem writeVersion_deadline retries obj qualifiedName err rs :
  IsAlreadyExists err = false → IsConflict err = false →
  IsNotFound err = false → IsForbidden err = false →
  writeVersion retries (script (replicate (S retries) (Err err) ++ rs)) obj
    qualifiedName
  = (Some (Wrap DeadlineExceeded
             "Failed to write the version map for %s %q to the API"),
     obj,
     {| replies := rs;
        history :=
          replicate (S retries)
            (writeCall obj (resourceVersion obj), Err err) |}).
Proof.
  intros Ha Hc Hn Hf. unfold writeVersion, script.
  by rewrite (pollUntil_deadline retries qualifiedName obj
                (getResourceVersion obj) err rs [] Ha Hc Hn Hf).
Qed.

(** X14. The first call of an [Update] that writes.  Without a cached
    record it is the create of a new record named after the resource, owned
    by it, with the resource's versions and the versions passed; with a
    cached record it is the write of that record with the merged status,
    under the resource version it was cached with (a create when that is
    empty).  No fetch comes before it. *)
Theorem Update_first_call PropagatedVersionName retries m (c : client) R
    selectedClusters V templateVersion overrideVersion :
  resourceTemplateVersion R = Ok templateVersion →
  resourceOverrideVersion R = Ok overrideVersion →
  let r := Update PropagatedVersionName retries m c R selectedClusters V in
  let qualifiedName :=
    versionQualifiedName PropagatedVersionName m (FederatedName R) in
  uWrites r = 1 →
  ∃ first rest,
    history (uClient r) = history c ++ first :: rest ∧
    first.1 =
      match versions m !! QualifiedName_String qualifiedName with
      | None =>
        CallCreate
          (NewVersion qualifiedName (ownerReferenceForUnstructured (Object R))
             {| TemplateVersion := templateVersion;
                OverrideVersion := overrideVersion;
                ClusterVersions := VersionMapToClusterVersions V |})
      | Some obj =>
        writeCall
          (SetStatus obj
             (mergedStatus (GetStatus obj) templateVersion overrideVersion V
                selectedClusters))
          (resourceVersion obj)
      end.
Proof.
  intros Htv Hov r qualifiedName. unfold r, Update. rewrite Htv, Hov.
  fold qualifiedName.
  assert (∀ obj,
    ∃ first rest,
      history (writeVersion retries c obj qualifiedName).2
        = history c ++ first :: rest ∧
      first.1 = writeCall obj (resourceVersion obj)) as Hfirst.
  { intros obj. unfold writeVersion.
    destruct (pollUntil _ _ _) as [err s'] eqn:Hpoll.
    apply (pollUntil_trace qualifiedName obj) in Hpoll
      as (ex & lastExchange & Hh & Hlast & Hconf & _); [|done].
    destruct ex as [|first rest]; [done|]. destruct Hconf as [Hc _].
    exists first, rest. rewrite <-Hc. by destruct err. }
  destruct (versions m !! QualifiedName_String qualifiedName) as [obj|].
  - cbv zeta.
    destruct (PropagatedVersionStatusEquivalent _ _); [done|]. intros _.
    destruct (Hfirst (SetStatus obj
      (mergedStatus (GetStatus obj) templateVersion overrideVersion V
         selectedClusters))) as (first & rest & Hh & Hc).
    exists first, rest. revert Hh. unfold mergedStatus.
    destruct (writeVersion _ _ _ _) as [[? ?] ?]. simpl. done.
  - cbv zeta. intros _.
    destruct (Hfirst (NewVersion qualifiedName
      (ownerReferenceForUnstructured (Object R))
      {| TemplateVersion := templateVersion;
         OverrideVersion := overrideVersion;
         ClusterVersions := VersionMapToClusterVersions V |}))
      as (first & rest & Hh & Hc).
    exists first, rest. revert Hh.
    destruct (writeVersion _ _ _ _) as [[? ?] ?]. simpl. done.
Qed.

Lemma writeVersion_accepted_witness :
  let new := Examples.record (Examples.statusOf "t1" "o1" []) in
  writeVersion 3 (script [Ok "6"; Ok "7"]) (setResourceVersion new "")
    {| Namespace := "ns"; Name := "configmap-cm" |}
  = (None, setResourceVersion new "7",
     {| replies := [];
        history :=
          [(CallCreate (setResourceVersion new ""), Ok "6");
           (CallUpdateStatus (setResourceVersion new "6"), Ok "7")] |}) ∧
  writeVersion 3 (script [Ok "6"]) new
    {| Namespace := "ns"; Name := "configmap-cm" |}
  = (None, setResourceVersion new "6",
     {| replies := [];
        history := [(CallUpdateStatus new, Ok "6")] |}).
Proof.
  intros new. split.
  - apply (proj1 (writeVersion_accepted 3 (setResourceVersion new "")
                    {| Namespace := "ns"; Name := "configmap-cm" |} "6" "7" [])).
    reflexivity.
  - apply (proj2 (writeVersion_accepted 3 new
                    {| Namespace := "ns"; Name := "configmap-cm" |} "6" "6" [])).
    done.
Defined.

Lemma writeVersion_recovers_witness :
  let new := Examples.record (Examples.statusOf "t1" "o1" []) in
  let qualifiedName := {| Namespace := "ns"; Name := "configmap-cm" |} in
  writeVersion 1
    (script [Err (StatusError ReasonAlreadyExists); Ok "6"; Ok "7"])
    (setResourceVersion new "") qualifiedName
  = (None, setResourceVersion new "7",
     {| replies := [];
        history :=
          [(CallCreate (setResourceVersion new ""),
            Err (StatusError ReasonAlreadyExists));
           (refreshCall qualifiedName, Ok "6");
           (CallUpdateStatus (setResourceVersion new "6"), Ok "7")] |}) ∧
  writeVersion 1
    (script [Err (StatusError ReasonConflict); Ok "6"; Ok "7"]) new
    qualifiedName
  = (None, setResourceVersion new "7",
     {| replies := [];
        history :=
          [(CallUpdateStatus new, Err (StatusError ReasonConflict));
           (refreshCall qualifiedName, Ok "6");
           (CallUpdateStatus (setResourceVersion new "6"), Ok "7")] |}) ∧
  writeVersion 1
    (script [Err (StatusError ReasonNotFound); Ok "6"; Ok "7"]) new
    qualifiedName
  = (None, setResourceVersion new "7",
     {| replies := [];
        history :=
          [(CallUpdateStatus new, Err (StatusError ReasonNotFound));
           (CallCreate (setResourceVersion new ""), Ok "6");
           (CallUpdateStatus (setResourceVersion new "6"), Ok "7")] |}).
Proof.
  intros new qualifiedName. split_and!.
  - apply (proj1 (writeVersion_recovers 0 (setResourceVersion new "")
                    qualifiedName (StatusError ReasonAlreadyExists)
                    "6" "7" [])); done.
  - apply (proj1 (proj2 (writeVersion_recovers 0 new qualifiedName
                           (StatusError ReasonConflict) "6" "7" []))); done.
  - apply (proj2 (proj2 (writeVersion_recovers 0 new qualifiedName
                           (StatusError ReasonNotFound) "6" "7" []))); done.
Defined.

Lemma writeVersion_calls_concern_witness :
  let new := Examples.record (Examples.statusOf "t1" "o1" []) in
  let qualifiedName := {| Namespace := "ns"; Name := "configmap-cm" |} in
  concerns qualifiedName new (CallGet "ns" "configmap-cm").
Proof.
  intros new qualifiedName.
  apply (writeVersion_calls_concern 1
           [Err (StatusError ReasonConflict); Ok "6"; Ok "7"] new
           qualifiedName (CallGet "ns" "configmap-cm")).
  apply (bool_decide_unpack _). vm_compute. exact I.
Defined.

Lemma writeVersion_result_witness :
  let new := Examples.record (Examples.statusOf "t1" "o1" []) in
  let qualifiedName := {| Namespace := "ns"; Name := "configmap-cm" |} in
  let run :=
    writeVersion 1 (script [Err (StatusError ReasonConflict); Ok "6"; Ok "7"])
      new qualifiedName in
  run.1.1 = None ∧ run.1.2 = setResourceVersion new "7".
Proof.
  intros new qualifiedName run.
  destruct (writeVersion_result 1
              [Err (StatusError ReasonConflict); Ok "6"; Ok "7"] new
              qualifiedName) as (Hnil & Hobj & _).
  split.
  - apply Hnil. exists (setResourceVersion new "6"), "7".
    vm_compute. reflexivity.
  - apply (Hobj (setResourceVersion new "6") "7"). vm_compute. reflexivity.
Defined.

Lemma writeVersion_forbidden_witness :
  let new := Examples.record (Examples.statusOf "t1" "o1" []) in
  writeVersion 3 (script [Err (StatusError ReasonForbidden); Ok "6"]) new
    {| Namespace := "ns"; Name := "configmap-cm" |}
  = (Some (Wrap (StatusError ReasonForbidden)
             "Failed to write the version map for %s %q to the API"),
     new,
     {| replies := [Ok "6"];
        history :=
          [(CallUpdateStatus new, Err (StatusError ReasonForbidden))] |}).
Proof.
  intros new.
  apply (writeVersion_forbidden 3 new
           {| Namespace := "ns"; Name := "configmap-cm" |}
           (StatusError ReasonForbidden) [Ok "6"]).
  reflexivity.
Defined.

Lemma writeVersion_deadline_witness :
  let new := Examples.record (Examples.statusOf "t1" "o1" []) in
  writeVersion 2
    (script [Err (ErrorNew "timeout"); Err (ErrorNew "timeout");
             Err (ErrorNew "timeout"); Ok "6"]) new
    {| Namespace := "ns"; Name := "configmap-cm" |}
  = (Some (Wrap DeadlineExceeded
             "Failed to write the version map for %s %q to the API"),
     new,
     {| replies := [Ok "6"];
        history :=
          [(CallUpdateStatus new, Err (ErrorNew "timeout"));
           (CallUpdateStatus new, Err (ErrorNew "timeout"));
           (CallUpdateStatus new, Err (ErrorNew "timeout"))] |}).
Proof.
  intros new.
  apply (writeVersion_deadline 2 new
           {| Namespace := "ns"; Name := "configmap-cm" |}
           (ErrorNew "timeout") [Ok "6"]); reflexivity.
Defined.

Lemma Update_first_call_witness :
  let r :=
    Update versionNameOf 3 Examples.prior Examples.store Examples.R
      ["c1"; "c2"] {[ "c1" := "v2" ]} in
  ∃ first rest,
    history (uClient r) = history Examples.store ++ first :: rest ∧
    first.1 =
      CallUpdateStatus
        (Examples.record
           (Examples.statusOf "t1" "o1"
              [Examples.cv "c1" "v2"; Examples.cv "c2" "v1"])).
Proof.
  intros r.
  assert (uWrites r = 1) as Hw by (vm_compute; reflexivity).
  destruct (Update_first_call versionNameOf 3 Examples.prior Examples.store
              Examples.R ["c1"; "c2"] {[ "c1" := "v2" ]} "t1" "o1"
              eq_refl eq_refl Hw) as (first & rest & Hh & Hc).
  exists first, rest. split; [exact Hh|]. rewrite Hc. vm_compute. reflexivity.
Defined.

End ProtocolMore.

(** * Properties of [Sync], [list] and [load] *)

Module VersionSyncFacts.
Import Version VersionSync.

Lemma closed_mono stopAt a b :
  a ≤ b → closed stopAt a = true → closed stopAt b = true.
Proof.
  destruct stopAt as [k|]; simpl; [|done].
  rewrite !bool_decide_eq_true. lia.
Qed.

Lemma listVersions_from polls poll listAt stopAt n :
  poll ≤ n →
  (∀ k, poll ≤ k < n → ∃ err, listAt k = Err err) →
  (n < poll + polls → closed stopAt n = true →
   listVersions polls poll listAt stopAt = Halted) ∧
  (∀ versionList, n < poll + polls → closed stopAt n = false →
     listAt n = Ok versionList →
     listVersions polls poll listAt stopAt = Listed versionList) ∧
  (poll + polls ≤ n → closed stopAt n = false →
   listVersions polls poll listAt stopAt = StillPolling).
Proof.
  revert poll. induction polls as [|polls IH]; intros poll Hle Herr.
  { split_and!; [lia|intros; lia|done]. }
  simpl. destruct (closed stopAt poll) eqn:Hclosed.
  { split_and!; [done| |].
    - intros l _ Hn. by rewrite (closed_mono _ _ _ Hle Hclosed) in Hn.
    - intros _ Hn. by rewrite (closed_mono _ _ _ Hle Hclosed) in Hn. }
  destruct (decide (poll = n)) as [->|Hne].
  { rewrite Hclosed. split_and!; [done| |intros; lia].
    intros l _ _ ->. done. }
  destruct (Herr poll) as [err ->]; [lia|].
  destruct (IH (S poll)) as (Hhalt & Hlist & Hpoll); [lia| |].
  { intros k Hk. apply Herr. lia. }
  split_and!.
  - intros ? ?. apply Hhalt; [lia|done].
  - intros l ? ? ?. apply Hlist; [lia|done..].
  - intros ? ?. apply Hpoll; [lia|done].
Qed.

(** X15. [list] retries a failed listing and never returns its error.
    When the listings before poll [n] all fail: if the stop channel is
    closed by poll [n], [list] gives up ([nil, false]); if it is not and
    the listing at poll [n] succeeds, [list] returns that listing, once the
    polls reach [n]; and before they do, it is still polling. *)
Theorem listVersions_spec polls listAt stopAt n :
  (∀ k, k < n → ∃ err, listAt k = Err err) →
  (n < polls → closed stopAt n = true →
   listVersions polls 0 listAt stopAt = Halted) ∧
  (∀ versionList, n < polls → closed stopAt n = false →
     listAt n = Ok versionList →
     listVersions polls 0 listAt stopAt = Listed versionList) ∧
  (polls ≤ n → closed stopAt n = false →
   listVersions polls 0 listAt stopAt = StillPolling).
Proof.
  intros Herr.
  apply (listVersions_from polls 0 listAt stopAt n); [lia|].
  intros k Hk. apply Herr. lia.
Qed.

Section load.

Variable PropagatedVersionPrefix : string → string.

Local Abbreviation load := (load PropagatedVersionPrefix).
Local Abbreviation Sync := (Sync PropagatedVersionPrefix).

(** The items of a list that [load] stores under the key [k] for the type
    prefix [typePrefix]. *)
Local Abbreviation storedUnder typePrefix k items :=
  (filter (λ obj : PropagatedVersion,
             String.prefix typePrefix (Name (NewQualifiedName obj)) = true ∧
             QualifiedName_String (NewQualifiedName obj) = k) items).

Lemma loadItems_lookup typePrefix versions items item k :
  let r := loadItems typePrefix versions items item None in
  r.2 = true ∧
  r.1 !! k =
    match last (storedUnder typePrefix k items) with
    | Some obj => Some obj
    | None => versions !! k
    end.
Proof.
  revert versions item. induction items as [|obj rest IH];
    intros versions item; [done|].
  cbn [loadItems closed]. cbv zeta.
  match goal with
  | |- context [loadItems _ ?v _ _ _] => destruct (IH v (S item)) as [Hfin Hk]
  end.
  split; [done|]. rewrite Hk. clear Hk Hfin IH.
  destruct (decide
    (String.prefix typePrefix (Name (NewQualifiedName obj)) = true ∧
     QualifiedName_String (NewQualifiedName obj) = k)) as [[Hp Hkey]|Hno].
  - rewrite filter_cons_True by done.
    subst k. rewrite Hp, lookup_insert_eq.
    destruct (filter _ rest) as [|y l] eqn:Hf; [done|].
    rewrite last_cons_cons. destruct (last (y :: l)) eqn:Hl; [done|].
    by apply last_None in Hl.
  - rewrite filter_cons_False by done.
    destruct (last _); [done|].
    destruct (String.prefix _ _) eqn:Hp; [|done].
    rewrite lookup_insert_ne; [done|]. intros Hkey. by apply Hno.
Qed.

Lemma loadItems_stopped typePrefix versions items item n :
  item ≤ n → n - item < length items →
  loadItems typePrefix versions items item (Some n)
  = ((loadItems typePrefix versions (take (n - item) items) item None).1,
     false).
Proof.
  revert versions item. induction items as [|obj rest IH];
    intros versions item Hle Hlen; simpl in Hlen; [lia|].
  cbn [loadItems closed]. case_bool_decide as Hn.
  - replace (n - item) with 0 by lia. done.
  - replace (n - item) with (S (n - S item)) by lia.
    cbn [take loadItems closed]. cbv zeta. apply IH; lia.
Qed.

Lemma load_finished m items :
  load m (Ok items) None
  = ({| targetKind := targetKind m; federatedKind := federatedKind m;
        namespace := namespace m; hasSynced := true;
        versions :=
          (loadItems (PropagatedVersionPrefix (targetKind m)) (versions m)
             items 0 None).1 |},
     true).
Proof.
  unfold VersionSync.load.
  pose proof (loadItems_lookup (PropagatedVersionPrefix (targetKind m))
                (versions m) items 0 "") as [Hfin _].
  destruct (loadItems _ _ _ _ _) as [vs finished].
  simpl in Hfin. by subst finished.
Qed.

(** X16. What [load] leaves in the cache when the stop channel stays open:
    it reports success, the manager has synced, and under each key the
    cache holds the last item of the list that has that key and the type
    prefix of the manager's target kind, or, if there is none, what it held
    before.  Items of other types are ignored. *)
Theorem load_spec m items :
  let r := load m (Ok items) None in
  let typePrefix := PropagatedVersionPrefix (targetKind m) in
  r.2 = true ∧ HasSynced r.1 = true ∧
  targetKind r.1 = targetKind m ∧ federatedKind r.1 = federatedKind m ∧
  namespace r.1 = namespace m ∧
  ∀ k, versions r.1 !! k =
    match last (storedUnder typePrefix k items) with
    | Some obj => Some obj
    | None => versions m !! k
    end.
Proof.
  intros r typePrefix. unfold r. rewrite load_finished. simpl.
  split_and!; try done. intros k.
  by destruct (loadItems_lookup typePrefix (versions m) items 0 k) as [_ ?].
Qed.

(** X17. A [load] that finds the stop channel closed before item [n] of
    the list reports failure and leaves the manager not synced if it was
    not, but the items before [n] are in the cache as a complete [load] of
    those items alone would have left them. *)
Theorem load_stopped m items n :
  n < length items →
  load m (Ok items) (Some n)
  = (setVersions m (versions (load m (Ok (take n items)) None).1), false).
Proof.
  intros Hn. unfold VersionSync.load.
  rewrite loadItems_stopped by lia. rewrite Nat.sub_0_r.
  pose proof (loadItems_lookup (PropagatedVersionPrefix (targetKind m))
                (versions m) (take n items) 0 "") as [Hfin _].
  destruct (loadItems _ _ (take n items) _ _) as [vs finished].
  simpl in Hfin. subst finished. done.
Qed.

Lemma filter_none {A} (P : A → Prop) `{!∀ x, Decision (P x)} (l : list A) :
  (∀ x, x ∈ l → ¬ P x) → filter P l = [].
Proof.
  induction l as [|x l IH]; [done|]. intros Hno.
  rewrite filter_cons_False by (apply Hno; left).
  apply IH. intros y Hy. apply Hno. by right.
Qed.

Lemma storedUnder_NoDup typePrefix (items : list PropagatedVersion) obj :
  NoDup ((λ o, QualifiedName_String (NewQualifiedName o)) <$> items) →
  obj ∈ items →
  String.prefix typePrefix (Name (NewQualifiedName obj)) = true →
  storedUnder typePrefix (QualifiedName_String (NewQualifiedName obj)) items
  = [obj].
Proof.
  induction items as [|o rest IH]; [by intros _ ?%elem_of_nil|].
  rewrite fmap_cons, NoDup_cons. intros [Hnotin Hnd] Hin Hp.
  apply elem_of_cons in Hin as [<-|Hin].
  - rewrite filter_cons_True by done. f_equal.
    apply filter_none. intros o Ho [_ Hkey].
    apply Hnotin. rewrite <-Hkey. apply list_elem_of_fmap. eauto.
  - rewrite filter_cons_False; [by apply IH|].
    intros [_ Hkey]. apply Hnotin. rewrite Hkey.
    apply list_elem_of_fmap. eauto.
Qed.

Variable PropagatedVersionName : string → string → string.

(** X18. From [Sync] to [Get].  When the listings before poll [n] fail,
    the one at poll [n] succeeds, and the stop channel stays open, [Sync]
    ends once the polls reach [n] with a manager that has synced, and [Get]
    for a resource then answers from the item of the list that is the
    record of the resource: its cluster versions if the resource's template
    and override versions are those of the record, the empty map if not.
    The list names each record once, and the name of the record has the
    type prefix. *)
Theorem Get_Sync polls m listAt n items obj R templateVersion
    overrideVersion :
  String.prefix (PropagatedVersionPrefix (targetKind m))
    (PropagatedVersionName (targetKind m) (Name (FederatedName R))) = true →
  n < polls →
  (∀ k, k < n → ∃ err, listAt k = Err err) →
  listAt n = Ok items →
  NoDup ((λ o, QualifiedName_String (NewQualifiedName o)) <$> items) →
  obj ∈ items →
  versionName obj
    = versionQualifiedName PropagatedVersionName m (FederatedName R) →
  resourceTemplateVersion R = Ok templateVersion →
  resourceOverrideVersion R = Ok overrideVersion →
  ∃ m',
    Sync polls m listAt None None = Some m' ∧
    HasSynced m' = true ∧
    Get PropagatedVersionName m' R
    = Ok (if bool_decide (templateVersion = TemplateVersion (status obj)) &&
             bool_decide (overrideVersion = OverrideVersion (status obj))
          then clusterVersionsToMap (ClusterVersions (status obj))
          else ∅).
Proof.
  intros Hprefix Hn Herr Hlist Hnd Hin Hname Htv Hov.
  destruct (listVersions_from polls 0 listAt None n) as (_ & Hlisted & _);
    [lia|by intros k ?; apply Herr; lia|].
  unfold VersionSync.Sync. rewrite (Hlisted items Hn eq_refl Hlist).
  eexists. split; [done|].
  rewrite load_finished. simpl. split; [done|].
  assert (NewQualifiedName obj
          = versionQualifiedName PropagatedVersionName m (FederatedName R))
    as Hqn by (unfold NewQualifiedName; by rewrite Hname).
  unfold Get. unfold versionQualifiedName at 1. cbn [targetKind versions].
  fold (versionQualifiedName PropagatedVersionName m (FederatedName R)).
  destruct (loadItems_lookup (PropagatedVersionPrefix (targetKind m))
              (versions m) items 0
              (QualifiedName_String
                 (versionQualifiedName PropagatedVersionName m
                    (FederatedName R)))) as [_ ->].
  rewrite <-Hqn, storedUnder_NoDup; [| done..|].
  - simpl. rewrite Htv, Hov. unfold GetStatus. by destruct (_ && _).
  - by rewrite Hqn.
Qed.

End load.

Section runs.
Import Fake Examples SyncExamples.

Lemma listings_fail k : k < 2 → ∃ err, listings k = Err err.
Proof.
  intros Hk. unfold listings.
  destruct (Nat.ltb_spec k 2); [eauto|lia].
Qed.

Lemma listVersions_spec_witness :
  listVersions 5 0 listings None = Listed listed ∧
  listVersions 2 0 listings None = StillPolling ∧
  listVersions 5 0 listings (Some 1) = Halted.
Proof.
  split_and!.
  - apply (listVersions_spec 5 listings None 2 listings_fail);
      [lia|reflexivity..].
  - apply (listVersions_spec 2 listings None 2 listings_fail);
      [lia|reflexivity].
  - apply (listVersions_spec 5 listings (Some 1) 1
             (λ k Hk, listings_fail k ltac:(lia))); [lia|reflexivity].
Defined.

Lemma load_stopped_witness :
  load typePrefixOf manager
    (Ok [record (statusOf "t1" "o1" [cv "c1" "v1"]);
         record (statusOf "t2" "o1" [])]) (Some 1)
  = (setVersions manager
       (versions
          (load typePrefixOf manager
             (Ok [record (statusOf "t1" "o1" [cv "c1" "v1"])]) None).1),
     false).
Proof.
  apply (load_stopped typePrefixOf manager
           [record (statusOf "t1" "o1" [cv "c1" "v1"]);
            record (statusOf "t2" "o1" [])] 1).
  simpl. lia.
Defined.

Lemma Get_Sync_witness :
  ∃ m',
    Sync typePrefixOf 5 manager listings None None = Some m' ∧
    HasSynced m' = true ∧
    Get versionNameOf m' R = Ok {[ "c1" := "v1" ]}.
Proof.
  apply (Get_Sync typePrefixOf versionNameOf 5 manager listings 2 listed
           (record (statusOf "t1" "o1" [cv "c1" "v1"])) R "t1" "o1");
    try reflexivity.
  - lia.
  - apply listings_fail.
  - apply (bool_decide_unpack _). vm_compute. exact I.
  - left.
Defined.

Example Sync_run :
  (λ m', (HasSynced m', fst <$> map_to_list (versions m')))
    <$> Sync typePrefixOf 5 manager listings None None
  = Some (true, ["ns/configmap-cm"]).
Proof. vm_compute. reflexivity. Qed.

End runs.

End VersionSyncFacts.

(** * More properties of the status controller *)

Module StatusMore.
Import Status StatusWrites StatusFacts.

Lemma pollSynced_first informerAt poll retries found :
  pollSynced informerAt poll retries = Ok found ↔
  poll ≤ found ≤ poll + retries ∧
  isSynced (informerAt found) = true ∧
  ∀ k, poll ≤ k < found → isSynced (informerAt k) = false.
Proof.
  revert poll. induction retries as [|n IH]; intros poll; simpl;
    destruct (isSynced (informerAt poll)) eqn:Hs.
  - split.
    + intros [= <-]. split_and!; [lia..|done|intros; lia].
    + intros (Hle & Hf & Hbefore). f_equal.
      destruct (decide (poll = found)) as [|Hne]; [done|].
      rewrite Hbefore in Hs by lia. done.
  - split; [done|]. intros (Hle & Hf & _).
    replace found with poll in Hf by lia. congruence.
  - split.
    + intros [= <-]. split_and!; [lia..|done|intros; lia].
    + intros (Hle & Hf & Hbefore). f_equal.
      destruct (decide (poll = found)) as [|Hne]; [done|].
      rewrite Hbefore in Hs by lia. done.
  - rewrite IH. split.
    + intros (Hle & Hf & Hbefore). split_and!; [lia..|done|].
      intros k Hk. destruct (decide (k = poll)) as [->|]; [done|].
      apply Hbefore. lia.
    + intros (Hle & Hf & Hbefore).
      assert (poll ≠ found) by (intros ->; congruence).
      split_and!; [lia..|done|]. intros k Hk. apply Hbefore. lia.
Qed.

(** X19. [waitForSync] returns at the first poll at which the stores are
    in sync: it returns nil at poll [found] exactly when [found] is within
    the polls that fit before the deadline, the stores are in sync at
    [found], and they are in sync at none of the polls before. *)
Theorem waitForSync_first s found :
  waitForSync s = Ok found ↔
  found ≤ syncRetries s ∧
  isSynced (informerAt s found) = true ∧
  ∀ k, k < found → isSynced (informerAt s k) = false.
Proof.
  unfold waitForSync. rewrite pollSynced_first. split.
  - intros (? & ? & Hb). split_and!; [lia|done|]. intros k ?. apply Hb. lia.
  - intros (? & ? & Hb). split_and!; [lia..|done|]. intros k ?. apply Hb. lia.
Qed.

(** ** The cluster statuses *)

Lemma collectStatuses_app i key clusterStatus before rest :
  (∀ clusterName err, clusterName ∈ before →
     targetStore i clusterName key ≠ CacheError err) →
  collectStatuses i key clusterStatus (before ++ rest)
  = collectStatuses i key (clusterStatus ++ (entryOf i key <$> before)) rest.
Proof.
  revert clusterStatus.
  induction before as [|clusterName before IH]; intros clusterStatus Hok.
  { simpl. by rewrite app_nil_r. }
  cbn [app collectStatuses].
  destruct (targetStore i clusterName key) as [err| |clusterObj] eqn:Hs.
  - destruct (Hok clusterName err); [by left|done].
  - rewrite IH by (intros; apply Hok; by right).
    rewrite <-app_assoc, fmap_cons. do 2 f_equal. cbn [app]. f_equal.
    unfold entryOf. by rewrite Hs.
  - rewrite IH by (intros; apply Hok; by right).
    rewrite <-app_assoc, fmap_cons. do 2 f_equal. cbn [app]. f_equal.
    by apply statusOf_entryOf.
Qed.

(** X20. The error of [clusterStatuses] is that of the first cluster, in
    the order of the names given, whose store fails, wrapped; the stores of
    the clusters after it are not what decides. *)
Theorem clusterStatuses_first_error i key before clusterName after err :
  (∀ name err', name ∈ before → targetStore i name key ≠ CacheError err') →
  targetStore i clusterName key = CacheError err →
  clusterStatuses i (before ++ clusterName :: after) key
  = Err (Wrap err "Failed to get %s %q from cluster %q").
Proof.
  intros Hok Herr. unfold clusterStatuses.
  rewrite collectStatuses_app by done. simpl. by rewrite Herr.
Qed.

Lemma entries_sorted_unique (l1 l2 : list ResourceClusterStatus) :
  NoDup (ClusterName <$> l1) →
  StronglySorted byClusterName l1 → StronglySorted byClusterName l2 →
  l1 ≡ₚ l2 → l1 = l2.
Proof.
  intros Hnd Hs1 Hs2 Hperm.
  apply (StronglySorted_unique_strong byClusterName); [|done..].
  intros x1 x2 Hx1 Hx2 H12 H21.
  apply (VersionFacts.NoDup_fmap_elem_inj ClusterName l1);
    [done..|by rewrite Hperm|].
  by apply (anti_symm StrOrd.le).
Qed.

(** X21. The list of cluster statuses does not depend on the order in
    which the ready clusters are given: for names that differ from one
    another and stores that do not fail, two orders of the same names give
    the same list. *)
Theorem clusterStatuses_order i key clusterNames clusterNames' :
  NoDup clusterNames →
  clusterNames ≡ₚ clusterNames' →
  (∀ clusterName err, clusterName ∈ clusterNames →
     targetStore i clusterName key ≠ CacheError err) →
  clusterStatuses i clusterNames key = clusterStatuses i clusterNames' key.
Proof.
  intros Hnd Hperm Hok. unfold clusterStatuses.
  rewrite (collectStatuses_ok i key [] clusterNames Hok).
  rewrite (collectStatuses_ok i key [] clusterNames')
    by (intros name ? Hin; apply Hok; by rewrite Hperm).
  simpl. f_equal. apply entries_sorted_unique.
  - rewrite merge_sort_Permutation, <-list_fmap_compose.
    replace (ClusterName ∘ entryOf i key <$> clusterNames) with clusterNames;
      [done|].
    clear. induction clusterNames as [|? ? IH]; [done|].
    rewrite fmap_cons, <-IH. done.
  - apply (StronglySorted_merge_sort byClusterName).
  - apply (StronglySorted_merge_sort byClusterName).
  - by rewrite !merge_sort_Permutation, Hperm.
Qed.

Section reconcile.

Variable GetUnstructured : FederatedResource → result (gmap string value).

Local Abbreviation reconcile := (reconcile GetUnstructured).

Lemma writeStatus_writes s qualifiedName existingStatus status :
  let r := Status.writeStatus s qualifiedName existingStatus status in
  length r.2 ≤ 1 ∧
  (∀ w, w ∈ r.2 →
     addressed w = util.Namespace qualifiedName ∧
     r.1 = Returned match answered s w with
                    | Some _ => StatusNeedsRecheck
                    | None => StatusAllOK
                    end) ∧
  (r.2 = [] → r.1 = Returned StatusAllOK).
Proof.
  unfold Status.writeStatus. destruct existingStatus as [existingStatus|].
  - destruct (negb _); [|by split_and!; [simpl; lia|intros ? ?%elem_of_nil|]].
    cbv zeta.
    destruct (statusUpdate s _ _) eqn:Ha; simpl;
      (split_and!; [lia| |done]); intros w ->%list_elem_of_singleton; simpl;
      by rewrite Ha.
  - destruct (statusCreate s _ _) eqn:Ha; simpl;
      (split_and!; [lia| |done]); intros w ->%list_elem_of_singleton; simpl;
      by rewrite Ha.
Qed.

(** X22. What one [reconcile] does to the API, whatever the stores hold: it
    makes at most one call; the call is addressed to the namespace of the
    key; and [reconcile] returns NeedsRecheck when the API refused the
    call, AllOK when it accepted it.  Without a call [reconcile] never
    returns NeedsRecheck. *)
Theorem reconcile_writes s qualifiedName :
  let r := reconcile s qualifiedName in
  length r.2 ≤ 1 ∧
  (∀ w, w ∈ r.2 →
     addressed w = util.Namespace qualifiedName ∧
     r.1 = Returned match answered s w with
                    | Some _ => StatusNeedsRecheck
                    | None => StatusAllOK
                    end) ∧
  (r.2 = [] → r.1 ≠ Returned StatusNeedsRecheck).
Proof.
  assert (∀ o : outcome,
    o ≠ Returned StatusNeedsRecheck →
    length (o, @nil write).2 ≤ 1 ∧
    (∀ w, w ∈ (o, @nil write).2 →
       addressed w = util.Namespace qualifiedName ∧
       (o, @nil write).1 = Returned match answered s w with
                      | Some _ => StatusNeedsRecheck
                      | None => StatusAllOK
                      end) ∧
    ((o, @nil write).2 = [] → (o, @nil write).1 ≠ Returned StatusNeedsRecheck))
    as Hnone.
  { intros o Ho. simpl. split_and!; [lia|by intros ? ?%elem_of_nil|done]. }
  unfold Status.reconcile. destruct (waitForSync s); [|by apply Hnone].
  unfold Status.reconcileSynced.
  destruct (objFromCache (federatedStore _) _) as [[fedObject|]|];
    try by apply Hnone.
  case_bool_decide; [by apply Hnone|].
  destruct (clusterNames _) as [names|]; [|by apply Hnone].
  destruct (clusterStatuses _ _ _) as [clusterStatus|]; [|by apply Hnone].
  destruct (objFromCache (statusStore _) _) as [existingStatus|];
    [|by apply Hnone].
  cbv zeta. destruct (GetUnstructured _) as [status|]; [|by apply Hnone].
  destruct (writeStatus_writes s qualifiedName existingStatus status)
    as (Hlen & Hw & Hno).
  split_and!; [done..|]. intros Hnil. rewrite (Hno Hnil). done.
Qed.

Lemma clusterNames_ready i clusters :
  GetReadyClusters i = Ok clusters → clusterNames i = Ok clusters.
Proof.
  unfold clusterNames. intros ->. f_equal.
  assert (∀ acc : list string,
            foldl (λ clusterNames cluster, clusterNames ++ [cluster]) acc
              clusters = acc ++ clusters) as Hfold.
  { induction clusters as [|c l IH]; intros acc; simpl;
      [by rewrite app_nil_r|]. by rewrite IH, <-app_assoc. }
  apply Hfold.
Qed.

(** X23. Where [reconcile] stops before it writes, once the stores are in
    sync.  For a key without a federated object, or with one that is being
    deleted, it returns AllOK and calls nothing, whatever the clusters and
    the status store hold.  When the federated store fails, when the store
    of one of the ready clusters fails, or when the status store fails, it
    returns Error and calls nothing. *)
Theorem reconcile_without_write s qualifiedName found :
  waitForSync s = Ok found →
  let i := informerAt s found in
  let key := QualifiedName_String qualifiedName in
  (federatedStore i key = CacheAbsent →
   reconcile s qualifiedName = (Returned StatusAllOK, [])) ∧
  (∀ fedObject, federatedStore i key = CacheFound fedObject →
     GetDeletionTimestamp fedObject ≠ None →
     reconcile s qualifiedName = (Returned StatusAllOK, [])) ∧
  (∀ err, federatedStore i key = CacheError err →
     reconcile s qualifiedName = (Returned StatusError, [])) ∧
  (∀ fedObject clusters,
     federatedStore i key = CacheFound fedObject →
     GetDeletionTimestamp fedObject = None →
     GetReadyClusters i = Ok clusters →
     (∃ clusterName err, clusterName ∈ clusters ∧
                         targetStore i clusterName key = CacheError err) ∨
     (∃ err, statusStore i key = CacheError err) →
     reconcile s qualifiedName = (Returned StatusError, [])).
Proof.
  intros Hsync i key. unfold Status.reconcile. rewrite Hsync. fold i.
  unfold Status.reconcileSynced, objFromCache, rawObjFromCache. fold key.
  split_and!.
  - by intros ->.
  - intros fedObject -> Hdel. by rewrite bool_decide_eq_true_2.
  - by intros err ->.
  - intros fedObject clusters -> Hdel Hready Hfail.
    rewrite bool_decide_eq_false_2 by (by intros []).
    rewrite (clusterNames_ready _ _ Hready).
    destruct (clusterStatuses i clusters key) as [clusterStatus|] eqn:Hcs;
      [|done].
    destruct Hfail as [(clusterName & err & Hin & Herr)|[err ->]]; [|done].
    unfold clusterStatuses in Hcs.
    destruct (collectStatuses_error i key [] _ _ _ Hin Herr) as [err' Hc].
    by rewrite Hc in Hcs.
Qed.

(** ** After a write has reached the store *)

Lemma pollSynced_ext informerAt informerAt' poll retries :
  (∀ k, isSynced (informerAt' k) = isSynced (informerAt k)) →
  pollSynced informerAt' poll retries = pollSynced informerAt poll retries.
Proof.
  intros Hext. revert poll. induction retries as [|n IH]; intros poll;
    simpl; rewrite Hext; [done|]. by rewrite IH.
Qed.

Lemma collectStatuses_ext i i' key clusterStatus clusterNames :
  targetStore i' = targetStore i →
  collectStatuses i' key clusterStatus clusterNames
  = collectStatuses i key clusterStatus clusterNames.
Proof.
  intros Hext. revert clusterStatus.
  induction clusterNames as [|clusterName rest IH]; intros clusterStatus;
    [done|].
  cbn [collectStatuses]. rewrite Hext.
  destruct (targetStore i clusterName key); by rewrite ?IH.
Qed.

(** X24. Once a write of [reconcile] has reached the status store, the
    next [reconcile] of the key, with no other change, calls nothing and
    returns AllOK: after a create always, and after an update whenever the
    [clusterStatus] written is not the empty list. *)
Theorem reconcile_settles s qualifiedName o w :
  reconcile s qualifiedName = (o, [w]) →
  (∀ namespace obj, w = Update namespace obj →
     index obj clusterStatusField ≠ VList []) →
  reconcile (deliver s (QualifiedName_String qualifiedName) (payload w))
    qualifiedName
  = (Returned StatusAllOK, []).
Proof.
  intros Hrun Hupdate. revert Hrun. unfold Status.reconcile.
  assert (waitForSync
            (deliver s (QualifiedName_String qualifiedName) (payload w))
          = waitForSync s) as -> by (by apply pollSynced_ext).
  destruct (waitForSync s) as [found|]; [|done].
  unfold Status.reconcileSynced.
  set (i := informerAt s found).
  set (i' := informerAt
               (deliver s (QualifiedName_String qualifiedName) (payload w))
               found).
  change (federatedStore i') with (federatedStore i).
  destruct (objFromCache (federatedStore i) _) as [[fedObject|]|];
    try done.
  case_bool_decide; [done|].
  change (clusterNames i') with (clusterNames i).
  destruct (clusterNames i) as [names|]; [|done].
  assert (clusterStatuses i' names (QualifiedName_String qualifiedName)
          = clusterStatuses i names (QualifiedName_String qualifiedName))
    as -> by (unfold clusterStatuses; by rewrite (collectStatuses_ext i i')).
  destruct (clusterStatuses i names _) as [clusterStatus|]; [|done].
  assert (objFromCache (statusStore i') (QualifiedName_String qualifiedName)
          = Ok (Some (payload w))) as ->.
  { unfold objFromCache, rawObjFromCache, i'. simpl.
    by rewrite decide_True. }
  destruct (objFromCache (statusStore i) _) as [existingStatus|]; [|done].
  cbv zeta. change (typeCfg (deliver _ _ _)) with (typeCfg s).
  destruct (GetUnstructured _) as [status|]; [|done].
  intros Hwrite.
  apply (writeStatus_frame
           (deliver s (QualifiedName_String qualifiedName) (payload w))).
  revert Hwrite. unfold Status.writeStatus.
  destruct existingStatus as [existingStatus|].
  - destruct (negb _); [|done]. cbv zeta.
    destruct (decide (index status clusterStatusField = VNull)) as [Hnil|Hnn].
    + destruct (statusUpdate s _ _); intros [= <- <-];
        (edestruct Hupdate; [done|]); unfold index;
        by rewrite !lookup_insert_eq.
    + destruct (statusUpdate s _ _); intros [= <- <-]; simpl;
        unfold index at 1; by rewrite lookup_insert_eq.
  - destruct (statusCreate s _ _); by intros [= <- <-].
Qed.

End reconcile.

Section runs.
Import StatusExamples.

Local Abbreviation reconcile := (reconcile toUnstructured).

Lemma waitForSync_first_witness :
  waitForSync (controller (synced [] CacheAbsent)) = Ok 0.
Proof.
  apply (proj2 (waitForSync_first (controller (synced [] CacheAbsent)) 0)).
  split_and!; [simpl; lia|reflexivity|intros k Hk; lia].
Defined.

Lemma clusterStatuses_first_error_witness :
  clusterStatuses (synced [] CacheAbsent) (["B"; "A"] ++ "C" :: ["D"]) "ns/cm"
  = Err (Wrap (ErrorNew "store failed") "Failed to get %s %q from cluster %q").
Proof.
  apply (clusterStatuses_first_error (synced [] CacheAbsent) "ns/cm"
           ["B"; "A"] "C" ["D"] (ErrorNew "store failed")); [|reflexivity].
  intros name err' Hin.
  apply elem_of_cons in Hin as [->|Hin]; [done|].
  apply list_elem_of_singleton in Hin as ->. done.
Defined.

Lemma clusterStatuses_order_witness :
  clusterStatuses (synced [] CacheAbsent) ["B"; "A"] "ns/cm"
  = clusterStatuses (synced [] CacheAbsent) ["A"; "B"] "ns/cm".
Proof.
  apply (clusterStatuses_order (synced [] CacheAbsent) "ns/cm"
           ["B"; "A"] ["A"; "B"]).
  - apply (bool_decide_unpack _). vm_compute. exact I.
  - apply perm_swap.
  - intros name err' Hin.
    apply elem_of_cons in Hin as [->|Hin]; [done|].
    apply list_elem_of_singleton in Hin as ->. done.
Defined.

Lemma reconcile_without_write_witness :
  reconcile (controller (synced ["B"; "C"; "A"] CacheAbsent)) cm
  = (Returned StatusError, []).
Proof.
  apply (reconcile_without_write toUnstructured
           (controller (synced ["B"; "C"; "A"] CacheAbsent)) cm 0 eq_refl)
    with (fedObject := federated) (clusters := ["B"; "C"; "A"]);
    [reflexivity..|].
  left. exists "C", (ErrorNew "store failed"). split; [|reflexivity].
  right. left.
Defined.

Lemma reconcile_settles_witness :
  let s := controller (synced ["A"; "B"] (CacheFound persisted)) in
  let written :=
    <["clusterStatus" :=
        VList [clusterStatusValue {| ClusterName := "A"; Status := Some running |};
               clusterStatusValue {| ClusterName := "B"; Status := None |}]]>
      persisted in
  reconcile (deliver s "ns/cm" written) cm = (Returned StatusAllOK, []).
Proof.
  intros s written.
  apply (reconcile_settles toUnstructured s cm (Returned StatusAllOK)
           (Update "ns" written)).
  - vm_compute. reflexivity.
  - intros namespace obj [= <- <-]. vm_compute. discriminate.
Defined.

End runs.

End StatusMore.
